(** * A shallow embedding of the peer side of the P2P file-sharing program

    The development follows the C++ sources of the peer: [Utils] (tokenizer,
    piece hashing), [Files] (the local registry of shared files), the
    length-prefixed socket framing of [ClientSocket] / [ServerSocket], the
    [Seeder] command interpreter, the [Leecher] command forwarding and the
    [Logger].

    A [std::string] is a sequence of 8-bit characters and is modelled by
    [string]; an [int] is a [Z] together with its 32-bit range; a
    [std::map] is a [gmap]; a [std::vector] is a [list]. *)

From Stdlib Require Import ZArith Ascii String List Lia.
From stdpp Require Import gmap strings list.
From Equations Require Import Equations.

Local Open Scope Z_scope.

(** ** Outcomes of a C++ call

    The sources signal errors with [throw string(...)], which every handler
    catches with [catch (const string&)].  Exceptions raised by the standard
    library ([std::stoi], [std::string::substr]) have other types and escape
    those handlers; calls whose precondition is violated have no defined
    behaviour at all. *)

Inductive std_exception := invalid_argument | out_of_range.

Inductive outcome (A : Type) : Type :=
| Returned (a : A)
| Thrown (e : string)
| Uncaught (e : std_exception)
| Exit (code : Z)
| Undefined.

Arguments Returned {A} a.
Arguments Thrown {A} e.
Arguments Uncaught {A} e.
Arguments Exit {A} code.
Arguments Undefined {A}.

(** [outcome] is an error monad; stdpp's [x ← o; k] sequences two calls and
    stops at the first one that does not return. *)
#[global] Instance outcome_ret : MRet outcome := fun A a => Returned a.

#[global] Instance outcome_bind : MBind outcome := fun A B k o =>
  match o with
  | Returned a => k a
  | Thrown e => Thrown e
  | Uncaught e => Uncaught e
  | Exit code => Exit code
  | Undefined => Undefined
  end.

(** Code that also reads and updates the state [W] of its process: the
    state survives a throw, as the fields of a C++ object do. *)
Definition prog (W A : Type) : Type := W -> outcome A * W.

#[global] Instance prog_ret {W} : MRet (prog W) := fun A a w => (Returned a, w).

#[global] Instance prog_bind {W} : MBind (prog W) := fun A B k c w =>
  match c w with
  | (Returned a, w') => k a w'
  | (Thrown e, w') => (Thrown e, w')
  | (Uncaught e, w') => (Uncaught e, w')
  | (Exit code, w') => (Exit code, w')
  | (Undefined, w') => (Undefined, w')
  end.

Definition lift {W A} (o : outcome A) : prog W A := fun w => (o, w).
Definition throw {W A} (e : string) : prog W A := lift (Thrown e).
Definition gets {W A} (f : W -> A) : prog W A := fun w => (Returned (f w), w).
Definition modify {W} (f : W -> W) : prog W unit := fun w => (Returned tt, f w).

(** [try { c } catch (const string& e) { h e }] *)
Definition try_catch {W A} (c : prog W A) (h : string -> prog W A) : prog W A :=
  fun w => match c w with
           | (Thrown e, w') => h e w'
           | r => r
           end.

(** ** Machine integers *)

Definition INT_MIN : Z := - 2 ^ 31.
Definition INT_MAX : Z := 2 ^ 31 - 1.

Definition in_int (z : Z) : bool := (INT_MIN <=? z) && (z <=? INT_MAX).

(** Conversion of an out-of-range value to [int] keeps the low 32 bits. *)
Definition wrap_int (z : Z) : Z := (z + 2 ^ 31) mod 2 ^ 32 - 2 ^ 31.

(** Signed [int] arithmetic has no defined result on overflow. *)
Definition int_arith (z : Z) : outcome Z :=
  if in_int z then Returned z else Undefined.

(** ** Strings *)

Definition size (s : string) : Z := Z.of_nat (String.length s).

Definition empty (s : string) : bool :=
  match s with EmptyString => true | String _ _ => false end.

Definition push_back (s : string) (c : ascii) : string := s +:+ String c "".

Fixpoint drop (n : nat) (s : string) : string :=
  match n, s with
  | O, _ => s
  | S n', String _ r => drop n' r
  | S _, EmptyString => EmptyString
  end.

Fixpoint take (n : nat) (s : string) : string :=
  match n, s with
  | O, _ => EmptyString
  | S n', String c r => String c (take n' r)
  | S _, EmptyString => EmptyString
  end.

(** [s.substr(pos)]: throws [std::out_of_range] when [pos > s.size()]. *)
Definition substr (s : string) (pos : Z) : outcome string :=
  if (0 <=? pos) && (pos <=? size s) then Returned (drop (Z.to_nat pos) s)
  else Uncaught out_of_range.

(** [s.substr(pos, len)], same precondition on [pos]. *)
Definition substr2 (s : string) (pos len : Z) : outcome string :=
  if (0 <=? pos) && (pos <=? size s)
  then Returned (take (Z.to_nat len) (drop (Z.to_nat pos) s))
  else Uncaught out_of_range.

(** *** Decimal rendering: [std::to_string] *)

(** The decimal digits are the characters 48 to 57. *)
Definition digit_char (d : Z) : ascii := ascii_of_N (Z.to_N (48 + d)).

Definition digit_value (c : ascii) : option Z :=
  let code := Z.of_N (N_of_ascii c) in
  if (48 <=? code) && (code <=? 57) then Some (code - 48) else None.

(** Least significant digit first, each digit pushed in front of [acc]. *)
Fixpoint digits_loop (fuel : nat) (n : Z) (acc : string) : string :=
  match fuel with
  | O => acc
  | S fuel' =>
      let acc' := String (digit_char (n mod 10)) acc in
      if n / 10 =? 0 then acc' else digits_loop fuel' (n / 10) acc'
  end.

Definition digits (n : Z) : string :=
  digits_loop (S (Z.to_nat (Z.log2 n))) n "".

Definition to_string (z : Z) : string :=
  if z <? 0 then String "-"%char (digits (- z)) else digits z.

(** *** Decimal parsing: [std::stoi]

    [stoi] is [strtol] in base 10 followed by a range check: leading white
    space is skipped, one sign is accepted, then the longest run of digits is
    converted.  No digit at all raises [std::invalid_argument]; a value that
    does not fit an [int] raises [std::out_of_range]. *)

Definition nl : string := String "010"%char "".

(** C's [isspace]: space, and the characters 9 to 13. *)
Definition isspace (c : ascii) : bool := Ascii.is_space c.

Fixpoint skip_space (s : string) : string :=
  match s with
  | String c r => if isspace c then skip_space r else s
  | EmptyString => s
  end.

Fixpoint strtol_digits (s : string) (acc : Z) : Z :=
  match s with
  | String c r =>
      match digit_value c with
      | Some d => strtol_digits r (acc * 10 + d)
      | None => acc
      end
  | EmptyString => acc
  end.

Definition starts_with_digit (s : string) : bool :=
  match s with
  | String c _ => match digit_value c with Some _ => true | None => false end
  | EmptyString => false
  end.

Definition stoi (s : string) : outcome Z :=
  let s1 := skip_space s in
  let '(negative, s2) :=
    match s1 with
    | String "-"%char r => (true, r)
    | String "+"%char r => (false, r)
    | _ => (false, s1)
    end in
  if starts_with_digit s2 then
    let v := strtol_digits s2 0 in
    let v' := if negative then - v else v in
    if in_int v' then Returned v' else Uncaught out_of_range
  else Uncaught invalid_argument.

(** ** Constants of [headers.h] *)

Definition POOL_SIZE : Z := 10.
Definition PIECE_SIZE : Z := 1024.

(** The length of a [char buffer[PIECE_SIZE]] array. *)
Definition piece_bytes : nat := Z.to_nat PIECE_SIZE.

Definition ESC : string := String "027"%char "".
Definition RED : string := ESC +:+ "[31m".
Definition GREEN : string := ESC +:+ "[32m".
Definition YELLOW : string := ESC +:+ "[33m".
Definition RESET : string := ESC +:+ "[0m".

(** ** Utils *)

Module Utils.

(** [Utils::tokenize]: one pass over [buffer] with the token under
    construction in [temp]; empty tokens are not recorded. *)
Fixpoint tokenize_loop (buffer : string) (separator : ascii)
    (ans : list string) (temp : string) : list string :=
  match buffer with
  | String it rest =>
      if Ascii.eqb it separator
      then tokenize_loop rest separator
             (if empty temp then ans else ans ++ [temp]) ""
      else tokenize_loop rest separator ans (push_back temp it)
  | EmptyString => if empty temp then ans else ans ++ [temp]
  end.

Definition tokenize (buffer : string) (separator : ascii) : list string :=
  tokenize_loop buffer separator [] "".

(** *** Piece hashing

    OpenSSL's streaming interface: a context holds the bytes absorbed so far
    and [SHA256_Final] hashes them; the digest function itself is a parameter
    of the development. *)

Section Hashing.

Variable SHA256 : string -> string.

Definition SHA256_CTX := string.
Definition SHA256_Init : SHA256_CTX := "".
Definition SHA256_Update (ctx : SHA256_CTX) (data : string) : SHA256_CTX :=
  ctx +:+ data.
Definition SHA256_Final (ctx : SHA256_CTX) : string := SHA256 ctx.

Definition hex_digit (n : N) : ascii :=
  match n with
  | 0 => "0" | 1 => "1" | 2 => "2" | 3 => "3" | 4 => "4" | 5 => "5"
  | 6 => "6" | 7 => "7" | 8 => "8" | 9 => "9" | 10 => "a" | 11 => "b"
  | 12 => "c" | 13 => "d" | 14 => "e" | _ => "f"
  end%N%char.

(** [sprintf(hex_hash + 2 * i, "%02x", hash[i])] over the digest. *)
Fixpoint hex_hash (hash : string) : string :=
  match hash with
  | String c r =>
      let n := N_of_ascii c in
      String (hex_digit (n / 16)) (String (hex_digit (n mod 16)) (hex_hash r))
  | EmptyString => EmptyString
  end.

Opaque piece_bytes.

(** The [while ((bytesRead = read(fileFd, buffer, sizeof(buffer))) > 0)]
    loop of [Utils::findSHA]; [rest] is the part of the file after the
    descriptor's offset, and a read of a regular file returns
    [PIECE_SIZE] bytes unless fewer are left.  ([piece_bytes] is kept folded
    while the termination argument is checked.) *)
Equations? read_loop (rest : string) (sha256_1 : SHA256_CTX)
    (temp : list SHA256_CTX) : SHA256_CTX * list SHA256_CTX
    by wf (String.length rest) lt :=
  read_loop EmptyString sha256_1 temp := (sha256_1, temp);
  read_loop (String c r) sha256_1 temp :=
    let buffer := take piece_bytes (String c r) in
    let sha256_2 := SHA256_Update SHA256_Init buffer in
    read_loop (drop piece_bytes (String c r))
      (SHA256_Update sha256_1 buffer) (temp ++ [sha256_2]).
Proof.
  change piece_bytes with (S 1023). generalize 1023%nat. clear.
  intros n. cbn [drop]. revert n.
  induction r as [|a r IH]; intros [|n]; cbn; try lia.
  specialize (IH n). lia.
Qed.
Transparent piece_bytes.

(** [Utils::findSHA]; [disk] maps the path of each readable file to its
    content and [strerror] is the text of [strerror(errno)]. *)
Definition findSHA (disk : gmap string string) (strerror : string)
    (filePath : string) : outcome (list string) :=
  match disk !! filePath with
  | None => Thrown ("Opening file at findSHA()!!" +:+ nl +:+ "Error: " +:+ strerror)
  | Some content =>
      let '(sha256_1, temp) := read_loop content SHA256_Init [] in
      Returned (hex_hash (SHA256_Final sha256_1)
                :: map (fun it => hex_hash (SHA256_Final it)) temp)
  end.

(** [Utils::findPieceSHA] *)
Definition findPieceSHA (pieceData : string) : string :=
  hex_hash (SHA256_Final (SHA256_Update SHA256_Init pieceData)).

End Hashing.

(** [Utils::giveFileSize]: the offset [lseek(fd, 0, SEEK_END)] returns is
    the length of the file; the function returns it as an [int]. *)
Definition giveFileSize (disk : gmap string string) (strerror : string)
    (filePath : string) : outcome Z :=
  match disk !! filePath with
  | None => Thrown ("Opening file at giveFileSize()" +:+ nl +:+ "Error: " +:+ strerror)
  | Some content => Returned (wrap_int (size content))
  end.

End Utils.

(** ** Files: the registry of the files this peer shares

    [m_fileNameToFilePath] maps (file name, group name) to a path and
    [m_filePathToAvailablePieces] maps a path to the vector of piece numbers
    held for it.  The two mutexes serialise the calls; each call is one
    atomic step on the two maps. *)

Module Files.

Record t := mk {
  m_fileNameToFilePath : gmap (string * string) string;
  m_filePathToAvailablePieces : gmap string (list Z)
}.

Definition addFilepath (fileName groupName filePath : string) (F : t) : t :=
  mk (<[(fileName, groupName) := filePath]> (m_fileNameToFilePath F))
     (m_filePathToAvailablePieces F).

(** [m_filePathToAvailablePieces[filePath].push_back(pieceNumber)];
    [operator[]] inserts an empty vector for a new path. *)
Definition addPieceToFilepath (filePath : string) (pieceNumber : Z) (F : t) : t :=
  mk (m_fileNameToFilePath F)
     (<[filePath :=
          default [] (m_filePathToAvailablePieces F !! filePath) ++ [pieceNumber]]>
        (m_filePathToAvailablePieces F)).

Definition giveFilePath (fileName groupName : string) (F : t) : string :=
  match m_fileNameToFilePath F !! (fileName, groupName) with
  | Some filePath => filePath
  | None => ""
  end.

(** [for (pieceNumber : pieces) temp.append(" " + to_string(pieceNumber))] *)
Fixpoint append_pieces (temp : string) (pieces : list Z) : string :=
  match pieces with
  | pieceNumber :: rest =>
      append_pieces (temp +:+ (" " +:+ to_string pieceNumber)) rest
  | [] => temp
  end.

Definition giveAvailablePieces (filePath : string) (F : t) : string :=
  match m_filePathToAvailablePieces F !! filePath with
  | None => ""
  | Some pieces => append_pieces "" pieces
  end.

(** [std::find(pieces.begin(), pieces.end(), pieceNumber) != pieces.end()] *)
Definition find (pieces : list Z) (pieceNumber : Z) : bool :=
  existsb (Z.eqb pieceNumber) pieces.

Definition isPieceAvailable (filePath : string) (pieceNumber : Z) (F : t) : bool :=
  match m_filePathToAvailablePieces F !! filePath with
  | None => false
  | Some pieces => find pieces pieceNumber
  end.

End Files.

(** ** Length-prefixed framing over a stream socket

    Bytes handed to [send] reach the peer in order.  What the successive
    calls of [recv] return is fixed by the connection, not by the program:
    the inbound side of a socket is the list of the blocks those calls will
    return, and the end of the list is the peer's shutdown ([recv] returns
    0).  Failures of [send] and [recv] themselves are outside the model. *)

Definition RECV_BUFFER : Z := 524288.

Section RecvLoop.

(** What the caller does when [recv] returns 0. *)
Variable on_close : outcome string.

(** The [while (true)] loop shared by both [recvSocket] methods. *)
Fixpoint recv_loop (inbound : list string) (totalDataLength : Z)
    (receivedData : string) : outcome string * list string :=
  match inbound with
  | [] => (on_close, [])
  | buffer :: inbound' =>
      let bytesRead := size buffer in
      if bytesRead =? 0 then (on_close, inbound') else
      let receivedData := receivedData +:+ buffer in
      let step : outcome (Z * string) :=
        if totalDataLength =? -1 then
          match Utils.tokenize receivedData " " with
          | [] => Undefined
          | temp0 :: _ =>
              n ← stoi temp0;
              rest ← substr receivedData (size temp0 + 1);
              mret (wrap_int (n - (bytesRead - (size temp0 + 1))), rest)
          end
        else
          total ← int_arith (totalDataLength - bytesRead);
          mret (total, receivedData) in
      match step with
      | Returned (total, receivedData) =>
          if total =? 0 then (Returned receivedData, inbound')
          else recv_loop inbound' total receivedData
      | Thrown e => (Thrown e, inbound')
      | Uncaught e => (Uncaught e, inbound')
      | Exit code => (Exit code, inbound')
      | Undefined => (Undefined, inbound')
      end
  end.

End RecvLoop.

(** The bytes [sendSocket] passes to [send]. *)
Definition frame (message : string) : string :=
  let messageLength := to_string (size message) in
  messageLength +:+ " " +:+ message.

Definition no_socket : string :=
  "Socket not exist!! Create socket first using createSocket()!!".

Module ClientSocket.

Record t := mk {
  m_serverIp : string;
  m_serverPort : Z;
  m_socketFd : Z
}.

Definition not_connected : string :=
  "Socket is not connected with server!! Connect it first using connectSocket(string serverIp, int serverPort)!!".

Definition check (sock : t) : outcome unit :=
  if m_socketFd sock =? -1 then Thrown no_socket
  else if String.eqb (m_serverIp sock) "" || (m_serverPort sock =? -1)
  then Thrown not_connected
  else Returned tt.

(** Returns the bytes written to the connection. *)
Definition sendSocket (sock : t) (message : string) : outcome string :=
  check sock;; mret (frame message).

(** Returns the message and the blocks left for later calls. *)
Definition recvSocket (sock : t) (inbound : list string)
    : outcome string * list string :=
  match check sock with
  | Returned _ =>
      recv_loop (Thrown "Error: Server closed the connection!!") inbound (-1) ""
  | Thrown e => (Thrown e, inbound)
  | Uncaught e => (Uncaught e, inbound)
  | Exit code => (Exit code, inbound)
  | Undefined => (Undefined, inbound)
  end.

Definition closeSocket (sock : t) : outcome t :=
  if m_socketFd sock =? -1 then Thrown no_socket
  else Returned (mk "" (-1) (-1)).

End ClientSocket.

Module ServerSocket.

Record t := mk {
  m_serverIp : string;
  m_serverPort : Z;
  m_socketFd : Z
}.

Definition sendSocket (sock : t) (clientSocketFd : Z) (response : string)
    : outcome string :=
  if m_socketFd sock =? -1 then Thrown no_socket
  else Returned (frame response).

Definition recvSocket (sock : t) (clientSocketFd : Z) (inbound : list string)
    : outcome string * list string :=
  if m_socketFd sock =? -1 then (Thrown no_socket, inbound)
  else recv_loop (Returned "") inbound (-1) "".

Definition closeSocket (sock : t) : outcome t :=
  if m_socketFd sock =? -1 then Thrown no_socket
  else Returned (mk "" (-1) (-1)).

End ServerSocket.

(** ** Logger *)

Module Logger.

Record t := mk {
  m_seederIp : string;
  m_seederPort : string;
  m_logDirPath : string;
  m_logFilePath : string
}.

Fixpoint removelast (s : string) : string :=
  match s with
  | String c EmptyString => EmptyString
  | String c r => String c (removelast r)
  | EmptyString => EmptyString
  end.

(** [content[content.size() - 1]] of a non-empty string *)
Fixpoint back (s : string) : option ascii :=
  match s with
  | String c EmptyString => Some c
  | String _ r => back r
  | EmptyString => None
  end.

(** [std::string::pop_back] requires a non-empty string. *)
Definition pop_back (s : string) : outcome string :=
  if empty s then Undefined else Returned (removelast s).

(** The first statement of [Logger::log]:
    [if (content.empty() || content[content.size() - 1] == '\n') content.pop_back();] *)
Definition trim (content : string) : outcome string :=
  if empty content || bool_decide (back content = Some "010"%char)
  then pop_back content
  else Returned content.

(** [Logger::log]; [time] is the text [strftime] produced and [disk] maps
    the path of each file that can be opened to its content.  The result
    is the disk after the call. *)
Definition log (logger : t) (time : string) (disk : gmap string string)
    (type content : string) : outcome (gmap string string) :=
  content ← trim content;
  match disk !! m_logFilePath logger with
  | None => mret disk
  | Some old =>
      let temp := nl +:+ "[" +:+ time +:+ "][" +:+ type +:+ "] " +:+ content in
      mret (<[m_logFilePath logger := old +:+ temp]> disk)
  end.

End Logger.

(** ** What a process does to the outside

    The seeder and the leecher are observed through the calls they make to
    their logger, the bytes they write to a connection and the text they
    print on [cout]. *)

Inductive event :=
| Logged (type content : string)
| Sent (bytes : string)
| Printed (text : string).

(** ** Seeder *)

Module Seeder.

(** The state a seeder thread works on: the [Files] statics, the
    listening socket, and the events produced so far. *)
Record t := mk {
  files : Files.t;
  m_seederSocket : ServerSocket.t;
  trace : list event
}.

Definition emit (e : event) : prog t unit :=
  modify (fun s => mk (files s) (m_seederSocket s) (trace s ++ [e])).

Definition set_files (F : Files.t) : prog t unit :=
  modify (fun s => mk F (m_seederSocket s) (trace s)).

Section Disk.

(** The readable regular files of the peer, by path. *)
Variable disk : gmap string string.

Definition give_piece_info (fileName groupName : string) (leecherSocketFd : Z)
    : prog t string :=
  F ← gets files;
  match Files.m_fileNameToFilePath F !! (fileName, groupName) with
  | None => mret " "
  | Some filePath =>
      match Files.m_filePathToAvailablePieces F !! filePath with
      | None =>
          set_files (Files.mk (delete (fileName, groupName) (Files.m_fileNameToFilePath F))
                              (Files.m_filePathToAvailablePieces F));;
          mret " "
      | Some pieces =>
          let temp := Files.append_pieces "" pieces in
          emit (Logged "INFO" ("leecherSocket = " +:+ to_string leecherSocketFd +:+
                  " | Sending response to leecher. Response = " +:+ temp));;
          mret temp
      end
  end.

(** [open], [lseek] and [read] on a regular file: [open] fails on a
    path that is not on the disk, [lseek] fails on a negative offset,
    and [read] returns the bytes from the offset on, [PIECE_SIZE] at
    most. *)
Definition give_piece (fileName groupName : string) (pieceNumber : Z)
    (leecherSocketFd : Z) : prog t string :=
  F ← gets files;
  match Files.m_fileNameToFilePath F !! (fileName, groupName) with
  | None => throw "File not Exist!!"
  | Some filePath =>
      match Files.m_filePathToAvailablePieces F !! filePath with
      | None => throw "Filepieces map not Exist!!"
      | Some tempVec =>
          if negb (Files.find tempVec pieceNumber) then throw "Piece not Found!!" else
          match disk !! filePath with
          | None => throw "Failed to open file at Seeder!!"
          | Some content =>
              pieceOffset ← lift (int_arith (PIECE_SIZE * pieceNumber));
              if pieceOffset <? 0 then throw "Failed to Seek at seeder!!" else
              let pieceData := take piece_bytes (drop (Z.to_nat pieceOffset) content) in
              emit (Logged "INFO" ("leecherSocket = " +:+ to_string leecherSocketFd +:+
                      " | Sending pieceData to leecher"));;
              mret pieceData
          end
      end
  end.

(** [Seeder::executeCommand] *)
Definition executeCommand (command : string) (leecherSocketFd : Z)
    : prog t string :=
  if empty command then throw "Invalid command!!" else
  let tokens := Utils.tokenize command " " in
  match tokens with
  | [] => throw "Invalid command!!"
  | tokens0 :: _ =>
      if String.eqb tokens0 "give_piece_info" then
        match tokens with
        | [_; fileName; groupName] =>
            give_piece_info fileName groupName leecherSocketFd
        | _ => throw "Invalid arguments to give_piece_info command!!"
        end
      else if String.eqb tokens0 "give_piece" then
        match tokens with
        | [_; fileName; groupName; tokens3] =>
            pieceNumber ← lift (stoi tokens3);
            give_piece fileName groupName pieceNumber leecherSocketFd
        | _ => throw "Invalid arguments to give_piece command!!"
        end
      else throw "Invalid command!!"
  end.

(** The inner [try] of [Seeder::handleLeecher]: the response to one
    request. *)
Definition response (receivedData : string) (leecherSocketFd : Z)
    : prog t string :=
  try_catch
    (r ← executeCommand receivedData leecherSocketFd; mret ("Success: " +:+ r))
    (fun e => mret ("Error: " +:+ e)).

(** One turn of the [while (true)] loop of [Seeder::handleLeecher] on a
    connection whose inbound blocks are [inbound]; the result tells
    whether the loop goes on, and with which blocks. *)
Definition handleLeecher_turn (leecherSocketFd : Z) (inbound : list string)
    : prog t (bool * list string) :=
  sock ← gets m_seederSocket;
  let '(received, inbound') := ServerSocket.recvSocket sock leecherSocketFd inbound in
  try_catch
    (receivedData ← lift received;
     if empty receivedData then
       emit (Logged "INFO" ("LeecherSocket = " +:+ to_string leecherSocketFd +:+
               " | Leecher closed the connection!!"));;
       mret (false, inbound')
     else
       emit (Logged "COMMAND" ("LeecherSocket = " +:+ to_string leecherSocketFd +:+
               " | Recieved from leecher : " +:+ receivedData));;
       resp ← response receivedData leecherSocketFd;
       bytes ← lift (ServerSocket.sendSocket sock leecherSocketFd resp);
       emit (Sent bytes);;
       mret (true, inbound'))
    (fun e =>
       emit (Logged "ERROR" ("LeecherSocket = " +:+ to_string leecherSocketFd +:+
               " | While handling leecher!! Error: " +:+ e));;
       mret (true, inbound')).

End Disk.

End Seeder.

(** ** Leecher *)

Module Leecher.

(** The fields of the [Leecher] object, the blocks the tracker connection
    will deliver to the coming [recv] calls, and the events produced so
    far. *)
Record t := mk {
  m_authToken : string;
  m_seederIp : string;
  m_seederPort : Z;
  m_clientSocket : ClientSocket.t;
  m_downloadingFiles : gset (string * string);
  m_downloadedFiles : gset (string * string);
  m_downloadFailFiles : gset (string * string);
  tracker_in : list string;
  trace : list event
}.

Definition emit (e : event) : prog t unit :=
  modify (fun l => mk (m_authToken l) (m_seederIp l) (m_seederPort l)
                      (m_clientSocket l) (m_downloadingFiles l) (m_downloadedFiles l)
                      (m_downloadFailFiles l) (tracker_in l) (trace l ++ [e])).

Definition set_authToken (token : string) : prog t unit :=
  modify (fun l => mk token (m_seederIp l) (m_seederPort l)
                      (m_clientSocket l) (m_downloadingFiles l) (m_downloadedFiles l)
                      (m_downloadFailFiles l) (tracker_in l) (trace l)).

Definition set_clientSocket (sock : ClientSocket.t) : prog t unit :=
  modify (fun l => mk (m_authToken l) (m_seederIp l) (m_seederPort l)
                      sock (m_downloadingFiles l) (m_downloadedFiles l)
                      (m_downloadFailFiles l) (tracker_in l) (trace l)).

(** [m_clientSocket.recvSocket()] on the tracker connection *)
Definition recvTracker : prog t string := fun l =>
  let '(received, inbound') :=
    ClientSocket.recvSocket (m_clientSocket l) (tracker_in l) in
  (received,
   mk (m_authToken l) (m_seederIp l) (m_seederPort l) (m_clientSocket l)
      (m_downloadingFiles l) (m_downloadedFiles l) (m_downloadFailFiles l)
      inbound' (trace l)).

(** [tokens[i]] reads past the end of a shorter vector. *)
Definition at_ (tokens : list string) (i : nat) : outcome string :=
  match tokens !! i with
  | Some token => Returned token
  | None => Undefined
  end.

Definition checkForError (response : string) : prog t unit :=
  if String.eqb (take 5 response) "Error" then
    e ← lift (substr response 7); throw e
  else mret tt.

Definition sendTracker (messageForTracker : string) : prog t string :=
  emit (Logged "COMMAND" ("Sending to tracker : " +:+ messageForTracker));;
  sock ← gets m_clientSocket;
  bytes ← lift (ClientSocket.sendSocket sock messageForTracker);
  emit (Sent bytes);;
  response ← recvTracker;
  emit (Logged "COMMAND" ("Received from tracker : " +:+ response));;
  checkForError response;;
  mret response.

(** The [for] loop of the [login] case of [printResponse]. *)
Fixpoint join_but_second (i : nat) (responseTokens : list string) : string :=
  match responseTokens with
  | token :: rest =>
      (if Nat.eqb i 1 then "" else token +:+ " ") +:+ join_but_second (S i) rest
  | [] => ""
  end.

Definition list_reply (none_text header response : string) : prog t unit :=
  let responseTokens := Utils.tokenize response " " in
  if Nat.eqb (length responseTokens) 1 then
    emit (Printed (YELLOW +:+ none_text +:+ nl +:+ RESET))
  else
    second ← lift (at_ responseTokens 1);
    emit (Printed ((header +:+ second) +:+ nl)).

Definition printResponse (tokens : list string) (response : string) : prog t unit :=
  tokens0 ← lift (at_ tokens 0);
  let response :=
    if String.eqb tokens0 "login"
    then join_but_second 0 (Utils.tokenize response " ")
    else response in
  if String.eqb tokens0 "list_groups" then
    list_reply "There is no group in the system!!"
               "List of groups is as follows : " response
  else if String.eqb tokens0 "list_requests" then
    list_reply "There is no pending joinee in the group!!"
               "List of pending requests in the group is as follows : " response
  else if String.eqb tokens0 "list_files" then
    list_reply "There are no files in the group!!"
               "List of files in the group is as follows : " response
  else emit (Printed (GREEN +:+ response +:+ nl +:+ RESET)).

(** The body shared by the handlers that append the session token to the
    user's line and print the tracker's answer. *)
Definition forward (tokens : list string) (inputFromClient : string) : prog t unit :=
  m_authToken ← gets m_authToken;
  let messageForTracker := inputFromClient +:+ " " +:+ m_authToken in
  response ← sendTracker messageForTracker;
  printResponse tokens response.

Definition createUser (tokens : list string) (inputFromClient : string) : prog t unit :=
  let messageForTracker := inputFromClient in
  response ← sendTracker messageForTracker;
  printResponse tokens response.

Definition login (tokens : list string) (inputFromClient : string) : prog t unit :=
  ip ← gets m_seederIp;
  port ← gets m_seederPort;
  let messageForTracker := inputFromClient +:+ " " +:+ ip +:+ ":" +:+ to_string port in
  response ← sendTracker messageForTracker;
  let responseTokens := Utils.tokenize response " " in
  token ← lift (at_ responseTokens 1);
  set_authToken token;;
  printResponse tokens response.

Definition createGroup := forward.
Definition joinGroup := forward.
Definition leaveGroup := forward.
Definition listRequests := forward.
Definition acceptRequest := forward.
Definition listGroups := forward.
Definition listFiles := forward.
Definition uploadFile := forward.
Definition downloadFile := forward.
Definition stopShare := forward.

(** [Leecher::showDownloads] *)
Definition showDownloads (tokens : list string) (inputFromClient : string)
    : prog t unit :=
  m_authToken ← gets m_authToken;
  let messageForTracker := inputFromClient +:+ " " +:+ m_authToken in
  response ← sendTracker messageForTracker;
  printResponse tokens response.

Definition logout (tokens : list string) (inputFromClient : string) : prog t unit :=
  m_authToken ← gets m_authToken;
  let messageForTracker := inputFromClient +:+ " " +:+ m_authToken in
  response ← sendTracker messageForTracker;
  set_authToken "NULL";;
  printResponse tokens response.

Definition stop : prog t unit :=
  sock ← gets m_clientSocket;
  sock' ← lift (ClientSocket.closeSocket sock);
  set_clientSocket sock'.

Definition quit (tokens : list string) (inputFromClient : string) : prog t unit :=
  m_authToken ← gets m_authToken;
  (if negb (String.eqb m_authToken "NULL") then
     try_catch
       (emit (Logged "INFO" "authToken found!! Sending logout request to tracker");;
        logout tokens "logout")
       (fun e => emit (Logged "ERROR"
                   ("Error from tracker during 'quit logout'!! Error : " +:+ e)))
   else
     emit (Logged "INFO" "authToken not found!! No need to send logout request to tracker"));;
  stop;;
  emit (Logged "SUCCESS" "Leecher Quit.");;
  lift (Exit 0).

(** [Leecher::processUserRequests] *)
Definition processUserRequests (inputFromClient : string) : prog t unit :=
  let tokens := Utils.tokenize inputFromClient " " in
  match tokens with
  | [] => mret tt
  | tokens0 :: _ =>
      let cmd := String.eqb tokens0 in
      if cmd "quit" || cmd "exit" then quit tokens inputFromClient
      else if cmd "create_user" then createUser tokens inputFromClient
      else if cmd "login" then login tokens inputFromClient
      else if cmd "create_group" then createGroup tokens inputFromClient
      else if cmd "join_group" then joinGroup tokens inputFromClient
      else if cmd "leave_group" then leaveGroup tokens inputFromClient
      else if cmd "list_requests" then listRequests tokens inputFromClient
      else if cmd "accept_request" then acceptRequest tokens inputFromClient
      else if cmd "list_groups" then listGroups tokens inputFromClient
      else if cmd "list_files" then listFiles tokens inputFromClient
      else if cmd "upload_file" then uploadFile tokens inputFromClient
      else if cmd "download_file" then downloadFile tokens inputFromClient
      else if cmd "show_downloads" then showDownloads tokens inputFromClient
      else if cmd "logout" then logout tokens inputFromClient
      else if cmd "stop_share" then stopShare tokens inputFromClient
      else throw "Invalid command!!"
  end.

(** One turn of the loop of [Leecher::getCommand] on the line the user
    typed. *)
Definition getCommand_turn (inputFromClient : string) : prog t unit :=
  emit (Printed ">> ");;
  try_catch (processUserRequests inputFromClient)
    (fun e => emit (Printed (RED +:+ "Error: " +:+ e +:+ nl +:+ RESET))).

End Leecher.

(** ** The piece-list parser of [test.cpp] *)

Module Test.

(** [tokenize] of [test.cpp]: the tokenizer of [Utils], with each token
    converted by [stoi] as it is recorded. *)
Fixpoint tokenize_loop (buffer : string) (separator : ascii)
    (ans : list Z) (temp : string) : outcome (list Z) :=
  match buffer with
  | String it rest =>
      if Ascii.eqb it separator
      then
        ans ← (if empty temp then mret ans
               else n ← stoi temp; mret (ans ++ [n]));
        tokenize_loop rest separator ans ""
      else tokenize_loop rest separator ans (push_back temp it)
  | EmptyString =>
      if empty temp then mret ans else n ← stoi temp; mret (ans ++ [n])
  end.

Definition tokenize (buffer : string) (separator : ascii) : outcome (list Z) :=
  tokenize_loop buffer separator [] "".

End Test.

(** ** Sequences of registry operations

    The calls that reach the [Files] statics of a peer: the five methods of
    [Files] and the commands a leecher sends to the seeder. *)

Inductive registry_op :=
| AddFilepath (fileName groupName filePath : string)
| AddPieceToFilepath (filePath : string) (pieceNumber : Z)
| GiveFilePath (fileName groupName : string)
| GiveAvailablePieces (filePath : string)
| IsPieceAvailable (filePath : string) (pieceNumber : Z)
| SeederCommand (command : string) (leecherSocketFd : Z).

Definition run_op (disk : gmap string string) (s : Seeder.t) (op : registry_op)
    : Seeder.t :=
  let with_files F := Seeder.mk F (Seeder.m_seederSocket s) (Seeder.trace s) in
  match op with
  | AddFilepath fileName groupName filePath =>
      with_files (Files.addFilepath fileName groupName filePath (Seeder.files s))
  | AddPieceToFilepath filePath pieceNumber =>
      with_files (Files.addPieceToFilepath filePath pieceNumber (Seeder.files s))
  | GiveFilePath _ _ | GiveAvailablePieces _ | IsPieceAvailable _ _ => s
  | SeederCommand command leecherSocketFd =>
      snd (Seeder.executeCommand disk command leecherSocketFd s)
  end.

Definition run_ops (disk : gmap string string) (s : Seeder.t)
    (ops : list registry_op) : Seeder.t :=
  foldl (run_op disk) s ops.

(** The piece numbers recorded for a path. *)
Definition pieces_of (F : Files.t) (filePath : string) : list Z :=
  default [] (Files.m_filePathToAvailablePieces F !! filePath).

(** ** Vocabulary of the statements *)

(** Every character of [s] satisfies [P]. *)
Fixpoint all_chars (P : ascii -> bool) (s : string) : bool :=
  match s with
  | String c r => P c && all_chars P r
  | EmptyString => true
  end.

Definition is_digit (c : ascii) : bool :=
  match digit_value c with Some _ => true | None => false end.

Definition is_not (separator c : ascii) : bool := negb (Ascii.eqb c separator).

(** The concatenation of the blocks of a connection. *)
Fixpoint stream (blocks : list string) : string :=
  match blocks with
  | b :: rest => b +:+ stream rest
  | [] => ""
  end.

(** The words of a list, one separator between two neighbours. *)
Fixpoint join (separator : ascii) (words : list string) : string :=
  match words with
  | [] => ""
  | [w] => w
  | w :: rest => w +:+ String separator (join separator rest)
  end.

(** A word that [Utils::tokenize] can return: not empty, no separator. *)
Definition word (separator : ascii) (w : string) : Prop :=
  empty w = false /\ all_chars (is_not separator) w = true.

(** The leecher [l] after an exchange: the session token and the socket
    as given, the blocks [rest] left on the tracker connection, [events]
    added to the trace; the other fields as in [l]. *)
Definition after (l : Leecher.t) (token : string) (sock : ClientSocket.t)
    (rest : list string) (events : list event) : Leecher.t :=
  Leecher.mk token (Leecher.m_seederIp l) (Leecher.m_seederPort l) sock
    (Leecher.m_downloadingFiles l) (Leecher.m_downloadedFiles l)
    (Leecher.m_downloadFailFiles l) rest (Leecher.trace l ++ events).

(** The commands whose handler appends the session token to the line and
    prints the tracker's answer. *)
Definition forwarded : list string :=
  ["create_group"; "join_group"; "leave_group"; "list_requests"; "accept_request";
   "list_groups"; "list_files"; "upload_file"; "download_file"; "show_downloads";
   "stop_share"].

(** The three listing commands with the two texts [printResponse] uses
    for each: the one for an answer of one word, and the header put
    before the second word of a longer answer. *)
Definition listings : list (string * string * string) :=
  [("list_groups", "There is no group in the system!!",
    "List of groups is as follows : ");
   ("list_requests", "There is no pending joinee in the group!!",
    "List of pending requests in the group is as follows : ");
   ("list_files", "There are no files in the group!!",
    "List of files in the group is as follows : ")].

(** The first words [processUserRequests] knows. *)
Definition known : list string :=
  ["quit"; "exit"; "create_user"; "login"; "logout"] ++ forwarded.

(** [stoi] on each token in turn, stopping at the first that fails. *)
Fixpoint convert_all (tokens : list string) : outcome (list Z) :=
  match tokens with
  | [] => Returned []
  | token :: rest => n ← stoi token; ns ← convert_all rest; mret (n :: ns)
  end.

(** [ceil (s / PIECE_SIZE)] *)
Definition piece_count (s : Z) : Z := (s + PIECE_SIZE - 1) / PIECE_SIZE.

(** The peer holds piece [N] of [(F, G)]: the three lookups of
    [give_piece] succeed. *)
Definition holds_piece (files : Files.t) (F G : string) (N : Z) : Prop :=
  exists filePath pieces,
    Files.m_fileNameToFilePath files !! (F, G) = Some filePath /\
    Files.m_filePathToAvailablePieces files !! filePath = Some pieces /\
    N ∈ pieces.

(** The leecher with other download-session sets. *)
Definition with_sets (d1 d2 d3 : gset (string * string)) (l : Leecher.t) : Leecher.t :=
  Leecher.mk (Leecher.m_authToken l) (Leecher.m_seederIp l) (Leecher.m_seederPort l)
    (Leecher.m_clientSocket l) d1 d2 d3 (Leecher.tracker_in l) (Leecher.trace l).

(** [c] neither reads nor writes the three sets: run from a state with
    other sets, it gives the same outcome and the same final state, with
    those other sets in it. *)
Definition sets_blind {A} (c : prog Leecher.t A) : Prop :=
  forall d1 d2 d3 l,
    c (with_sets d1 d2 d3 l) = (fst (c l), with_sets d1 d2 d3 (snd (c l))).

(** * Properties *)

(** ** Strings *)

Lemma sapp_nil_l s : "" +:+ s = s.
Proof. reflexivity. Qed.

Lemma sapp_cons c s t : String c s +:+ t = String c (s +:+ t).
Proof. reflexivity. Qed.

Lemma sapp_nil_r s : s +:+ "" = s.
Proof. induction s as [|c s IH]; [reflexivity|]. rewrite sapp_cons, IH. reflexivity. Qed.

Lemma sapp_assoc s t u : (s +:+ t) +:+ u = s +:+ (t +:+ u).
Proof.
  induction s as [|c s IH]; [reflexivity|].
  rewrite !sapp_cons, IH. reflexivity.
Qed.

Lemma length_sapp s t :
  String.length (s +:+ t) = (String.length s + String.length t)%nat.
Proof.
  induction s as [|c s IH]; [reflexivity|].
  rewrite sapp_cons. cbn [String.length]. rewrite IH. reflexivity.
Qed.

Lemma size_sapp s t : size (s +:+ t) = size s + size t.
Proof. unfold size. rewrite length_sapp. lia. Qed.

Lemma size_nonneg s : 0 <= size s.
Proof. unfold size. lia. Qed.

Lemma empty_size s : empty s = (size s =? 0).
Proof. destruct s; reflexivity. Qed.

Lemma empty_sapp s t : empty (s +:+ t) = empty s && empty t.
Proof. destruct s; reflexivity. Qed.

Lemma drop_sapp s t : drop (String.length s) (s +:+ t) = t.
Proof. induction s as [|c s IH]; [reflexivity|]. rewrite sapp_cons. exact IH. Qed.

Lemma take_drop n s : take n s +:+ drop n s = s.
Proof.
  revert s. induction n as [|n IH]; intros [|c s]; try reflexivity.
  cbn [take drop]. rewrite sapp_cons, IH. reflexivity.
Qed.

Lemma length_take n s : String.length (take n s) = Nat.min n (String.length s).
Proof.
  revert s. induction n as [|n IH]; intros [|c s]; try reflexivity.
  cbn [take String.length]. rewrite IH. reflexivity.
Qed.

Lemma length_drop n s : String.length (drop n s) = (String.length s - n)%nat.
Proof.
  revert s. induction n as [|n IH]; intros [|c s]; try reflexivity.
  cbn [drop String.length]. apply IH.
Qed.

Lemma drop_drop n m s : drop n (drop m s) = drop (m + n) s.
Proof.
  revert s. induction m as [|m IH]; intros s; [reflexivity|].
  destruct s as [|c s]; cbn [drop Nat.add].
  - destruct n; reflexivity.
  - apply IH.
Qed.

Lemma all_chars_sapp P s t :
  all_chars P (s +:+ t) = all_chars P s && all_chars P t.
Proof.
  induction s as [|c s IH]; [reflexivity|].
  rewrite sapp_cons. cbn [all_chars]. rewrite IH, andb_assoc. reflexivity.
Qed.

Lemma all_chars_impl (P Q : ascii -> bool) s :
  (forall c, P c = true -> Q c = true) ->
  all_chars P s = true -> all_chars Q s = true.
Proof.
  intros HPQ. induction s as [|c s IH]; [reflexivity|]. cbn [all_chars].
  rewrite !andb_true_iff. intros [Hc Hs]. auto.
Qed.

(** ** Decimal rendering and parsing *)

Lemma digit_cases d : 0 <= d < 10 ->
  d = 0 \/ d = 1 \/ d = 2 \/ d = 3 \/ d = 4 \/ d = 5 \/ d = 6 \/ d = 7 \/ d = 8 \/ d = 9.
Proof. lia. Qed.

Lemma digit_value_char d : 0 <= d < 10 -> digit_value (digit_char d) = Some d.
Proof.
  intros H. destruct (digit_cases d H) as [->|[->|[->|[->|[->|[->|[->|[->|[->| ->]]]]]]]]];
    reflexivity.
Qed.

Lemma mod10_digit n : digit_value (digit_char (n mod 10)) = Some (n mod 10).
Proof. apply digit_value_char, Z.mod_pos_bound. lia. Qed.

Lemma is_digit_mod10 n : is_digit (digit_char (n mod 10)) = true.
Proof. unfold is_digit. rewrite mod10_digit. reflexivity. Qed.

Lemma digits_loop_acc fuel n acc :
  digits_loop fuel n acc = digits_loop fuel n "" +:+ acc.
Proof.
  revert n acc. induction fuel as [|fuel IH]; intros n acc; [reflexivity|].
  cbn [digits_loop]. destruct (n / 10 =? 0); [reflexivity|].
  rewrite IH, (IH _ (String _ "")), sapp_assoc. reflexivity.
Qed.

Lemma digits_loop_all fuel n :
  all_chars is_digit (digits_loop fuel n "") = true.
Proof.
  revert n. induction fuel as [|fuel IH]; intros n; [reflexivity|].
  cbn [digits_loop]. destruct (n / 10 =? 0).
  - cbn [all_chars]. rewrite is_digit_mod10. reflexivity.
  - rewrite digits_loop_acc, all_chars_sapp, IH. cbn [all_chars].
    rewrite is_digit_mod10. reflexivity.
Qed.

Lemma digits_loop_nonempty fuel n acc : empty (digits_loop (S fuel) n acc) = false.
Proof.
  revert n acc. induction fuel as [|fuel IH]; intros n acc.
  - cbn [digits_loop]. destruct (n / 10 =? 0); reflexivity.
  - change (digits_loop (S (S fuel)) n acc) with
      (let acc' := String (digit_char (n mod 10)) acc in
       if n / 10 =? 0 then acc' else digits_loop (S fuel) (n / 10) acc').
    cbn zeta. destruct (n / 10 =? 0); [reflexivity|apply IH].
Qed.

(** Parsing the rendering of [n] in front of [acc] is parsing [acc] with
    [n] accumulated. *)
Lemma strtol_digits_loop fuel n acc rest :
  0 <= n < 2 ^ Z.of_nat fuel -> (0 < fuel)%nat ->
  strtol_digits (digits_loop fuel n acc +:+ rest) 0 = strtol_digits (acc +:+ rest) n.
Proof.
  revert n acc. induction fuel as [|fuel IH]; intros n acc Hn Hf; [lia|].
  cbn [digits_loop]. destruct (n / 10 =? 0) eqn:Hq.
  - apply Z.eqb_eq in Hq. rewrite sapp_cons. cbn [strtol_digits].
    rewrite mod10_digit. f_equal.
    pose proof (Z.div_mod n 10). lia.
  - apply Z.eqb_neq in Hq.
    assert (Hpow : 2 ^ Z.of_nat (S fuel) = 2 * 2 ^ Z.of_nat fuel).
    { rewrite Nat2Z.inj_succ, Z.pow_succ_r; lia. }
    assert (Hdiv : 0 <= n / 10 < 2 ^ Z.of_nat fuel).
    { split; [apply Z.div_pos; lia|]. apply Z.div_lt_upper_bound; lia. }
    assert (Hfuel : (0 < fuel)%nat).
    { destruct fuel; [|lia]. change (2 ^ Z.of_nat 0) with 1 in Hdiv. lia. }
    rewrite IH by assumption. rewrite sapp_cons. cbn [strtol_digits].
    rewrite mod10_digit. f_equal.
    pose proof (Z.div_mod n 10). lia.
Qed.

Lemma log2_fuel n : 0 <= n -> 0 <= n < 2 ^ Z.of_nat (S (Z.to_nat (Z.log2 n))).
Proof.
  intros Hn. split; [assumption|].
  rewrite Nat2Z.inj_succ, Z2Nat.id by apply Z.log2_nonneg.
  destruct (Z.eq_dec n 0) as [->|Hz]; [reflexivity|].
  apply Z.log2_spec. lia.
Qed.

Lemma strtol_digits_digits n rest :
  0 <= n -> strtol_digits (digits n +:+ rest) 0 = strtol_digits rest n.
Proof.
  intros Hn. unfold digits. rewrite strtol_digits_loop.
  - reflexivity.
  - apply log2_fuel, Hn.
  - lia.
Qed.

Lemma digits_all n : all_chars is_digit (digits n) = true.
Proof. apply digits_loop_all. Qed.

Lemma digits_nonempty n : empty (digits n) = false.
Proof. apply digits_loop_nonempty. Qed.

Lemma is_digit_not_space c : is_digit c = true -> is_not " " c = true.
Proof.
  unfold is_digit, is_not.
  destruct (Ascii.eqb_spec c " ") as [->|]; [discriminate|reflexivity].
Qed.

Lemma to_string_nonempty z : empty (to_string z) = false.
Proof. unfold to_string. destruct (z <? 0); [reflexivity|apply digits_nonempty]. Qed.

Lemma to_string_no_space z : all_chars (is_not " ") (to_string z) = true.
Proof.
  unfold to_string. destruct (z <? 0); cbn [all_chars];
    rewrite ?andb_true_l;
    apply (all_chars_impl is_digit), digits_all; apply is_digit_not_space.
Qed.

Lemma stoi_digits n :
  0 <= n -> stoi (digits n) = if in_int n then Returned n else Uncaught out_of_range.
Proof.
  intros Hn. pose proof (digits_all n) as Hall. pose proof (digits_nonempty n) as Hne.
  pose proof (strtol_digits_digits n "" Hn) as Hv. rewrite sapp_nil_r in Hv.
  unfold stoi. destruct (digits n) as [|c r]; [discriminate|].
  cbn [all_chars] in Hall. apply andb_true_iff in Hall as [Hc _].
  assert (Hsp : isspace c = false).
  { unfold is_digit in Hc. destruct c as [[] [] [] [] [] [] [] []]; try reflexivity; discriminate. }
  cbn [skip_space]. rewrite Hsp.
  assert (Hsign : c <> "-"%char /\ c <> "+"%char).
  { split; intros ->; discriminate. }
  destruct Hsign as [Hm Hp].
  assert (Hmatch : match String c r with
          | String "-"%char r0 => (true, r0)
          | String "+"%char r0 => (false, r0)
          | _ => (false, String c r)
          end = (false, String c r)).
  { destruct c as [[] [] [] [] [] [] [] []]; try reflexivity; congruence. }
  rewrite Hmatch. cbn [starts_with_digit]. unfold is_digit in Hc.
  destruct (digit_value c); [|discriminate]. rewrite Hv. reflexivity.
Qed.

(** [std::stoi] reads back what [std::to_string] wrote. *)
Lemma stoi_to_string z : in_int z = true -> stoi (to_string z) = Returned z.
Proof.
  intros Hz. unfold to_string. destruct (z <? 0) eqn:Hneg.
  - apply Z.ltb_lt in Hneg.
    pose proof (digits_all (- z)) as Hall. pose proof (digits_nonempty (- z)) as Hne.
    pose proof (strtol_digits_digits (- z) "" ltac:(lia)) as Hv.
    rewrite sapp_nil_r in Hv.
    unfold stoi. cbn [skip_space isspace Ascii.is_space].
    destruct (digits (- z)) as [|c r]; [discriminate|].
    cbn [all_chars] in Hall. apply andb_true_iff in Hall as [Hc _].
    cbn [starts_with_digit]. unfold is_digit in Hc.
    destruct (digit_value c); [|discriminate].
    rewrite Hv. cbn [strtol_digits]. rewrite Z.opp_involutive, Hz. reflexivity.
  - apply Z.ltb_ge in Hneg. rewrite stoi_digits, Hz by assumption. reflexivity.
Qed.

(** ** The tokenizer *)

Lemma tokenize_loop_ans buffer sep ans temp :
  Utils.tokenize_loop buffer sep ans temp
  = ans ++ Utils.tokenize_loop buffer sep [] temp.
Proof.
  revert ans temp. induction buffer as [|c buffer IH]; intros ans temp;
    cbn [Utils.tokenize_loop].
  - destruct (empty temp); [rewrite app_nil_r|]; reflexivity.
  - destruct (Ascii.eqb c sep).
    + rewrite IH, (IH (if empty temp then [] else _)).
      destruct (empty temp); [reflexivity|]. rewrite <- app_assoc. reflexivity.
    + apply IH.
Qed.

(** A separator-free token, once read, sits at the end of [temp]. *)
Lemma tokenize_loop_token token rest sep temp :
  all_chars (is_not sep) token = true ->
  Utils.tokenize_loop (token +:+ String sep rest) sep [] temp
  = (if empty (temp +:+ token) then [] else [temp +:+ token])
      ++ Utils.tokenize_loop rest sep [] "".
Proof.
  revert temp. induction token as [|c token IH]; intros temp Hall.
  - rewrite sapp_nil_l, sapp_nil_r. cbn [Utils.tokenize_loop].
    rewrite Ascii.eqb_refl. apply tokenize_loop_ans.
  - cbn [all_chars] in Hall. apply andb_true_iff in Hall as [Hc Hall].
    rewrite sapp_cons. cbn [Utils.tokenize_loop].
    unfold is_not in Hc. apply negb_true_iff in Hc. rewrite Hc.
    rewrite IH by assumption. unfold push_back.
    rewrite sapp_assoc, sapp_cons, sapp_nil_l. reflexivity.
Qed.

Lemma tokenize_loop_end token sep temp :
  all_chars (is_not sep) token = true ->
  Utils.tokenize_loop token sep [] temp
  = if empty (temp +:+ token) then [] else [temp +:+ token].
Proof.
  revert temp. induction token as [|c token IH]; intros temp Hall.
  - rewrite sapp_nil_r. reflexivity.
  - cbn [all_chars] in Hall. apply andb_true_iff in Hall as [Hc Hall].
    cbn [Utils.tokenize_loop].
    unfold is_not in Hc. apply negb_true_iff in Hc. rewrite Hc.
    rewrite IH by assumption. unfold push_back.
    rewrite sapp_assoc, sapp_cons, sapp_nil_l. reflexivity.
Qed.

(** The first token of a buffer that starts with a non-empty
    separator-free word followed by a separator is that word. *)
Lemma tokenize_first token rest sep :
  all_chars (is_not sep) token = true -> empty token = false ->
  Utils.tokenize (token +:+ String sep rest) sep = token :: Utils.tokenize rest sep.
Proof.
  intros Hall Hne. unfold Utils.tokenize.
  rewrite tokenize_loop_token by assumption. rewrite sapp_nil_l, Hne. reflexivity.
Qed.

Lemma tokenize_last token sep :
  all_chars (is_not sep) token = true -> empty token = false ->
  Utils.tokenize token sep = [token].
Proof.
  intros Hall Hne. unfold Utils.tokenize.
  rewrite tokenize_loop_end by assumption. rewrite sapp_nil_l, Hne. reflexivity.
Qed.

Lemma tokenize_sep_first rest sep :
  Utils.tokenize (String sep rest) sep = Utils.tokenize rest sep.
Proof. unfold Utils.tokenize. cbn [Utils.tokenize_loop]. rewrite Ascii.eqb_refl. reflexivity. Qed.

(** ** The piece list sent by the seeder *)

Lemma append_pieces_temp temp pieces :
  Files.append_pieces temp pieces = temp +:+ Files.append_pieces "" pieces.
Proof.
  revert temp. induction pieces as [|p pieces IH]; intros temp; cbn [Files.append_pieces].
  - rewrite sapp_nil_r. reflexivity.
  - rewrite IH, (IH ("" +:+ _)), sapp_nil_l, sapp_assoc. reflexivity.
Qed.

Lemma append_pieces_cons p pieces :
  Files.append_pieces "" (p :: pieces)
  = String " " (to_string p +:+ Files.append_pieces "" pieces).
Proof.
  cbn [Files.append_pieces]. rewrite append_pieces_temp, sapp_nil_l, sapp_assoc.
  reflexivity.
Qed.

(** Splitting the reply at its spaces gives back the recorded numbers, in
    order and with their repetitions. *)
Lemma tokenize_append_pieces pieces :
  Utils.tokenize (Files.append_pieces "" pieces) " " = map to_string pieces.
Proof.
  induction pieces as [|p pieces IH]; [reflexivity|].
  rewrite append_pieces_cons, tokenize_sep_first. cbn [map].
  destruct pieces as [|q pieces].
  - cbn [Files.append_pieces]. rewrite sapp_nil_r.
    apply tokenize_last; [apply to_string_no_space|apply to_string_nonempty].
  - rewrite append_pieces_cons in IH |- *. rewrite tokenize_sep_first in IH.
    rewrite tokenize_first, IH;
      [reflexivity|apply to_string_no_space|apply to_string_nonempty].
Qed.

(** ** Length-prefixed framing *)

Lemma wrap_int_id z : INT_MIN <= z <= INT_MAX -> wrap_int z = z.
Proof.
  unfold INT_MIN, INT_MAX, wrap_int. intros Hz.
  rewrite Z.mod_small by lia. lia.
Qed.

Lemma in_int_true z : INT_MIN <= z <= INT_MAX -> in_int z = true.
Proof. unfold in_int. intros Hz. apply andb_true_iff. split; apply Z.leb_le; lia. Qed.

Lemma sapp_split s1 s2 t1 t2 :
  s1 +:+ s2 = t1 +:+ t2 -> (String.length t1 <= String.length s1)%nat ->
  exists p, s1 = t1 +:+ p /\ t2 = p +:+ s2.
Proof.
  revert s1. induction t1 as [|c t1 IH]; intros s1 Heq Hlen.
  - exists s1. split; [reflexivity|]. symmetry. exact Heq.
  - destruct s1 as [|d s1]; [cbn in Hlen; lia|].
    rewrite !sapp_cons in Heq. injection Heq as -> Heq.
    destruct (IH s1 Heq) as (p & -> & ->); [cbn in Hlen; lia|].
    exists p. split; reflexivity.
Qed.

Lemma stream_empty blocks :
  Forall (fun b => 0 < size b <= RECV_BUFFER) blocks ->
  size (stream blocks) = 0 -> blocks = [].
Proof.
  intros Hwf Hz. destruct blocks as [|b blocks]; [reflexivity|].
  apply Forall_cons in Hwf as [Hb _]. cbn [stream] in Hz. rewrite size_sapp in Hz.
  pose proof (size_nonneg (stream blocks)). lia.
Qed.

Section RecvLoopFacts.

Variable on_close : outcome string.

(** Once the length is known, the loop collects exactly the blocks that
    make up the announced number of bytes. *)
Lemma recv_loop_rest later after total received :
  Forall (fun b => 0 < size b <= RECV_BUFFER) later ->
  total = size (stream later) -> 0 < total <= INT_MAX ->
  recv_loop on_close (later ++ after) total received
  = (Returned (received +:+ stream later), after).
Proof.
  revert total received. induction later as [|b later IH];
    intros total received Hwf Htotal Hpos.
  - cbn [stream] in Htotal. change (size "") with 0 in Htotal. lia.
  - apply Forall_cons in Hwf as [Hb Hwf]. cbn [stream] in Htotal.
    rewrite size_sapp in Htotal. pose proof (size_nonneg (stream later)) as Hnn.
    cbn [app recv_loop].
    destruct (size b =? 0) eqn:Hb0; [apply Z.eqb_eq in Hb0; lia|].
    destruct (total =? -1) eqn:Hm1; [apply Z.eqb_eq in Hm1; lia|].
    unfold int_arith. rewrite in_int_true by (unfold INT_MIN, INT_MAX in *; lia).
    cbn [mbind outcome_bind mret outcome_ret].
    destruct (total - size b =? 0) eqn:Hz.
    + apply Z.eqb_eq in Hz.
      rewrite (stream_empty later Hwf) by lia.
      cbn [stream app]. rewrite sapp_nil_r. reflexivity.
    + apply Z.eqb_neq in Hz. rewrite IH by (assumption || lia).
      rewrite sapp_assoc. reflexivity.
Qed.

(** The first block carries the length token, the separator and the
    beginning [part] of the payload. *)
Lemma recv_loop_first m part later after :
  size m <= INT_MAX ->
  m = part +:+ stream later ->
  Forall (fun b => 0 < size b <= RECV_BUFFER) later ->
  recv_loop on_close
    ((to_string (size m) +:+ " " +:+ part) :: later ++ after) (-1) ""
  = (Returned m, after).
Proof.
  intros Hmax Hm Hwf.
  pose proof (size_nonneg m) as Hm0. pose proof (size_nonneg part) as Hp0.
  pose proof (size_nonneg (stream later)) as Hl0.
  pose proof (size_nonneg (to_string (size m))) as Ht0.
  assert (Hsz : size m = size part + size (stream later)).
  { rewrite Hm at 1. apply size_sapp. }
  cbn [recv_loop]. rewrite sapp_nil_l.
  assert (Hfirst : size (to_string (size m) +:+ " " +:+ part)
                   = size (to_string (size m)) + 1 + size part).
  { rewrite !size_sapp. change (size " ") with 1. lia. }
  rewrite Hfirst.
  destruct (size (to_string (size m)) + 1 + size part =? 0) eqn:Hz;
    [apply Z.eqb_eq in Hz; lia|].
  change (-1 =? -1) with true. cbn match.
  change (to_string (size m) +:+ " " +:+ part)
    with (to_string (size m) +:+ String " " part).
  rewrite tokenize_first by (apply to_string_no_space || apply to_string_nonempty).
  rewrite stoi_to_string by (apply in_int_true; unfold INT_MIN; lia).
  cbn [mbind outcome_bind mret outcome_ret].
  unfold substr. rewrite size_sapp.
  change (size (String " " part)) with (Z.of_nat (S (String.length part))).
  replace ((0 <=? size (to_string (size m)) + 1)
           && (size (to_string (size m)) + 1
               <=? size (to_string (size m)) + Z.of_nat (S (String.length part))))
    with true by (symmetry; apply andb_true_iff; split; apply Z.leb_le; lia).
  replace (Z.to_nat (size (to_string (size m)) + 1))
    with (String.length (to_string (size m) +:+ " "))
    by (rewrite length_sapp; unfold size; cbn [String.length]; lia).
  replace (to_string (size m) +:+ String " " part)
    with ((to_string (size m) +:+ " ") +:+ part)
    by (rewrite sapp_assoc; reflexivity).
  rewrite drop_sapp. cbn [mbind outcome_bind mret outcome_ret].
  rewrite wrap_int_id by (unfold INT_MIN, INT_MAX in *; lia).
  destruct (size m - (size (to_string (size m)) + 1 + size part
                      - (size (to_string (size m)) + 1)) =? 0) eqn:Hdone.
  - apply Z.eqb_eq in Hdone.
    assert (Hnil : later = []) by (apply stream_empty; [assumption|lia]).
    subst later. cbn [stream app] in *. rewrite sapp_nil_r in Hm. subst part. reflexivity.
  - apply Z.eqb_neq in Hdone.
    rewrite recv_loop_rest by (assumption || lia). rewrite <- Hm. reflexivity.
Qed.

End RecvLoopFacts.

(** A block list that delivers the frame of [m] and whose first block
    reaches past the separator splits as [recv_loop_first] expects. *)
Lemma frame_blocks m first later :
  stream (first :: later) = frame m ->
  size (to_string (size m)) + 1 <= size first ->
  exists part, first = to_string (size m) +:+ " " +:+ part /\ m = part +:+ stream later.
Proof.
  unfold frame. cbn [stream]. intros Hs Hlen.
  rewrite <- sapp_assoc in Hs.
  destruct (sapp_split first (stream later) (to_string (size m) +:+ " ") m Hs)
    as (part & -> & ->).
  - rewrite length_sapp. unfold size in *. cbn [String.length]. lia.
  - exists part. rewrite sapp_assoc. split; reflexivity.
Qed.

(** A frame that arrives in one block is read back whole. *)
Corollary recvSocket_one_block client m after :
  ClientSocket.check client = Returned tt ->
  size (frame m) <= RECV_BUFFER ->
  ClientSocket.recvSocket client (frame m :: after) = (Returned m, after).
Proof.
  intros Hcheck Hsize. unfold ClientSocket.recvSocket. rewrite Hcheck.
  apply (recv_loop_first _ m m [] after).
  - unfold frame in Hsize. rewrite !size_sapp in Hsize.
    pose proof (size_nonneg (to_string (size m))).
    change (size " ") with 1 in Hsize. unfold RECV_BUFFER, INT_MAX in *. lia.
  - cbn [stream]. rewrite sapp_nil_r. reflexivity.
  - constructor.
Qed.

(** X29 - The framing round-trips on the deliveries that keep the length
    token whole.  For a payload [m] whose length fits an [int], on sockets
    that are created (and, for the client, connected): both [sendSocket]
    methods write the decimal length of [m], one space, then [m]; and both
    [recvSocket] methods, reading those bytes in blocks of which the first
    reaches past the space, return exactly [m] and leave the blocks that
    follow untouched.  The payload is arbitrary: it may be empty, start
    with spaces or hold any byte. *)
Theorem framing_round_trip (client : ClientSocket.t) (server : ServerSocket.t)
    (clientSocketFd : Z) (m first : string) (later after : list string) :
  ClientSocket.check client = Returned tt ->
  ServerSocket.m_socketFd server <> -1 ->
  size m <= INT_MAX ->
  stream (first :: later) = frame m ->
  size (to_string (size m)) + 1 <= size first ->
  Forall (fun b => 0 < size b <= RECV_BUFFER) (first :: later) ->
  ClientSocket.sendSocket client m = Returned (to_string (size m) +:+ " " +:+ m) /\
  ServerSocket.sendSocket server clientSocketFd m
    = Returned (to_string (size m) +:+ " " +:+ m) /\
  ClientSocket.recvSocket client (first :: later ++ after) = (Returned m, after) /\
  ServerSocket.recvSocket server clientSocketFd (first :: later ++ after)
    = (Returned m, after).
Proof.
  intros Hclient Hserver Hmax Hstream Hfirst Hwf.
  apply Forall_cons in Hwf as [_ Hwf].
  destruct (frame_blocks m first later Hstream Hfirst) as (part & -> & Hm).
  apply Z.eqb_neq in Hserver.
  unfold ClientSocket.sendSocket, ClientSocket.recvSocket,
    ServerSocket.sendSocket, ServerSocket.recvSocket.
  rewrite Hclient, Hserver. cbn [mbind outcome_bind mret outcome_ret].
  rewrite !recv_loop_first by assumption.
  repeat split; reflexivity.
Qed.

Lemma framing_round_trip_witness :
  ClientSocket.sendSocket (ClientSocket.mk "127.0.0.1" 5000 3) "hello world"
    = Returned "11 hello world" /\
  ClientSocket.recvSocket (ClientSocket.mk "127.0.0.1" 5000 3)
      ["11 hel"; "lo wor"; "ld"; "7 next.."]
    = (Returned "hello world", ["7 next.."]) /\
  ServerSocket.recvSocket (ServerSocket.mk "127.0.0.1" 5001 4) 9
      ["11 hel"; "lo wor"; "ld"; "7 next.."]
    = (Returned "hello world", ["7 next.."]).
Proof.
  destruct (framing_round_trip (ClientSocket.mk "127.0.0.1" 5000 3)
              (ServerSocket.mk "127.0.0.1" 5001 4) 9 "hello world" "11 hel"
              ["lo wor"; "ld"] ["7 next.."]) as (Hs & _ & Hc & Hr).
  - reflexivity.
  - cbn. lia.
  - vm_compute. discriminate.
  - reflexivity.
  - vm_compute. discriminate.
  - repeat constructor; vm_compute; congruence.
  - repeat split; assumption.
Defined.

(** The payload may be empty, or made of separators and zero bytes. *)
Example framing_empty_and_binary :
  let client := ClientSocket.mk "127.0.0.1" 5000 3 in
  ClientSocket.recvSocket client ["0 "] = (Returned "", []) /\
  ClientSocket.recvSocket client [frame (String " " (String "000" "  "))]
    = (Returned (String " " (String "000" "  ")), []).
Proof. split; reflexivity. Qed.

(** The hypothesis on the first block is used: a first [recv] that ends
    inside the length token makes [substr] raise [std::out_of_range]. *)
Example recvSocket_short_first_block :
  ClientSocket.recvSocket (ClientSocket.mk "127.0.0.1" 5000 3) ["5"; " hello"]
  = (Uncaught out_of_range, [" hello"]).
Proof. reflexivity. Qed.

(** C2 - The round trip fails on a delivery that splits the length token.
    For the payload "hello world" [sendSocket] writes "11 hello world".
    When [recv] hands these bytes over as the blocks "1" and
    "1 hello world", both [recvSocket] methods take the first block alone
    for the header: the token "1" is read as the length and
    [substr (temp[0].size() + 1)] is called on a string of one byte, which
    raises [std::out_of_range].  The payload is not returned and the second
    block is not read; the exception is not a string, so the callers'
    [catch (const string&)] do not see it. *)
Theorem framing_split_length_token :
  ClientSocket.sendSocket (ClientSocket.mk "127.0.0.1" 5000 3) "hello world"
    = Returned "11 hello world" /\
  ServerSocket.sendSocket (ServerSocket.mk "127.0.0.1" 5001 4) 9 "hello world"
    = Returned "11 hello world" /\
  stream ["1"; "1 hello world"] = "11 hello world" /\
  ClientSocket.recvSocket (ClientSocket.mk "127.0.0.1" 5000 3) ["1"; "1 hello world"]
    = (Uncaught out_of_range, ["1 hello world"]) /\
  ServerSocket.recvSocket (ServerSocket.mk "127.0.0.1" 5001 4) 9 ["1"; "1 hello world"]
    = (Uncaught out_of_range, ["1 hello world"]).
Proof. repeat split; vm_compute; reflexivity. Qed.

(** ** The seeder's command interpreter *)

Ltac run_prog :=
  cbv beta iota zeta delta
    [mbind prog_bind mret prog_ret outcome_bind outcome_ret gets modify lift throw
     try_catch Seeder.emit Seeder.set_files].

Lemma tokenize_nonempty command tokens0 tokens :
  Utils.tokenize command " " = tokens0 :: tokens -> empty command = false.
Proof. destruct command; [discriminate|reflexivity]. Qed.

Lemma executeCommand_give_piece_info disk command fd fileName groupName :
  Utils.tokenize command " " = ["give_piece_info"; fileName; groupName] ->
  Seeder.executeCommand disk command fd = Seeder.give_piece_info fileName groupName fd.
Proof.
  intros Htok. unfold Seeder.executeCommand.
  rewrite (tokenize_nonempty _ _ _ Htok), Htok. reflexivity.
Qed.

Lemma executeCommand_give_piece disk command fd fileName groupName tokens3 :
  Utils.tokenize command " " = ["give_piece"; fileName; groupName; tokens3] ->
  Seeder.executeCommand disk command fd
  = (pieceNumber ← lift (stoi tokens3);
     Seeder.give_piece disk fileName groupName pieceNumber fd).
Proof.
  intros Htok. unfold Seeder.executeCommand.
  rewrite (tokenize_nonempty _ _ _ Htok), Htok. reflexivity.
Qed.

Lemma find_spec pieces n : Files.find pieces n = true <-> n ∈ pieces.
Proof.
  unfold Files.find. induction pieces as [|p pieces IH]; cbn [existsb].
  - split; [discriminate|]. intros H. inversion H.
  - rewrite orb_true_iff. rewrite IH. rewrite Z.eqb_eq. rewrite elem_of_cons.
    reflexivity.
Qed.

(** The reply of [give_piece_info] written with [foldr]: each recorded
    number preceded by one space. *)
Lemma append_pieces_foldr pieces :
  Files.append_pieces "" pieces
  = foldr (fun n s => " " +:+ to_string n +:+ s) "" pieces.
Proof.
  induction pieces as [|p pieces IH]; [reflexivity|].
  rewrite append_pieces_cons. cbn [foldr]. rewrite <- IH. reflexivity.
Qed.

(** With an entry and a piece list, the payload is the rendering of the
    list. *)
Lemma give_piece_info_lists disk command fd s F G filePath pieces :
  Utils.tokenize command " " = ["give_piece_info"; F; G] ->
  Files.m_fileNameToFilePath (Seeder.files s) !! (F, G) = Some filePath ->
  Files.m_filePathToAvailablePieces (Seeder.files s) !! filePath = Some pieces ->
  fst (Seeder.executeCommand disk command fd s)
  = Returned (Files.append_pieces "" pieces).
Proof.
  intros Htok H1 H2. rewrite (executeCommand_give_piece_info _ _ _ _ _ Htok).
  unfold Seeder.give_piece_info. run_prog. rewrite H1, H2. reflexivity.
Qed.

(** C4 - [give_piece_info F G]: the payload is a single space when the
    registry has no entry for (F, G) or no piece list for the recorded path;
    otherwise it lists exactly the recorded piece numbers, each preceded by
    a space, so that splitting it at spaces gives back those numbers. *)
Theorem give_piece_info_payload (disk : gmap string string) (command : string)
    (leecherSocketFd : Z) (s : Seeder.t) (F G : string) :
  Utils.tokenize command " " = ["give_piece_info"; F; G] ->
  let payload := fst (Seeder.executeCommand disk command leecherSocketFd s) in
  match Files.m_fileNameToFilePath (Seeder.files s) !! (F, G) with
  | None => payload = Returned " "
  | Some filePath =>
      match Files.m_filePathToAvailablePieces (Seeder.files s) !! filePath with
      | None => payload = Returned " "
      | Some pieces =>
          exists text,
            payload = Returned text /\
            text = foldr (fun n rest => " " +:+ to_string n +:+ rest) "" pieces /\
            Utils.tokenize text " " = map to_string pieces
      end
  end.
Proof.
  intros Htok payload. subst payload.
  destruct (Files.m_fileNameToFilePath (Seeder.files s) !! (F, G))
    as [filePath|] eqn:H1.
  - destruct (Files.m_filePathToAvailablePieces (Seeder.files s) !! filePath)
      as [pieces|] eqn:H2.
    + exists (Files.append_pieces "" pieces).
      split; [apply (give_piece_info_lists _ _ _ _ _ _ _ _ Htok H1 H2)|]. split.
      * apply append_pieces_foldr.
      * apply tokenize_append_pieces.
    + rewrite (executeCommand_give_piece_info _ _ _ _ _ Htok).
      unfold Seeder.give_piece_info. run_prog. rewrite H1, H2. reflexivity.
  - rewrite (executeCommand_give_piece_info _ _ _ _ _ Htok).
    unfold Seeder.give_piece_info. run_prog. rewrite H1. reflexivity.
Qed.

Lemma give_piece_info_payload_witness :
  fst (Seeder.executeCommand ∅ "give_piece_info movie.mkv friends" 7
         (Seeder.mk (Files.mk {[ ("movie.mkv", "friends") := "/srv/movie.mkv" ]}
                              {[ "/srv/movie.mkv" := [2; 0; 1] ]})
                    (ServerSocket.mk "127.0.0.1" 5001 4) []))
  = Returned " 2 0 1".
Proof.
  pose proof (give_piece_info_payload ∅ "give_piece_info movie.mkv friends" 7
         (Seeder.mk (Files.mk {[ ("movie.mkv", "friends") := "/srv/movie.mkv" ]}
                              {[ "/srv/movie.mkv" := [2; 0; 1] ]})
                    (ServerSocket.mk "127.0.0.1" 5001 4) [])
         "movie.mkv" "friends" eq_refl) as H.
  vm_compute in H. destruct H as (text & Hpayload & Htext & _).
  rewrite Htext in Hpayload. vm_compute. exact Hpayload.
Defined.

Lemma response_thrown disk command fd s e s' :
  Seeder.executeCommand disk command fd s = (Thrown e, s') ->
  Seeder.response disk command fd s = (Returned ("Error: " +:+ e), s').
Proof. intros H. unfold Seeder.response. run_prog. rewrite H. reflexivity. Qed.

Lemma response_returned disk command fd s r s' :
  Seeder.executeCommand disk command fd s = (Returned r, s') ->
  Seeder.response disk command fd s = (Returned ("Success: " +:+ r), s').
Proof. intros H. unfold Seeder.response. run_prog. rewrite H. reflexivity. Qed.

(** X30 - For a [give_piece F G N] request whose piece number [stoi]
    accepts, the seeder answers with an error, and no piece bytes, whenever
    the peer does not hold piece [N]: (F, G) is not registered, or the
    recorded path has no piece list, or [N] is not in that list; each case
    has its own message.  Piece bytes are returned only when the three
    lookups succeed. *)
Theorem give_piece_errors (disk : gmap string string) (command : string)
    (leecherSocketFd : Z) (s : Seeder.t) (F G tokens3 : string) (N : Z) :
  Utils.tokenize command " " = ["give_piece"; F; G; tokens3] ->
  stoi tokens3 = Returned N ->
  let files := Seeder.files s in
  let result := fst (Seeder.executeCommand disk command leecherSocketFd s) in
  let reply := fst (Seeder.response disk command leecherSocketFd s) in
  (Files.m_fileNameToFilePath files !! (F, G) = None ->
   result = Thrown "File not Exist!!" /\
   reply = Returned "Error: File not Exist!!") /\
  (forall filePath,
     Files.m_fileNameToFilePath files !! (F, G) = Some filePath ->
     Files.m_filePathToAvailablePieces files !! filePath = None ->
     result = Thrown "Filepieces map not Exist!!" /\
     reply = Returned "Error: Filepieces map not Exist!!") /\
  (forall filePath pieces,
     Files.m_fileNameToFilePath files !! (F, G) = Some filePath ->
     Files.m_filePathToAvailablePieces files !! filePath = Some pieces ->
     (N ∉ pieces) ->
     result = Thrown "Piece not Found!!" /\
     reply = Returned "Error: Piece not Found!!") /\
  (not (holds_piece files F G N) ->
   exists e, result = Thrown e /\ reply = Returned ("Error: " +:+ e)) /\
  (forall pieceData, result = Returned pieceData -> holds_piece files F G N).
Proof.
  intros Htok Hstoi files result reply. subst files result reply.
  assert (Hcases :
    forall filePath pieces e,
      (Files.m_fileNameToFilePath (Seeder.files s) !! (F, G) = None /\
       e = "File not Exist!!") \/
      (Files.m_fileNameToFilePath (Seeder.files s) !! (F, G) = Some filePath /\
       Files.m_filePathToAvailablePieces (Seeder.files s) !! filePath = None /\
       e = "Filepieces map not Exist!!") \/
      (Files.m_fileNameToFilePath (Seeder.files s) !! (F, G) = Some filePath /\
       Files.m_filePathToAvailablePieces (Seeder.files s) !! filePath = Some pieces /\
       (N ∉ pieces) /\ e = "Piece not Found!!") ->
      Seeder.executeCommand disk command leecherSocketFd s = (Thrown e, s)).
  { intros filePath pieces e Hcase.
    rewrite (executeCommand_give_piece _ _ _ _ _ _ Htok). run_prog.
    rewrite Hstoi. unfold Seeder.give_piece. run_prog.
    destruct Hcase as [(-> & ->)|[(-> & -> & ->)|(-> & -> & Hnot & ->)]];
      try reflexivity.
    destruct (Files.find pieces N) eqn:Hfind; [|reflexivity].
    apply find_spec in Hfind. contradiction. }
  assert (Hreply : forall e,
    Seeder.executeCommand disk command leecherSocketFd s = (Thrown e, s) ->
    fst (Seeder.executeCommand disk command leecherSocketFd s) = Thrown e /\
    fst (Seeder.response disk command leecherSocketFd s)
      = Returned ("Error: " +:+ e)).
  { intros e He. rewrite (response_thrown _ _ _ _ _ _ He), He. split; reflexivity. }
  split; [|split; [|split; [|split]]].
  - intros Hnone. apply Hreply, (Hcases "" []). left. split; [assumption|reflexivity].
  - intros filePath H1 H2. apply Hreply, (Hcases filePath []). right. left.
    repeat split; assumption.
  - intros filePath pieces H1 H2 H3. apply Hreply, (Hcases filePath pieces).
    right. right. repeat split; assumption.
  - intros Hnot.
    destruct (Files.m_fileNameToFilePath (Seeder.files s) !! (F, G))
      as [filePath|] eqn:H1.
    + destruct (Files.m_filePathToAvailablePieces (Seeder.files s) !! filePath)
        as [pieces|] eqn:H2.
      * exists "Piece not Found!!". apply Hreply, (Hcases filePath pieces).
        right. right. split; [reflexivity|]. split; [assumption|].
        split; [|reflexivity].
        intros Hin. apply Hnot. exists filePath, pieces. repeat split; assumption.
      * exists "Filepieces map not Exist!!". apply Hreply, (Hcases filePath []).
        right. left. repeat split; first [reflexivity|assumption].
    + exists "File not Exist!!". apply Hreply, (Hcases "" []). left.
      split; reflexivity.
  - intros pieceData. rewrite (executeCommand_give_piece _ _ _ _ _ _ Htok). run_prog.
    rewrite Hstoi. unfold Seeder.give_piece. run_prog.
    destruct (Files.m_fileNameToFilePath (Seeder.files s) !! (F, G))
      as [filePath|] eqn:H1; [|discriminate].
    destruct (Files.m_filePathToAvailablePieces (Seeder.files s) !! filePath)
      as [pieces|] eqn:H2; [|discriminate].
    destruct (Files.find pieces N) eqn:Hfind; [|discriminate].
    intros _. exists filePath, pieces. repeat split; try assumption.
    apply find_spec, Hfind.
Qed.

Lemma give_piece_errors_witness :
  fst (Seeder.response ∅ "give_piece movie.mkv friends 3" 7
         (Seeder.mk (Files.mk {[ ("movie.mkv", "friends") := "/srv/movie.mkv" ]}
                              {[ "/srv/movie.mkv" := [2; 0; 1] ]})
                    (ServerSocket.mk "127.0.0.1" 5001 4) []))
  = Returned "Error: Piece not Found!!".
Proof.
  destruct (give_piece_errors ∅ "give_piece movie.mkv friends 3" 7
         (Seeder.mk (Files.mk {[ ("movie.mkv", "friends") := "/srv/movie.mkv" ]}
                              {[ "/srv/movie.mkv" := [2; 0; 1] ]})
                    (ServerSocket.mk "127.0.0.1" 5001 4) [])
         "movie.mkv" "friends" "3" 3 eq_refl eq_refl) as (_ & _ & H & _).
  apply (H "/srv/movie.mkv" [2; 0; 1]).
  - reflexivity.
  - reflexivity.
  - intros Hin. apply find_spec in Hin. discriminate Hin.
Defined.

(** C5 - A [give_piece] request for a piece the peer does not hold is left
    without an error reply when the piece number does not fit an [int].
    [stoi] runs before the lookups and raises [std::out_of_range] on
    "2147483648"; the exception is not a string, so neither
    [catch (const string&)] of [handleLeecher] handles it.  With nothing
    registered the inner [try] yields no response; with the file registered
    and piece 0 alone recorded, the turn of [handleLeecher] logs the request
    and ends with the exception, nothing having been sent. *)
Theorem give_piece_unheld_piece_unanswered :
  Seeder.response ∅ "give_piece movie.mkv friends 2147483648" 7
    (Seeder.mk (Files.mk ∅ ∅) (ServerSocket.mk "127.0.0.1" 5001 4) [])
  = (Uncaught out_of_range,
     Seeder.mk (Files.mk ∅ ∅) (ServerSocket.mk "127.0.0.1" 5001 4) []) /\
  Seeder.handleLeecher_turn ∅ 7 ["39 give_piece movie.mkv friends 2147483648"]
    (Seeder.mk (Files.mk {[ ("movie.mkv", "friends") := "/srv/movie.mkv" ]}
                         {[ "/srv/movie.mkv" := [0] ]})
               (ServerSocket.mk "127.0.0.1" 5001 4) [])
  = (Uncaught out_of_range,
     Seeder.mk (Files.mk {[ ("movie.mkv", "friends") := "/srv/movie.mkv" ]}
                         {[ "/srv/movie.mkv" := [0] ]})
               (ServerSocket.mk "127.0.0.1" 5001 4)
       [Logged "COMMAND"
          "LeecherSocket = 7 | Recieved from leecher : give_piece movie.mkv friends 2147483648"]).
Proof. split; reflexivity. Qed.

(** [substring n m s], the bytes of [s] at positions [n, n + m), is what a
    read of [m] bytes at offset [n] returns. *)
Lemma substring_take_drop n m s : substring n m s = take m (drop n s).
Proof.
  revert n m. induction s as [|c s IH]; intros [|n] [|m]; try reflexivity.
  - cbn [substring take drop]. rewrite (IH 0%nat m). destruct s; reflexivity.
  - cbn [substring drop]. apply IH.
  - cbn [substring drop]. apply IH.
Qed.

Lemma take_min m s : take m s = take (Nat.min m (String.length s)) s.
Proof.
  revert s. induction m as [|m IH]; intros [|c s]; try reflexivity.
  cbn [take String.length Nat.min]. rewrite <- IH. reflexivity.
Qed.

Lemma take_all m s : (String.length s <= m)%nat -> take m s = s.
Proof.
  revert s. induction m as [|m IH]; intros [|c s] Hlen; try reflexivity.
  - cbn in Hlen. lia.
  - cbn [take]. rewrite IH; [reflexivity|cbn in Hlen; lia].
Qed.

(** A read of [PIECE_SIZE] bytes at offset [off] returns the bytes of the
    range that stops at the end of the file. *)
Lemma read_piece content off :
  0 <= off ->
  take piece_bytes (drop (Z.to_nat off) content)
  = substring (Z.to_nat off) (Z.to_nat (Z.min 1024 (size content - off))) content.
Proof.
  intros Hoff. rewrite substring_take_drop, take_min, length_drop.
  f_equal. unfold size, piece_bytes, PIECE_SIZE. lia.
Qed.

(** C1 - [give_piece F G N] on a registered, readable file whose piece list
    contains [N] returns exactly the bytes of the file in the range
    [N * 1024, N * 1024 + min 1024 (fileSize - N * 1024)): the piece is read
    at offset [N * PIECE_SIZE] and the last one may be shorter than 1024
    bytes.  [N] is a piece number: it is not negative and its offset fits an
    [int]. *)
Theorem give_piece_bytes (disk : gmap string string) (command : string)
    (leecherSocketFd : Z) (s : Seeder.t) (F G tokens3 filePath content : string)
    (pieces : list Z) (N : Z) :
  Utils.tokenize command " " = ["give_piece"; F; G; tokens3] ->
  stoi tokens3 = Returned N ->
  Files.m_fileNameToFilePath (Seeder.files s) !! (F, G) = Some filePath ->
  Files.m_filePathToAvailablePieces (Seeder.files s) !! filePath = Some pieces ->
  N ∈ pieces ->
  disk !! filePath = Some content ->
  0 <= N -> N * 1024 <= INT_MAX ->
  let fileSize := size content in
  let piece := substring (Z.to_nat (N * 1024))
                 (Z.to_nat (Z.min 1024 (fileSize - N * 1024))) content in
  fst (Seeder.executeCommand disk command leecherSocketFd s) = Returned piece /\
  fst (Seeder.response disk command leecherSocketFd s)
    = Returned ("Success: " +:+ piece) /\
  size piece = Z.max 0 (Z.min 1024 (fileSize - N * 1024)).
Proof.
  intros Htok Hstoi H1 H2 Hin Hdisk HN Hmax fileSize piece.
  assert (Hexec : exists s',
    Seeder.executeCommand disk command leecherSocketFd s = (Returned piece, s')).
  { rewrite (executeCommand_give_piece _ _ _ _ _ _ Htok). run_prog.
    rewrite Hstoi. unfold Seeder.give_piece. run_prog.
    rewrite H1, H2. apply find_spec in Hin. rewrite Hin. cbn [negb].
    rewrite Hdisk. unfold int_arith.
    rewrite in_int_true by (unfold INT_MIN, INT_MAX, PIECE_SIZE in *; lia).
    destruct (PIECE_SIZE * N <? 0) eqn:Hneg;
      [apply Z.ltb_lt in Hneg; unfold PIECE_SIZE in Hneg; lia|].
    rewrite read_piece by (unfold PIECE_SIZE; lia).
    replace (PIECE_SIZE * N) with (N * 1024) by (unfold PIECE_SIZE; lia).
    eexists. reflexivity. }
  destruct Hexec as [s' Hexec].
  rewrite (response_returned _ _ _ _ _ _ Hexec), Hexec.
  split; [reflexivity|]. split; [reflexivity|].
  subst piece. rewrite substring_take_drop. unfold size.
  rewrite length_take, length_drop. subst fileSize. unfold size. lia.
Qed.

Lemma give_piece_bytes_witness :
  fst (Seeder.response {[ "/srv/notes.txt" := "hello world" ]}
         "give_piece notes.txt friends 0" 7
         (Seeder.mk (Files.mk {[ ("notes.txt", "friends") := "/srv/notes.txt" ]}
                              {[ "/srv/notes.txt" := [0] ]})
                    (ServerSocket.mk "127.0.0.1" 5001 4) []))
  = Returned "Success: hello world".
Proof.
  destruct (give_piece_bytes {[ "/srv/notes.txt" := "hello world" ]}
         "give_piece notes.txt friends 0" 7
         (Seeder.mk (Files.mk {[ ("notes.txt", "friends") := "/srv/notes.txt" ]}
                              {[ "/srv/notes.txt" := [0] ]})
                    (ServerSocket.mk "127.0.0.1" 5001 4) [])
         "notes.txt" "friends" "0" "/srv/notes.txt" "hello world" [0] 0)
    as (_ & H & _).
  - reflexivity.
  - reflexivity.
  - reflexivity.
  - reflexivity.
  - apply find_spec. reflexivity.
  - reflexivity.
  - lia.
  - vm_compute. discriminate.
  - exact H.
Defined.

(** ** The registry under seeder commands *)

(** No branch of [give_piece_info] touches the piece lists; the only write
    is the removal of a stale (F, G) entry. *)
Lemma give_piece_info_files fileName groupName fd s :
  let files := Seeder.files s in
  let files' := Seeder.files (snd (Seeder.give_piece_info fileName groupName fd s)) in
  Files.m_filePathToAvailablePieces files' = Files.m_filePathToAvailablePieces files /\
  Files.m_fileNameToFilePath files'
  = match Files.m_fileNameToFilePath files !! (fileName, groupName) with
    | Some filePath =>
        match Files.m_filePathToAvailablePieces files !! filePath with
        | None => delete (fileName, groupName) (Files.m_fileNameToFilePath files)
        | Some _ => Files.m_fileNameToFilePath files
        end
    | None => Files.m_fileNameToFilePath files
    end.
Proof.
  unfold Seeder.give_piece_info. run_prog.
  destruct (Files.m_fileNameToFilePath (Seeder.files s) !! (fileName, groupName))
    as [filePath|]; [|split; reflexivity].
  destruct (Files.m_filePathToAvailablePieces (Seeder.files s) !! filePath);
    split; reflexivity.
Qed.

Lemma give_piece_files disk fileName groupName pieceNumber fd s :
  Seeder.files (snd (Seeder.give_piece disk fileName groupName pieceNumber fd s))
  = Seeder.files s.
Proof.
  unfold Seeder.give_piece. run_prog.
  destruct (Files.m_fileNameToFilePath (Seeder.files s) !! (fileName, groupName))
    as [filePath|]; [|reflexivity].
  destruct (Files.m_filePathToAvailablePieces (Seeder.files s) !! filePath)
    as [pieces|]; [|reflexivity].
  destruct (negb (Files.find pieces pieceNumber)); [reflexivity|].
  destruct (disk !! filePath); [|reflexivity].
  destruct (int_arith (PIECE_SIZE * pieceNumber)) as [off| | | |]; try reflexivity.
  destruct (off <? 0); reflexivity.
Qed.

(** Whatever the command, [executeCommand] leaves the piece lists as they
    were. *)
Lemma executeCommand_pieces disk command fd s :
  Files.m_filePathToAvailablePieces
    (Seeder.files (snd (Seeder.executeCommand disk command fd s)))
  = Files.m_filePathToAvailablePieces (Seeder.files s).
Proof.
  unfold Seeder.executeCommand.
  destruct (empty command); [reflexivity|].
  destruct (Utils.tokenize command " ") as [|tokens0 args]; [reflexivity|].
  destruct (String.eqb tokens0 "give_piece_info").
  { destruct args as [|fileName [|groupName [|? ?]]]; try reflexivity.
    apply give_piece_info_files. }
  destruct (String.eqb tokens0 "give_piece"); [|reflexivity].
  destruct args as [|fileName [|groupName [|tokens3 [|? ?]]]]; try reflexivity.
  run_prog. destruct (stoi tokens3); try reflexivity.
  rewrite give_piece_files. reflexivity.
Qed.

(** C9, as stated, fails: a request for a file whose path has no piece list
    erases the (F, G) entry of the first map. *)
Lemma give_piece_info_erases_stale_entry :
  Seeder.files
    (snd (Seeder.executeCommand ∅ "give_piece_info movie.mkv friends" 7
            (Seeder.mk (Files.mk {[ ("movie.mkv", "friends") := "/srv/movie.mkv" ]} ∅)
                       (ServerSocket.mk "127.0.0.1" 5001 4) [])))
  <> Files.mk {[ ("movie.mkv", "friends") := "/srv/movie.mkv" ]} ∅.
Proof.
  intros Heq.
  apply (f_equal (fun files =>
    Files.m_fileNameToFilePath files !! ("movie.mkv", "friends"))) in Heq.
  vm_compute in Heq. discriminate Heq.
Qed.

(** C9, amended - [give_piece_info] never changes the map from paths to
    piece lists, and changes the map from (file, group) to path in one case
    only: when (F, G) is registered with a path that has no piece list, that
    entry is erased.  A request with another number of arguments changes
    nothing. *)
Theorem give_piece_info_frame (disk : gmap string string) (command : string)
    (leecherSocketFd : Z) (s : Seeder.t) (args : list string) :
  Utils.tokenize command " " = "give_piece_info" :: args ->
  let files := Seeder.files s in
  let files' :=
    Seeder.files (snd (Seeder.executeCommand disk command leecherSocketFd s)) in
  Files.m_filePathToAvailablePieces files' = Files.m_filePathToAvailablePieces files /\
  Files.m_fileNameToFilePath files'
  = match args with
    | [F; G] =>
        match Files.m_fileNameToFilePath files !! (F, G) with
        | Some filePath =>
            match Files.m_filePathToAvailablePieces files !! filePath with
            | None => delete (F, G) (Files.m_fileNameToFilePath files)
            | Some _ => Files.m_fileNameToFilePath files
            end
        | None => Files.m_fileNameToFilePath files
        end
    | _ => Files.m_fileNameToFilePath files
    end.
Proof.
  intros Htok files files'. subst files files'.
  split; [apply executeCommand_pieces|].
  unfold Seeder.executeCommand.
  rewrite (tokenize_nonempty _ _ _ Htok), Htok. cbn [String.eqb Ascii.eqb Bool.eqb].
  destruct args as [|F [|G [|? ?]]]; try reflexivity.
  apply give_piece_info_files.
Qed.

Lemma give_piece_info_frame_witness :
  Files.m_filePathToAvailablePieces
    (Seeder.files
       (snd (Seeder.executeCommand ∅ "give_piece_info movie.mkv friends" 7
               (Seeder.mk (Files.mk {[ ("movie.mkv", "friends") := "/srv/movie.mkv" ]} ∅)
                          (ServerSocket.mk "127.0.0.1" 5001 4) []))))
  = ∅ /\
  Files.m_fileNameToFilePath
    (Seeder.files
       (snd (Seeder.executeCommand ∅ "give_piece_info movie.mkv friends" 7
               (Seeder.mk (Files.mk {[ ("movie.mkv", "friends") := "/srv/movie.mkv" ]} ∅)
                          (ServerSocket.mk "127.0.0.1" 5001 4) []))))
  = delete ("movie.mkv", "friends") {[ ("movie.mkv", "friends") := "/srv/movie.mkv" ]}.
Proof.
  exact (give_piece_info_frame ∅ "give_piece_info movie.mkv friends" 7
           (Seeder.mk (Files.mk {[ ("movie.mkv", "friends") := "/srv/movie.mkv" ]} ∅)
                      (ServerSocket.mk "127.0.0.1" 5001 4) [])
           ["movie.mkv"; "friends"] eq_refl).
Defined.

(** ** The piece lists only grow *)

Lemma pieces_of_addPieceToFilepath files filePath pieceNumber path :
  pieces_of (Files.addPieceToFilepath filePath pieceNumber files) path
  = if decide (filePath = path) then pieces_of files path ++ [pieceNumber]
    else pieces_of files path.
Proof.
  unfold pieces_of, Files.addPieceToFilepath. cbn [Files.m_filePathToAvailablePieces].
  destruct (decide (filePath = path)) as [->|Hne].
  - rewrite lookup_insert_eq. reflexivity.
  - rewrite lookup_insert_ne by assumption. reflexivity.
Qed.

(** One registry operation keeps every recorded piece number. *)
Lemma run_op_pieces disk s op path n :
  n ∈ pieces_of (Seeder.files s) path ->
  n ∈ pieces_of (Seeder.files (run_op disk s op)) path.
Proof.
  intros Hin. destruct op; cbn [run_op Seeder.files]; try assumption.
  - rewrite pieces_of_addPieceToFilepath. destruct (decide _); [|assumption].
    apply elem_of_app. left. assumption.
  - unfold pieces_of. rewrite executeCommand_pieces. assumption.
Qed.

(** C6 - During a session the piece list of every path only grows: after
    any sequence of [addFilepath], [addPieceToFilepath], [giveFilePath],
    [giveAvailablePieces], [isPieceAvailable] and seeder commands, each
    piece number that was recorded for a path is still recorded for it. *)
Theorem pieces_monotone (disk : gmap string string) (ops : list registry_op)
    (s : Seeder.t) (filePath : string) (n : Z) :
  n ∈ pieces_of (Seeder.files s) filePath ->
  n ∈ pieces_of (Seeder.files (run_ops disk s ops)) filePath.
Proof.
  revert s. induction ops as [|op ops IH]; intros s Hin; [assumption|].
  cbn [run_ops foldl]. apply IH, run_op_pieces, Hin.
Qed.

Lemma pieces_monotone_witness :
  2 ∈ pieces_of
        (Seeder.files
           (run_ops ∅
              (Seeder.mk (Files.mk {[ ("movie.mkv", "friends") := "/srv/movie.mkv" ]}
                                   {[ "/srv/movie.mkv" := [2; 0] ]})
                         (ServerSocket.mk "127.0.0.1" 5001 4) [])
              [AddPieceToFilepath "/srv/movie.mkv" 1;
               SeederCommand "give_piece_info movie.mkv enemies" 7;
               AddFilepath "movie.mkv" "friends" "/tmp/other";
               SeederCommand "give_piece_info movie.mkv friends" 7;
               SeederCommand "give_piece movie.mkv friends 9" 7]))
        "/srv/movie.mkv".
Proof.
  apply pieces_monotone. apply find_spec. reflexivity.
Defined.

(** ** Registering a piece twice *)

(** C7, as stated, fails: [addPieceToFilepath] on a piece number that is
    already recorded changes the list, which then holds the number twice,
    and [give_piece_info] lists it twice. *)
Lemma addPieceToFilepath_records_twice :
  3 ∈ pieces_of (Files.mk {[ ("movie.mkv", "friends") := "/srv/movie.mkv" ]}
                          {[ "/srv/movie.mkv" := [3] ]}) "/srv/movie.mkv" /\
  pieces_of
    (Files.addPieceToFilepath "/srv/movie.mkv" 3
       (Files.mk {[ ("movie.mkv", "friends") := "/srv/movie.mkv" ]}
                 {[ "/srv/movie.mkv" := [3] ]})) "/srv/movie.mkv"
  <> pieces_of (Files.mk {[ ("movie.mkv", "friends") := "/srv/movie.mkv" ]}
                         {[ "/srv/movie.mkv" := [3] ]}) "/srv/movie.mkv" /\
  fst (Seeder.executeCommand ∅ "give_piece_info movie.mkv friends" 7
         (Seeder.mk
            (Files.addPieceToFilepath "/srv/movie.mkv" 3
               (Files.mk {[ ("movie.mkv", "friends") := "/srv/movie.mkv" ]}
                         {[ "/srv/movie.mkv" := [3] ]}))
            (ServerSocket.mk "127.0.0.1" 5001 4) []))
  = Returned " 3 3".
Proof.
  split; [apply find_spec; reflexivity|]. split; [|reflexivity].
  vm_compute. discriminate.
Qed.

(** C7, amended - [addPieceToFilepath path n] appends [n] to the piece list
    of [path], whether or not [n] is already recorded there: the list after
    the call is the list before it followed by [n], so [n] occurs once more
    than before and [give_piece_info] on a file registered with [path]
    lists the old numbers and then [n]; the lists of the other paths and
    the map from (file, group) to path are unchanged. *)
Theorem addPieceToFilepath_appends (files : Files.t) (filePath : string) (n : Z) :
  let files' := Files.addPieceToFilepath filePath n files in
  pieces_of files' filePath = pieces_of files filePath ++ [n] /\
  count_occ Z.eq_dec (pieces_of files' filePath) n
    = S (count_occ Z.eq_dec (pieces_of files filePath) n) /\
  (forall other, other <> filePath -> pieces_of files' other = pieces_of files other) /\
  Files.m_fileNameToFilePath files' = Files.m_fileNameToFilePath files /\
  (forall disk command leecherSocketFd sock trace F G,
     Utils.tokenize command " " = ["give_piece_info"; F; G] ->
     Files.m_fileNameToFilePath files !! (F, G) = Some filePath ->
     exists text,
       fst (Seeder.executeCommand disk command leecherSocketFd
              (Seeder.mk files' sock trace)) = Returned text /\
       Utils.tokenize text " " = map to_string (pieces_of files filePath ++ [n])).
Proof.
  cbv zeta. rewrite pieces_of_addPieceToFilepath.
  destruct (decide (filePath = filePath)) as [_|Hne]; [|contradiction].
  split; [reflexivity|]. split; [|split; [|split; [reflexivity|]]].
  - rewrite count_occ_app. cbn [count_occ].
    destruct (Z.eq_dec n n) as [_|Hne]; [lia|contradiction].
  - intros other Hne. rewrite pieces_of_addPieceToFilepath.
    destruct (decide (filePath = other)) as [Heq|_]; [congruence|reflexivity].
  - intros disk command fd sock trace F G Htok H1.
    exists (Files.append_pieces "" (pieces_of files filePath ++ [n])).
    split; [|apply tokenize_append_pieces].
    apply (give_piece_info_lists _ _ _ _ _ _ filePath _ Htok); [exact H1|].
    cbn [Seeder.files Files.addPieceToFilepath Files.m_filePathToAvailablePieces].
    apply lookup_insert_eq.
Qed.

Lemma addPieceToFilepath_appends_witness :
  pieces_of
    (Files.addPieceToFilepath "/srv/movie.mkv" 3
       (Files.mk {[ ("movie.mkv", "friends") := "/srv/movie.mkv" ]}
                 {[ "/srv/movie.mkv" := [3; 0] ]})) "/srv/movie.mkv"
  = [3; 0; 3] /\
  exists text,
    fst (Seeder.executeCommand ∅ "give_piece_info movie.mkv friends" 7
           (Seeder.mk
              (Files.addPieceToFilepath "/srv/movie.mkv" 3
                 (Files.mk {[ ("movie.mkv", "friends") := "/srv/movie.mkv" ]}
                           {[ "/srv/movie.mkv" := [3; 0] ]}))
              (ServerSocket.mk "127.0.0.1" 5001 4) [])) = Returned text /\
    Utils.tokenize text " " = ["3"; "0"; "3"].
Proof.
  destruct (addPieceToFilepath_appends
              (Files.mk {[ ("movie.mkv", "friends") := "/srv/movie.mkv" ]}
                        {[ "/srv/movie.mkv" := [3; 0] ]}) "/srv/movie.mkv" 3)
    as (Hlist & _ & _ & _ & Hinfo).
  split; [exact Hlist|].
  apply (Hinfo ∅ "give_piece_info movie.mkv friends" 7
           (ServerSocket.mk "127.0.0.1" 5001 4) [] "movie.mkv" "friends");
    reflexivity.
Defined.

(** ** The leecher's [show_downloads] *)

Section SetsBlind.

Context {A B : Type}.

Lemma blind_ret (a : A) : sets_blind (mret a).
Proof. intros d1 d2 d3 l. reflexivity. Qed.

Lemma blind_lift (o : outcome A) : sets_blind (lift o).
Proof. intros d1 d2 d3 l. reflexivity. Qed.

Lemma blind_bind (c : prog Leecher.t A) (k : A -> prog Leecher.t B) :
  sets_blind c -> (forall a, sets_blind (k a)) -> sets_blind (c ≫= k).
Proof.
  intros Hc Hk d1 d2 d3 l. unfold mbind, prog_bind. rewrite Hc.
  destruct (c l) as [[a|e|e|code|] l']; cbn [fst snd]; try reflexivity.
  apply Hk.
Qed.

Lemma blind_try_catch (c : prog Leecher.t A) (h : string -> prog Leecher.t A) :
  sets_blind c -> (forall e, sets_blind (h e)) -> sets_blind (try_catch c h).
Proof.
  intros Hc Hh d1 d2 d3 l. unfold try_catch. rewrite Hc.
  destruct (c l) as [[a|e|e|code|] l']; cbn [fst snd]; try reflexivity.
  apply Hh.
Qed.

Lemma blind_if (b : bool) (c1 c2 : prog Leecher.t A) :
  sets_blind c1 -> sets_blind c2 -> sets_blind (if b then c1 else c2).
Proof. destruct b; auto. Qed.

End SetsBlind.

Lemma blind_emit e : sets_blind (Leecher.emit e).
Proof. intros d1 d2 d3 l. reflexivity. Qed.

Lemma blind_authToken : sets_blind (gets Leecher.m_authToken).
Proof. intros d1 d2 d3 l. reflexivity. Qed.

Lemma blind_clientSocket : sets_blind (gets Leecher.m_clientSocket).
Proof. intros d1 d2 d3 l. reflexivity. Qed.

Lemma blind_recvTracker : sets_blind Leecher.recvTracker.
Proof.
  intros d1 d2 d3 l. unfold Leecher.recvTracker.
  cbn [with_sets Leecher.m_clientSocket Leecher.tracker_in].
  destruct (ClientSocket.recvSocket _ _). reflexivity.
Qed.

Create HintDb blind.
#[local] Hint Resolve blind_ret blind_lift blind_emit blind_authToken
  blind_clientSocket blind_recvTracker : blind.
#[local] Hint Extern 2 (sets_blind (_ ≫= _)) => apply blind_bind; [|intros ?] : blind.
#[local] Hint Extern 2 (sets_blind (if _ then _ else _)) => apply blind_if : blind.
#[local] Hint Extern 2 (sets_blind (throw _)) => apply blind_lift : blind.

Lemma blind_checkForError response : sets_blind (Leecher.checkForError response).
Proof. unfold Leecher.checkForError. auto 10 with blind. Qed.

Lemma blind_sendTracker message : sets_blind (Leecher.sendTracker message).
Proof.
  unfold Leecher.sendTracker. pose proof blind_checkForError.
  auto 20 with blind.
Qed.

Lemma blind_list_reply none_text header response :
  sets_blind (Leecher.list_reply none_text header response).
Proof. unfold Leecher.list_reply. auto 10 with blind. Qed.

Lemma blind_printResponse tokens response :
  sets_blind (Leecher.printResponse tokens response).
Proof.
  unfold Leecher.printResponse. pose proof blind_list_reply.
  auto 20 with blind.
Qed.

Lemma blind_showDownloads tokens inputFromClient :
  sets_blind (Leecher.showDownloads tokens inputFromClient).
Proof.
  unfold Leecher.showDownloads.
  pose proof blind_sendTracker. pose proof blind_printResponse.
  auto 10 with blind.
Qed.

Lemma processUserRequests_show_downloads inputFromClient args :
  Utils.tokenize inputFromClient " " = "show_downloads" :: args ->
  Leecher.processUserRequests inputFromClient
  = Leecher.showDownloads ("show_downloads" :: args) inputFromClient.
Proof. intros Htok. unfold Leecher.processUserRequests. rewrite Htok. reflexivity. Qed.

Ltac run_leecher :=
  cbv beta iota zeta delta
    [mbind prog_bind mret prog_ret outcome_bind outcome_ret gets modify lift throw
     try_catch Leecher.emit Leecher.set_authToken Leecher.recvTracker];
  cbn [Leecher.m_authToken Leecher.m_seederIp Leecher.m_seederPort
       Leecher.m_clientSocket Leecher.m_downloadingFiles Leecher.m_downloadedFiles
       Leecher.m_downloadFailFiles Leecher.tracker_in Leecher.trace].

(** C8, as stated, fails: [show_downloads] sends a command to the tracker
    and prints the tracker's answer; the download recorded in the
    in-progress set does not appear in the output. *)
Lemma show_downloads_sends_to_tracker :
  Leecher.trace
    (snd (Leecher.processUserRequests "show_downloads"
            (Leecher.mk "tok" "127.0.0.1" 6000 (ClientSocket.mk "127.0.0.1" 5000 3)
               {[ ("friends", "movie.mkv") ]} ∅ ∅ ["12 Success: abc"] [])))
  = [Logged "COMMAND" "Sending to tracker : show_downloads tok";
     Sent "18 show_downloads tok";
     Logged "COMMAND" "Received from tracker : Success: abc";
     Printed (GREEN +:+ "Success: abc" +:+ nl +:+ RESET)].
Proof. reflexivity. Qed.

(** C8, amended - [show_downloads] appends the session token to the line
    the user typed, sends it to the tracker as a framed command and, when
    the tracker's answer is not an error, prints that answer; the three
    download-session sets are neither read nor changed. *)
Theorem show_downloads_forwards (l : Leecher.t) (inputFromClient : string)
    (args : list string) :
  Utils.tokenize inputFromClient " " = "show_downloads" :: args ->
  sets_blind (Leecher.processUserRequests inputFromClient) /\
  forall response rest,
    ClientSocket.check (Leecher.m_clientSocket l) = Returned tt ->
    ClientSocket.recvSocket (Leecher.m_clientSocket l) (Leecher.tracker_in l)
      = (Returned response, rest) ->
    take 5 response <> "Error" ->
    let message := inputFromClient +:+ " " +:+ Leecher.m_authToken l in
    Leecher.processUserRequests inputFromClient l
    = (Returned tt,
       Leecher.mk (Leecher.m_authToken l) (Leecher.m_seederIp l)
         (Leecher.m_seederPort l) (Leecher.m_clientSocket l)
         (Leecher.m_downloadingFiles l) (Leecher.m_downloadedFiles l)
         (Leecher.m_downloadFailFiles l) rest
         (Leecher.trace l ++
            [Logged "COMMAND" ("Sending to tracker : " +:+ message);
             Sent (to_string (size message) +:+ " " +:+ message);
             Logged "COMMAND" ("Received from tracker : " +:+ response);
             Printed (GREEN +:+ response +:+ nl +:+ RESET)])).
Proof.
  intros Htok. rewrite (processUserRequests_show_downloads _ _ Htok).
  split; [apply blind_showDownloads|].
  intros response rest Hcheck Hrecv Hok message.
  apply String.eqb_neq in Hok.
  unfold Leecher.showDownloads, Leecher.sendTracker, ClientSocket.sendSocket.
  run_leecher. rewrite Hcheck. run_leecher. rewrite Hrecv.
  unfold Leecher.checkForError. rewrite Hok. run_leecher.
  unfold Leecher.printResponse.
  change (Leecher.at_ ("show_downloads" :: args) 0)
    with (@Returned string "show_downloads").
  run_leecher. cbn [String.eqb Ascii.eqb Bool.eqb]. run_leecher.
  rewrite <- !app_assoc. reflexivity.
Qed.

Lemma show_downloads_forwards_witness :
  Leecher.processUserRequests "show_downloads"
    (Leecher.mk "tok" "127.0.0.1" 6000 (ClientSocket.mk "127.0.0.1" 5000 3)
       {[ ("friends", "movie.mkv") ]} ∅ ∅ ["12 Success: abc"; "later"] [])
  = (Returned tt,
     Leecher.mk "tok" "127.0.0.1" 6000 (ClientSocket.mk "127.0.0.1" 5000 3)
       {[ ("friends", "movie.mkv") ]} ∅ ∅ ["later"]
       [Logged "COMMAND" "Sending to tracker : show_downloads tok";
        Sent "18 show_downloads tok";
        Logged "COMMAND" "Received from tracker : Success: abc";
        Printed (GREEN +:+ "Success: abc" +:+ nl +:+ RESET)]).
Proof.
  destruct (show_downloads_forwards
    (Leecher.mk "tok" "127.0.0.1" 6000 (ClientSocket.mk "127.0.0.1" 5000 3)
       {[ ("friends", "movie.mkv") ]} ∅ ∅ ["12 Success: abc"; "later"] [])
    "show_downloads" [] eq_refl) as [_ H].
  apply (H "Success: abc" ["later"]).
  - reflexivity.
  - reflexivity.
  - vm_compute. discriminate.
Defined.

(** ** The piece hashes of a file *)

Lemma piece_count_step s : 0 < s -> piece_count s = 1 + piece_count (Z.max 0 (s - 1024)).
Proof.
  unfold piece_count, PIECE_SIZE. intros Hs.
  destruct (Z.max_spec 0 (s - 1024)) as [[? ->]|[? ->]]; Z.div_mod_to_equations; lia.
Qed.

Lemma piece_count_nonneg s : 0 <= s -> 0 <= piece_count s.
Proof. unfold piece_count, PIECE_SIZE. intros Hs. Z.div_mod_to_equations. lia. Qed.

Lemma chunks_step (s : string) :
  empty s = false ->
  Z.to_nat (piece_count (size s))
  = S (Z.to_nat (piece_count (size (drop piece_bytes s)))).
Proof.
  intros Hne. rewrite empty_size in Hne. apply Z.eqb_neq in Hne.
  pose proof (size_nonneg s) as Hs.
  rewrite piece_count_step by lia.
  assert (Hdrop : size (drop piece_bytes s) = Z.max 0 (size s - 1024)).
  { unfold size. rewrite length_drop. unfold piece_bytes, PIECE_SIZE. lia. }
  rewrite Hdrop. pose proof (piece_count_nonneg (Z.max 0 (size s - 1024))). lia.
Qed.

Lemma substring_next i s :
  substring (S i * 1024) 1024 s = substring (i * 1024) 1024 (drop piece_bytes s).
Proof.
  rewrite !substring_take_drop, drop_drop.
  f_equal; f_equal; unfold piece_bytes, PIECE_SIZE; lia.
Qed.

(** The read loop absorbs the whole file into the first context and leaves
    one context per block of [PIECE_SIZE] bytes, in file order. *)
Lemma read_loop_spec rest ctx temp :
  Utils.read_loop rest ctx temp
  = (ctx +:+ rest,
     temp ++ map (fun i => substring (i * 1024) 1024 rest)
               (seq 0 (Z.to_nat (piece_count (size rest))))).
Proof.
  funelim (Utils.read_loop rest ctx temp).
  - rewrite sapp_nil_r. cbn [seq map]. rewrite app_nil_r. reflexivity.
  - match goal with IH : Utils.read_loop _ _ _ = (_, _) |- _ => rewrite IH end.
    unfold Utils.SHA256_Update, Utils.SHA256_Init.
    rewrite sapp_assoc, take_drop, sapp_nil_l.
    rewrite (chunks_step (String c r)) by reflexivity.
    cbn [seq map]. rewrite <- seq_shift, map_map, <- app_assoc. cbn [app].
    f_equal. f_equal. f_equal.
    + rewrite substring_take_drop. reflexivity.
    + apply map_ext. intros i. symmetry. apply substring_next.
Qed.

Lemma size_chunk content i :
  size (substring (i * 1024) 1024 content)
  = Z.min 1024 (Z.max 0 (size content - 1024 * Z.of_nat i)).
Proof.
  rewrite substring_take_drop. unfold size. rewrite length_take, length_drop. lia.
Qed.

Section FindSHA.

Variable SHA256 : string -> string.

(** C3 - For a non-empty file of [s] bytes, [findSHA] returns
    [1 + ceil (s / 1024)] hex hashes: the hash of the whole file, then the
    hashes of the consecutive blocks of 1024 bytes.  Every block but the
    last has 1024 bytes and the last has [s - 1024 * (P - 1)] bytes,
    between 1 and 1024: one block of 1 byte for a file of 1 byte, a last
    block of 1024 bytes when [s] is a multiple of 1024. *)
Theorem findSHA_hashes (disk : gmap string string) (strerror filePath content : string) :
  disk !! filePath = Some content ->
  0 < size content ->
  let s := size content in
  let P := piece_count s in
  let chunk := fun i : nat => substring (i * 1024) 1024 content in
  exists hashes,
    Utils.findSHA SHA256 disk strerror filePath = Returned hashes /\
    Z.of_nat (length hashes) = 1 + P /\
    hashes = Utils.hex_hash (SHA256 content)
             :: map (fun i => Utils.hex_hash (SHA256 (chunk i))) (seq 0 (Z.to_nat P)) /\
    (forall i : nat, Z.of_nat i < P - 1 -> size (chunk i) = 1024) /\
    size (chunk (Z.to_nat (P - 1))) = s - 1024 * (P - 1) /\
    1 <= s - 1024 * (P - 1) <= 1024 /\
    (s = 1 -> P = 1 /\ size (chunk 0%nat) = 1) /\
    (s mod 1024 = 0 -> size (chunk (Z.to_nat (P - 1))) = 1024).
Proof.
  intros Hdisk Hpos s P chunk.
  assert (HP : 1024 * (P - 1) < s <= 1024 * P).
  { subst P s. unfold piece_count, PIECE_SIZE. Z.div_mod_to_equations. lia. }
  assert (Hlast : size (chunk (Z.to_nat (P - 1))) = s - 1024 * (P - 1)).
  { subst chunk. cbv beta. rewrite size_chunk. fold s. lia. }
  eexists. split; [|split; [|split; [reflexivity|]]].
  - unfold Utils.findSHA. rewrite Hdisk, read_loop_spec.
    unfold Utils.SHA256_Final, Utils.SHA256_Init. rewrite sapp_nil_l.
    cbn [app]. rewrite map_map. reflexivity.
  - cbn [length]. rewrite length_map, length_seq. fold s. lia.
  - split; [|split; [|split; [|split]]].
    + intros i Hi. subst chunk. cbv beta. rewrite size_chunk. fold s. lia.
    + exact Hlast.
    + lia.
    + intros Hs. assert (P = 1) as HP1 by lia. split; [exact HP1|].
      rewrite HP1 in Hlast. change (Z.to_nat (1 - 1)) with 0%nat in Hlast. lia.
    + intros Hmod. rewrite Hlast.
      revert Hmod. Z.div_mod_to_equations. lia.
Qed.

End FindSHA.

Lemma findSHA_hashes_witness :
  Utils.findSHA (fun data => data) {[ "/srv/a" := "x" ]} "" "/srv/a"
  = Returned ["78"; "78"].
Proof.
  destruct (findSHA_hashes (fun data => data) {[ "/srv/a" := "x" ]} "" "/srv/a" "x")
    as (hashes & Hcall & _ & Hlist & _).
  - reflexivity.
  - reflexivity.
  - rewrite Hcall, Hlist. reflexivity.
Defined.

(** ** The logger *)

(** C10 - logging an empty [content]: the test [content.empty() || ...]
    is true on the empty string, so [pop_back] is called on it, outside its
    precondition.  The call has no defined result. *)
Theorem log_empty_content (logger : Logger.t) (time : string)
    (disk : gmap string string) (type : string) :
  Logger.log logger time disk type "" = Undefined.
Proof. reflexivity. Qed.

Lemma back_removelast s : empty s = false ->
  exists c, Logger.back s = Some c /\ s = Logger.removelast s +:+ String c "".
Proof.
  induction s as [|c s IH]; [discriminate|]. intros _.
  destruct s as [|d s].
  - exists c. split; reflexivity.
  - destruct (IH eq_refl) as (x & Hback & Hs). exists x. split; [exact Hback|].
    change (Logger.removelast (String c (String d s)))
      with (String c (Logger.removelast (String d s))).
    rewrite sapp_cons, <- Hs. reflexivity.
Qed.

(** On a non-empty [content] the call is defined, and the text written is
    [content] without its final newline, if it has one. *)
Lemma trim_nonempty content :
  empty content = false ->
  (forall s, content = s +:+ nl -> Logger.trim content = Returned s) /\
  (Logger.back content <> Some "010"%char -> Logger.trim content = Returned content).
Proof.
  intros Hne. unfold Logger.trim, Logger.pop_back. rewrite Hne. cbn [orb].
  destruct (back_removelast content Hne) as (c & Hback & Hs). split.
  - intros s Hcontent.
    assert (Hc : Logger.removelast content = s /\ c = "010"%char).
    { rewrite Hs in Hcontent. clear -Hcontent. unfold nl in Hcontent.
      revert s Hcontent. generalize (Logger.removelast content) as t.
      induction t as [|a t IH]; intros [|b s] Heq.
      - rewrite !sapp_nil_l in Heq. injection Heq as ->. split; reflexivity.
      - rewrite sapp_nil_l, sapp_cons in Heq. injection Heq as _ Heq.
        destruct s; discriminate Heq.
      - rewrite sapp_nil_l, sapp_cons in Heq. injection Heq as _ Heq.
        destruct t; discriminate Heq.
      - rewrite !sapp_cons in Heq. injection Heq as -> Heq.
        destruct (IH s Heq) as [-> ->]. split; reflexivity. }
    destruct Hc as [Hr ->]. rewrite Hback, bool_decide_eq_true_2 by reflexivity.
    rewrite Hr. reflexivity.
  - intros Hlast. rewrite bool_decide_eq_false_2 by assumption. reflexivity.
Qed.

(** * Further properties of the code *)

(** ** The tokenizer: what it returns and how it composes *)

Lemma tokenize_loop_words buffer sep temp :
  all_chars (is_not sep) temp = true ->
  Forall (word sep) (Utils.tokenize_loop buffer sep [] temp).
Proof.
  revert temp. induction buffer as [|c buffer IH]; intros temp Htemp;
    cbn [Utils.tokenize_loop].
  - destruct (empty temp) eqn:He; constructor; [split; assumption|constructor].
  - destruct (Ascii.eqb c sep) eqn:Hc.
    + rewrite tokenize_loop_ans. apply Forall_app. split; [|apply IH; reflexivity].
      destruct (empty temp) eqn:He; constructor; [split; assumption|constructor].
    + apply IH. unfold push_back. rewrite all_chars_sapp, Htemp. cbn [all_chars].
      unfold is_not. rewrite Hc. reflexivity.
Qed.

Lemma tokenize_loop_split a b sep temp :
  Utils.tokenize_loop (a +:+ String sep b) sep [] temp
  = Utils.tokenize_loop a sep [] temp ++ Utils.tokenize_loop b sep [] "".
Proof.
  revert temp. induction a as [|c a IH]; intros temp.
  - rewrite sapp_nil_l. cbn [Utils.tokenize_loop]. rewrite Ascii.eqb_refl.
    apply tokenize_loop_ans.
  - rewrite sapp_cons. cbn [Utils.tokenize_loop]. destruct (Ascii.eqb c sep).
    + set (ans := if empty temp then [] else [] ++ [temp]).
      rewrite (tokenize_loop_ans _ sep ans), IH, (tokenize_loop_ans a sep ans).
      apply app_assoc.
    + apply IH.
Qed.

Lemma tokenize_join_words sep words :
  Forall (word sep) words -> Utils.tokenize (join sep words) sep = words.
Proof.
  induction words as [|w words IH]; intros Hwords; [reflexivity|].
  apply Forall_cons in Hwords as [[Hne Hall] Hwords].
  destruct words as [|w' words].
  - cbn [join]. apply tokenize_last; assumption.
  - change (join sep (w :: w' :: words))
      with (w +:+ String sep (join sep (w' :: words))).
    rewrite tokenize_first by assumption. rewrite IH by assumption. reflexivity.
Qed.

(** X1 - [Utils::tokenize] never returns an empty token and never a token
    that holds the separator, whatever the buffer. *)
Theorem tokenize_words (buffer : string) (separator : ascii) :
  Forall (word separator) (Utils.tokenize buffer separator).
Proof. apply tokenize_loop_words. reflexivity. Qed.

(** X2 - Tokenizing is the inverse of joining: words that are not empty and
    hold no separator, joined with one separator between neighbours, are
    tokenized back to the same list; and the tokens of any buffer, joined,
    tokenize to themselves. *)
Theorem tokenize_join (separator : ascii) (words : list string) (buffer : string) :
  Forall (word separator) words ->
  Utils.tokenize (join separator words) separator = words /\
  Utils.tokenize (join separator (Utils.tokenize buffer separator)) separator
  = Utils.tokenize buffer separator.
Proof.
  intros Hwords. split; [apply tokenize_join_words, Hwords|].
  apply tokenize_join_words, tokenize_loop_words. reflexivity.
Qed.

Lemma tokenize_join_witness :
  Utils.tokenize (join " " ["give_piece"; "movie.mkv"; "friends"; "3"]) " "
  = ["give_piece"; "movie.mkv"; "friends"; "3"].
Proof.
  apply (tokenize_join " " ["give_piece"; "movie.mkv"; "friends"; "3"] "").
  repeat constructor.
Defined.

(** X3 - A separator splits the work: the tokens of [a], a separator, [b]
    are the tokens of [a] followed by the tokens of [b].  So separators at
    the start, at the end or in a row add no token. *)
Theorem tokenize_split (a b : string) (separator : ascii) :
  Utils.tokenize (a +:+ String separator b) separator
  = Utils.tokenize a separator ++ Utils.tokenize b separator /\
  Utils.tokenize (String separator b) separator = Utils.tokenize b separator /\
  Utils.tokenize (a +:+ String separator "") separator = Utils.tokenize a separator.
Proof.
  unfold Utils.tokenize. split; [apply tokenize_loop_split|]. split.
  - apply (tokenize_loop_split "" b).
  - rewrite tokenize_loop_split. apply app_nil_r.
Qed.

(** ** The piece-list parser of [test.cpp] *)

Lemma test_tokenize_loop buffer sep ans temp :
  Test.tokenize_loop buffer sep ans temp
  = (ns ← convert_all (Utils.tokenize_loop buffer sep [] temp); mret (ans ++ ns)).
Proof.
  revert ans temp. induction buffer as [|c buffer IH]; intros ans temp;
    cbn [Test.tokenize_loop Utils.tokenize_loop].
  - destruct (empty temp); cbn [convert_all app].
    + cbn. rewrite app_nil_r. reflexivity.
    + destruct (stoi temp); reflexivity.
  - destruct (Ascii.eqb c sep); [|apply IH].
    rewrite tokenize_loop_ans. destruct (empty temp); cbn [app convert_all].
    + cbn [mbind outcome_bind mret outcome_ret]. apply IH.
    + destruct (stoi temp) as [n| | | |]; try reflexivity.
      cbn [mbind outcome_bind mret outcome_ret]. rewrite IH.
      destruct (convert_all _); try reflexivity.
      cbn [mbind outcome_bind mret outcome_ret]. rewrite <- app_assoc. reflexivity.
Qed.

Lemma convert_all_to_string pieces :
  Forall (fun n => in_int n = true) pieces ->
  convert_all (map to_string pieces) = Returned pieces.
Proof.
  induction 1 as [|n pieces Hn _ IH]; [reflexivity|].
  cbn [map convert_all]. rewrite stoi_to_string, IH by assumption. reflexivity.
Qed.

(** X4 - The tokenizer of [test.cpp] is [Utils::tokenize] followed by
    [stoi] on each token, in order; applied to the piece listing that
    [Files::giveAvailablePieces] builds from a list of [int]s, it returns
    that list. *)
Theorem test_tokenize_reads_listing (files : Files.t) (filePath : string)
    (pieces : list Z) (buffer : string) (separator : ascii) :
  Files.m_filePathToAvailablePieces files !! filePath = Some pieces ->
  Forall (fun n => in_int n = true) pieces ->
  Test.tokenize buffer separator
    = convert_all (Utils.tokenize buffer separator) /\
  Test.tokenize (Files.giveAvailablePieces filePath files) " " = Returned pieces.
Proof.
  intros Hpieces Hint.
  assert (Hgen : forall b sep,
    Test.tokenize b sep = convert_all (Utils.tokenize b sep)).
  { intros b sep. unfold Test.tokenize, Utils.tokenize. rewrite test_tokenize_loop.
    destruct (convert_all _); reflexivity. }
  split; [apply Hgen|].
  rewrite Hgen. unfold Files.giveAvailablePieces. rewrite Hpieces.
  rewrite tokenize_append_pieces. apply convert_all_to_string, Hint.
Qed.

Lemma test_tokenize_reads_listing_witness :
  Test.tokenize
    (Files.giveAvailablePieces "/srv/movie.mkv"
       (Files.mk ∅ {[ "/srv/movie.mkv" := [9; 10; 4] ]})) " "
  = Returned [9; 10; 4].
Proof.
  apply (test_tokenize_reads_listing
           (Files.mk ∅ {[ "/srv/movie.mkv" := [9; 10; 4] ]})
           "/srv/movie.mkv" [9; 10; 4] "" " ").
  - reflexivity.
  - repeat constructor.
Defined.

(** ** The registry: what is written is what is read *)

(** X5 - [giveFilePath] returns the path last given to [addFilepath] for
    the same (file, group): a second registration replaces the first; the
    other entries and the piece lists are untouched; a pair that was never
    registered reads as the empty string. *)
Theorem addFilepath_giveFilePath (files : Files.t)
    (fileName groupName filePath filePath' : string) :
  let files' := Files.addFilepath fileName groupName filePath files in
  Files.giveFilePath fileName groupName files' = filePath /\
  (forall f g, (f, g) <> (fileName, groupName) ->
     Files.giveFilePath f g files' = Files.giveFilePath f g files) /\
  Files.m_filePathToAvailablePieces files' = Files.m_filePathToAvailablePieces files /\
  Files.addFilepath fileName groupName filePath' files'
    = Files.addFilepath fileName groupName filePath' files /\
  (Files.m_fileNameToFilePath files !! (fileName, groupName) = None ->
   Files.giveFilePath fileName groupName files = "").
Proof.
  cbv zeta. unfold Files.giveFilePath, Files.addFilepath.
  cbn [Files.m_fileNameToFilePath Files.m_filePathToAvailablePieces].
  split; [rewrite lookup_insert_eq; reflexivity|].
  split; [intros f g Hne; rewrite lookup_insert_ne by congruence; reflexivity|].
  split; [reflexivity|]. split.
  - rewrite insert_insert_eq. reflexivity.
  - intros ->. reflexivity.
Qed.

Lemma addFilepath_giveFilePath_witness :
  Files.giveFilePath "a.txt" "friends"
    (Files.addFilepath "a.txt" "friends" "/home/u/a.txt" (Files.mk ∅ ∅))
  = "/home/u/a.txt" /\
  Files.giveFilePath "b.txt" "friends"
    (Files.addFilepath "a.txt" "friends" "/home/u/a.txt" (Files.mk ∅ ∅))
  = Files.giveFilePath "b.txt" "friends" (Files.mk ∅ ∅) /\
  Files.giveFilePath "a.txt" "friends" (Files.mk ∅ ∅) = "".
Proof.
  destruct (addFilepath_giveFilePath (Files.mk ∅ ∅) "a.txt" "friends"
              "/home/u/a.txt" "/home/u/b.txt") as (Hread & Hother & _ & _ & Hfresh).
  split; [exact Hread|]. split.
  - apply Hother. discriminate.
  - apply Hfresh. apply lookup_empty.
Defined.

Lemma isPieceAvailable_spec files filePath n :
  Files.isPieceAvailable filePath n files = true <-> n ∈ pieces_of files filePath.
Proof.
  unfold Files.isPieceAvailable, pieces_of.
  destruct (Files.m_filePathToAvailablePieces files !! filePath) as [pieces|];
    cbn [default].
  - apply find_spec.
  - split; [discriminate|]. intros H. inversion H.
Qed.

(** X6 - [isPieceAvailable] after [addPieceToFilepath path n]: the piece
    just added is available for [path], and every other question is
    answered as before the call. *)
Theorem addPieceToFilepath_isPieceAvailable (files : Files.t)
    (filePath filePath' : string) (n n' : Z) :
  Files.isPieceAvailable filePath' n' (Files.addPieceToFilepath filePath n files)
  = Files.isPieceAvailable filePath' n' files
    || (bool_decide (filePath = filePath') && (n' =? n)).
Proof.
  apply eq_true_iff_eq. rewrite orb_true_iff, andb_true_iff.
  rewrite !isPieceAvailable_spec, bool_decide_eq_true, Z.eqb_eq.
  rewrite pieces_of_addPieceToFilepath.
  destruct (decide (filePath = filePath')) as [Heq|Hne].
  - rewrite elem_of_app, list_elem_of_singleton. tauto.
  - tauto.
Qed.

Lemma to_string_inj n m :
  in_int n = true -> in_int m = true -> to_string n = to_string m -> n = m.
Proof.
  intros Hn Hm Heq. apply (f_equal stoi) in Heq.
  rewrite !stoi_to_string in Heq by assumption. congruence.
Qed.

(** X7 - The two views of a piece list agree: for a path with a list of
    [int]s, piece [n] is reported by [isPieceAvailable] exactly when its
    decimal rendering is one of the tokens of [giveAvailablePieces]. *)
Theorem isPieceAvailable_giveAvailablePieces (files : Files.t) (filePath : string)
    (pieces : list Z) (n : Z) :
  Files.m_filePathToAvailablePieces files !! filePath = Some pieces ->
  Forall (fun k => in_int k = true) pieces ->
  in_int n = true ->
  Files.isPieceAvailable filePath n files = true
  <-> to_string n ∈ Utils.tokenize (Files.giveAvailablePieces filePath files) " ".
Proof.
  intros Hpieces Hint Hn.
  unfold Files.isPieceAvailable, Files.giveAvailablePieces. rewrite Hpieces.
  rewrite tokenize_append_pieces, find_spec. split.
  - intros Hin. apply list_elem_of_fmap_2 with (f := to_string) in Hin. exact Hin.
  - intros Hin. apply list_elem_of_fmap in Hin as (k & Heq & Hk).
    rewrite Forall_forall in Hint.
    rewrite (to_string_inj n k Hn (Hint k Hk) Heq). exact Hk.
Qed.

Lemma isPieceAvailable_giveAvailablePieces_witness :
  Files.isPieceAvailable "/srv/movie.mkv" 10
    (Files.mk ∅ {[ "/srv/movie.mkv" := [9; 10; 4] ]}) = true
  <-> "10" ∈ Utils.tokenize
               (Files.giveAvailablePieces "/srv/movie.mkv"
                  (Files.mk ∅ {[ "/srv/movie.mkv" := [9; 10; 4] ]})) " ".
Proof.
  apply (isPieceAvailable_giveAvailablePieces
           (Files.mk ∅ {[ "/srv/movie.mkv" := [9; 10; 4] ]})
           "/srv/movie.mkv" [9; 10; 4] 10).
  - reflexivity.
  - repeat constructor.
  - reflexivity.
Defined.

(** ** The seeder: malformed requests and failures of the disk *)

(** X8 - A request whose first word is neither [give_piece_info] nor
    [give_piece] (a request made of spaces only included) makes
    [executeCommand] throw "Invalid command!!", with the registry and the
    log untouched.  When such a request is not empty and has been received,
    the turn of [handleLeecher] logs it, sends the one frame
    "24 Error: Invalid command!!" and goes on with the loop.  (An empty
    message is taken for a closed connection and never reaches
    [executeCommand] from [handleLeecher].) *)
Theorem executeCommand_unknown (disk : gmap string string) (command : string)
    (leecherSocketFd : Z) (s : Seeder.t) (inbound rest : list string) :
  hd "" (Utils.tokenize command " ") <> "give_piece_info" ->
  hd "" (Utils.tokenize command " ") <> "give_piece" ->
  Seeder.executeCommand disk command leecherSocketFd s
    = (Thrown "Invalid command!!", s) /\
  (empty command = false ->
   ServerSocket.recvSocket (Seeder.m_seederSocket s) leecherSocketFd inbound
     = (Returned command, rest) ->
   Seeder.handleLeecher_turn disk leecherSocketFd inbound s
   = (Returned (true, rest),
      Seeder.mk (Seeder.files s) (Seeder.m_seederSocket s)
        (Seeder.trace s ++
           [Logged "COMMAND"
              ("LeecherSocket = " +:+ to_string leecherSocketFd +:+
               " | Recieved from leecher : " +:+ command);
            Sent "24 Error: Invalid command!!"]))).
Proof.
  intros Hinfo Hpiece.
  assert (Hexec : forall s0, Seeder.executeCommand disk command leecherSocketFd s0
                  = (Thrown "Invalid command!!", s0)).
  { intros s0. unfold Seeder.executeCommand. destruct (empty command); [reflexivity|].
    destruct (Utils.tokenize command " ") as [|tokens0 args]; [reflexivity|].
    cbn [hd] in Hinfo, Hpiece.
    apply String.eqb_neq in Hinfo, Hpiece. rewrite Hinfo, Hpiece. reflexivity. }
  split; [apply Hexec|]. intros Hne Hrecv.
  destruct s as [F sock tr]. cbn [Seeder.files Seeder.m_seederSocket Seeder.trace] in *.
  assert (Hfd : (ServerSocket.m_socketFd sock =? -1) = false).
  { unfold ServerSocket.recvSocket in Hrecv.
    destruct (ServerSocket.m_socketFd sock =? -1); [discriminate|reflexivity]. }
  unfold Seeder.handleLeecher_turn. run_prog. cbn [Seeder.m_seederSocket].
  rewrite Hrecv. run_prog. rewrite Hne. run_prog.
  cbn [Seeder.files Seeder.m_seederSocket Seeder.trace].
  unfold Seeder.response. run_prog. rewrite Hexec.
  unfold ServerSocket.sendSocket. rewrite Hfd. run_prog.
  cbn [Seeder.files Seeder.m_seederSocket Seeder.trace].
  rewrite <- !app_assoc. reflexivity.
Qed.

Lemma executeCommand_unknown_witness :
  Seeder.handleLeecher_turn ∅ 7 ["18 list_files friends"; "later"]
    (Seeder.mk (Files.mk ∅ ∅) (ServerSocket.mk "127.0.0.1" 5001 4) [])
  = (Returned (true, ["later"]),
     Seeder.mk (Files.mk ∅ ∅) (ServerSocket.mk "127.0.0.1" 5001 4)
       [Logged "COMMAND" "LeecherSocket = 7 | Recieved from leecher : list_files friends";
        Sent "24 Error: Invalid command!!"]).
Proof.
  destruct (executeCommand_unknown ∅ "list_files friends" 7
              (Seeder.mk (Files.mk ∅ ∅) (ServerSocket.mk "127.0.0.1" 5001 4) [])
              ["18 list_files friends"; "later"] ["later"]) as [_ Hturn].
  - vm_compute. discriminate.
  - vm_compute. discriminate.
  - apply Hturn; reflexivity.
Defined.

(** X9 - A [give_piece_info] request that does not have exactly two
    arguments, and a [give_piece] request that does not have exactly
    three, are refused with their "Invalid arguments" message before any
    lookup or conversion: the state is unchanged, whatever the arguments
    are. *)
Theorem executeCommand_wrong_arity (disk : gmap string string) (command : string)
    (leecherSocketFd : Z) (s : Seeder.t) (args : list string) :
  (Utils.tokenize command " " = "give_piece_info" :: args ->
   length args <> 2%nat ->
   Seeder.executeCommand disk command leecherSocketFd s
     = (Thrown "Invalid arguments to give_piece_info command!!", s)) /\
  (Utils.tokenize command " " = "give_piece" :: args ->
   length args <> 3%nat ->
   Seeder.executeCommand disk command leecherSocketFd s
     = (Thrown "Invalid arguments to give_piece command!!", s)).
Proof.
  split; intros Htok Hlen; unfold Seeder.executeCommand;
    rewrite (tokenize_nonempty _ _ _ Htok), Htok;
    cbn [String.eqb Ascii.eqb Bool.eqb].
  - destruct args as [|a [|b [|c args]]]; try reflexivity. cbn in Hlen. lia.
  - destruct args as [|a [|b [|c [|d args]]]]; try reflexivity. cbn in Hlen. lia.
Qed.

Lemma executeCommand_wrong_arity_witness :
  Seeder.executeCommand ∅ "give_piece movie.mkv friends" 7
    (Seeder.mk (Files.mk ∅ ∅) (ServerSocket.mk "127.0.0.1" 5001 4) [])
  = (Thrown "Invalid arguments to give_piece command!!",
     Seeder.mk (Files.mk ∅ ∅) (ServerSocket.mk "127.0.0.1" 5001 4) []).
Proof.
  apply (executeCommand_wrong_arity ∅ "give_piece movie.mkv friends" 7
           (Seeder.mk (Files.mk ∅ ∅) (ServerSocket.mk "127.0.0.1" 5001 4) [])
           ["movie.mkv"; "friends"]).
  - reflexivity.
  - cbn. lia.
Defined.

(** X10 - [give_piece] for a piece the peer holds fails on the disk in two
    ways: when the recorded path cannot be opened the error is "Failed to
    open file at Seeder!!", and when the piece number is negative (its
    offset still an [int]) the seek fails with "Failed to Seek at
    seeder!!".  Neither changes the state. *)
Theorem give_piece_disk_errors (disk : gmap string string) (command : string)
    (leecherSocketFd : Z) (s : Seeder.t) (F G tokens3 filePath : string)
    (pieces : list Z) (N : Z) :
  Utils.tokenize command " " = ["give_piece"; F; G; tokens3] ->
  stoi tokens3 = Returned N ->
  Files.m_fileNameToFilePath (Seeder.files s) !! (F, G) = Some filePath ->
  Files.m_filePathToAvailablePieces (Seeder.files s) !! filePath = Some pieces ->
  N ∈ pieces ->
  (disk !! filePath = None ->
   Seeder.executeCommand disk command leecherSocketFd s
     = (Thrown "Failed to open file at Seeder!!", s)) /\
  (forall content, disk !! filePath = Some content ->
   INT_MIN <= N * 1024 < 0 ->
   Seeder.executeCommand disk command leecherSocketFd s
     = (Thrown "Failed to Seek at seeder!!", s)).
Proof.
  intros Htok Hstoi H1 H2 Hin. apply find_spec in Hin.
  rewrite (executeCommand_give_piece _ _ _ _ _ _ Htok). run_prog.
  rewrite Hstoi. unfold Seeder.give_piece. run_prog. rewrite H1, H2, Hin. cbn [negb].
  split.
  - intros ->. reflexivity.
  - intros content -> Hneg. unfold int_arith.
    rewrite in_int_true by (unfold INT_MIN, INT_MAX, PIECE_SIZE in *; lia).
    destruct (PIECE_SIZE * N <? 0) eqn:Hlt; [reflexivity|].
    apply Z.ltb_ge in Hlt. unfold PIECE_SIZE in Hlt. lia.
Qed.

Lemma give_piece_disk_errors_witness :
  Seeder.executeCommand ∅ "give_piece movie.mkv friends 2" 7
    (Seeder.mk (Files.mk {[ ("movie.mkv", "friends") := "/srv/movie.mkv" ]}
                         {[ "/srv/movie.mkv" := [2; 0; 1] ]})
               (ServerSocket.mk "127.0.0.1" 5001 4) [])
  = (Thrown "Failed to open file at Seeder!!",
     Seeder.mk (Files.mk {[ ("movie.mkv", "friends") := "/srv/movie.mkv" ]}
                         {[ "/srv/movie.mkv" := [2; 0; 1] ]})
               (ServerSocket.mk "127.0.0.1" 5001 4) []).
Proof.
  destruct (give_piece_disk_errors ∅ "give_piece movie.mkv friends 2" 7
    (Seeder.mk (Files.mk {[ ("movie.mkv", "friends") := "/srv/movie.mkv" ]}
                         {[ "/srv/movie.mkv" := [2; 0; 1] ]})
               (ServerSocket.mk "127.0.0.1" 5001 4) [])
    "movie.mkv" "friends" "2" "/srv/movie.mkv" [2; 0; 1] 2) as [H _].
  - reflexivity.
  - reflexivity.
  - reflexivity.
  - reflexivity.
  - apply find_spec. reflexivity.
  - apply H. reflexivity.
Defined.

(** ** One turn of the seeder's loop *)

Ltac trace_leaf :=
  cbn [fst snd Seeder.files Seeder.trace Seeder.m_seederSocket app];
  rewrite ?app_nil_r; reflexivity.

(** The events already in the trace play no part in a command: run from
    an empty trace, it gives the same outcome, registry and new events. *)
Lemma executeCommand_trace disk command fd F sock tr :
  Seeder.executeCommand disk command fd (Seeder.mk F sock tr)
  = (fst (Seeder.executeCommand disk command fd (Seeder.mk F sock [])),
     Seeder.mk
       (Seeder.files (snd (Seeder.executeCommand disk command fd (Seeder.mk F sock []))))
       sock
       (tr ++ Seeder.trace
                (snd (Seeder.executeCommand disk command fd (Seeder.mk F sock []))))).
Proof.
  unfold Seeder.executeCommand.
  destruct (empty command); [trace_leaf|].
  destruct (Utils.tokenize command " ") as [|tokens0 args]; [trace_leaf|].
  destruct (String.eqb tokens0 "give_piece_info").
  { destruct args as [|fileName [|groupName [|? ?]]]; try trace_leaf.
    unfold Seeder.give_piece_info. run_prog. cbn [Seeder.files].
    destruct (Files.m_fileNameToFilePath F !! (fileName, groupName)) as [filePath|];
      [|trace_leaf].
    destruct (Files.m_filePathToAvailablePieces F !! filePath); trace_leaf. }
  destruct (String.eqb tokens0 "give_piece"); [|trace_leaf].
  destruct args as [|fileName [|groupName [|tokens3 [|? ?]]]]; try trace_leaf.
  run_prog. destruct (stoi tokens3) as [n| | | |]; try trace_leaf.
  unfold Seeder.give_piece. run_prog. cbn [Seeder.files].
  destruct (Files.m_fileNameToFilePath F !! (fileName, groupName)) as [filePath|];
    [|trace_leaf].
  destruct (Files.m_filePathToAvailablePieces F !! filePath) as [pieces|];
    [|trace_leaf].
  destruct (negb (Files.find pieces n)); [trace_leaf|].
  destruct (disk !! filePath); [|trace_leaf].
  destruct (int_arith (PIECE_SIZE * n)) as [off| | | |]; try trace_leaf.
  destruct (off <? 0); trace_leaf.
Qed.

Lemma response_trace disk command fd F sock tr :
  Seeder.response disk command fd (Seeder.mk F sock tr)
  = (fst (Seeder.response disk command fd (Seeder.mk F sock [])),
     Seeder.mk
       (Seeder.files (snd (Seeder.response disk command fd (Seeder.mk F sock []))))
       sock
       (tr ++ Seeder.trace
                (snd (Seeder.response disk command fd (Seeder.mk F sock []))))).
Proof.
  unfold Seeder.response. run_prog. rewrite executeCommand_trace.
  destruct (Seeder.executeCommand disk command fd (Seeder.mk F sock []))
    as [[r|e|e|code|] s0]; reflexivity.
Qed.

Lemma response_prefix disk command fd s resp s' :
  Seeder.response disk command fd s = (Returned resp, s') ->
  (exists payload, resp = "Success: " +:+ payload) \/
  (exists e, resp = "Error: " +:+ e).
Proof.
  unfold Seeder.response. run_prog.
  destruct (Seeder.executeCommand disk command fd s) as [[r|e|e|code|] s0];
    intros H; inversion H; eauto.
Qed.

Lemma recvSocket_returned_fd sock fd inbound data rest :
  ServerSocket.recvSocket sock fd inbound = (Returned data, rest) ->
  (ServerSocket.m_socketFd sock =? -1) = false.
Proof.
  unfold ServerSocket.recvSocket. destruct (ServerSocket.m_socketFd sock =? -1);
    [discriminate|reflexivity].
Qed.

(** X11 - One request, one reply.  When a non-empty request has arrived
    and its command returns or throws a string, the turn of
    [handleLeecher] logs the request, runs the command, writes exactly one
    frame, the decimal length, a space and "Success: " with the payload or
    "Error: " with the message, and goes on with the loop; a leecher that
    receives this frame in one block reads the reply back with
    [ClientSocket::recvSocket]. *)
Theorem handleLeecher_turn_replies (disk : gmap string string) (leecherSocketFd : Z)
    (inbound rest : list string) (command resp : string) (s s' : Seeder.t) :
  ServerSocket.recvSocket (Seeder.m_seederSocket s) leecherSocketFd inbound
    = (Returned command, rest) ->
  empty command = false ->
  Seeder.response disk command leecherSocketFd s = (Returned resp, s') ->
  ((exists payload, resp = "Success: " +:+ payload) \/
   (exists e, resp = "Error: " +:+ e)) /\
  (exists events,
     Seeder.trace s' = Seeder.trace s ++ events /\
     Seeder.handleLeecher_turn disk leecherSocketFd inbound s
     = (Returned (true, rest),
        Seeder.mk (Seeder.files s') (Seeder.m_seederSocket s)
          (Seeder.trace s ++
             [Logged "COMMAND"
                ("LeecherSocket = " +:+ to_string leecherSocketFd +:+
                 " | Recieved from leecher : " +:+ command)] ++
             events ++ [Sent (to_string (size resp) +:+ " " +:+ resp)]))) /\
  (forall client after,
     ClientSocket.check client = Returned tt ->
     size (frame resp) <= RECV_BUFFER ->
     ClientSocket.recvSocket client (frame resp :: after) = (Returned resp, after)).
Proof.
  intros Hrecv Hne Hresp.
  split; [apply (response_prefix _ _ _ _ _ _ Hresp)|]. split.
  - destruct s as [F sock tr]. cbn [Seeder.m_seederSocket Seeder.trace] in *.
    pose proof (recvSocket_returned_fd _ _ _ _ _ Hrecv) as Hfd.
    rewrite response_trace in Hresp.
    destruct (Seeder.response disk command leecherSocketFd (Seeder.mk F sock []))
      as [o0 s0] eqn:H0.
    cbn [fst snd] in Hresp. injection Hresp as -> <-.
    exists (Seeder.trace s0). split; [reflexivity|].
    unfold Seeder.handleLeecher_turn. run_prog. cbn [Seeder.m_seederSocket].
    rewrite Hrecv. run_prog. rewrite Hne. run_prog.
    cbn [Seeder.files Seeder.m_seederSocket Seeder.trace].
    rewrite response_trace, H0. cbn [fst snd].
    unfold ServerSocket.sendSocket. rewrite Hfd. run_prog.
    cbn [Seeder.files Seeder.m_seederSocket Seeder.trace].
    rewrite <- !app_assoc. reflexivity.
  - intros client after Hcheck Hsize. apply recvSocket_one_block; assumption.
Qed.

Lemma handleLeecher_turn_replies_witness :
  Seeder.handleLeecher_turn {[ "/srv/notes.txt" := "hello world" ]} 7
    ["30 give_piece notes.txt friends 0"; "later"]
    (Seeder.mk (Files.mk {[ ("notes.txt", "friends") := "/srv/notes.txt" ]}
                         {[ "/srv/notes.txt" := [0] ]})
               (ServerSocket.mk "127.0.0.1" 5001 4) [])
  = (Returned (true, ["later"]),
     Seeder.mk (Files.mk {[ ("notes.txt", "friends") := "/srv/notes.txt" ]}
                         {[ "/srv/notes.txt" := [0] ]})
               (ServerSocket.mk "127.0.0.1" 5001 4)
       [Logged "COMMAND"
          "LeecherSocket = 7 | Recieved from leecher : give_piece notes.txt friends 0";
        Logged "INFO" "leecherSocket = 7 | Sending pieceData to leecher";
        Sent "20 Success: hello world"]).
Proof.
  destruct (handleLeecher_turn_replies {[ "/srv/notes.txt" := "hello world" ]} 7
    ["30 give_piece notes.txt friends 0"; "later"] ["later"]
    "give_piece notes.txt friends 0" "Success: hello world"
    (Seeder.mk (Files.mk {[ ("notes.txt", "friends") := "/srv/notes.txt" ]}
                         {[ "/srv/notes.txt" := [0] ]})
               (ServerSocket.mk "127.0.0.1" 5001 4) [])
    (Seeder.mk (Files.mk {[ ("notes.txt", "friends") := "/srv/notes.txt" ]}
                         {[ "/srv/notes.txt" := [0] ]})
               (ServerSocket.mk "127.0.0.1" 5001 4)
               [Logged "INFO" "leecherSocket = 7 | Sending pieceData to leecher"]))
    as (_ & (events & Hevents & Hturn) & _).
  - reflexivity.
  - reflexivity.
  - reflexivity.
  - cbn [Seeder.trace app] in Hevents. subst events. exact Hturn.
Defined.

(** X12 - A [give_piece] request whose piece number [stoi] rejects is not
    answered: the exception is not a string, so neither [catch] of
    [handleLeecher] sees it; the request is logged, nothing is written to
    the connection and the turn ends with the exception. *)
Theorem handleLeecher_turn_bad_number (disk : gmap string string)
    (leecherSocketFd : Z) (inbound rest : list string)
    (command F G tokens3 : string) (e : std_exception) (s : Seeder.t) :
  ServerSocket.recvSocket (Seeder.m_seederSocket s) leecherSocketFd inbound
    = (Returned command, rest) ->
  Utils.tokenize command " " = ["give_piece"; F; G; tokens3] ->
  stoi tokens3 = Uncaught e ->
  Seeder.response disk command leecherSocketFd s = (Uncaught e, s) /\
  Seeder.handleLeecher_turn disk leecherSocketFd inbound s
  = (Uncaught e,
     Seeder.mk (Seeder.files s) (Seeder.m_seederSocket s)
       (Seeder.trace s ++
          [Logged "COMMAND"
             ("LeecherSocket = " +:+ to_string leecherSocketFd +:+
              " | Recieved from leecher : " +:+ command)])).
Proof.
  intros Hrecv Htok Hstoi.
  assert (Hexec : forall s0,
    Seeder.executeCommand disk command leecherSocketFd s0 = (Uncaught e, s0)).
  { intros s0. rewrite (executeCommand_give_piece _ _ _ _ _ _ Htok). run_prog.
    rewrite Hstoi. reflexivity. }
  split.
  - unfold Seeder.response. run_prog. rewrite Hexec. reflexivity.
  - unfold Seeder.handleLeecher_turn. run_prog. rewrite Hrecv. run_prog.
    rewrite (tokenize_nonempty _ _ _ Htok). run_prog.
    unfold Seeder.response. run_prog. rewrite Hexec. reflexivity.
Qed.

Lemma handleLeecher_turn_bad_number_witness :
  Seeder.handleLeecher_turn ∅ 7 ["32 give_piece notes.txt friends one"]
    (Seeder.mk (Files.mk ∅ ∅) (ServerSocket.mk "127.0.0.1" 5001 4) [])
  = (Uncaught invalid_argument,
     Seeder.mk (Files.mk ∅ ∅) (ServerSocket.mk "127.0.0.1" 5001 4)
       [Logged "COMMAND"
          "LeecherSocket = 7 | Recieved from leecher : give_piece notes.txt friends one"]).
Proof.
  apply (handleLeecher_turn_bad_number ∅ 7 ["32 give_piece notes.txt friends one"] []
           "give_piece notes.txt friends one" "notes.txt" "friends" "one"
           invalid_argument
           (Seeder.mk (Files.mk ∅ ∅) (ServerSocket.mk "127.0.0.1" 5001 4) []));
    reflexivity.
Defined.

(** X13 - The loop of [handleLeecher] ends, without a reply, both when the
    leecher has closed the connection and when it sends an empty message:
    [ServerSocket::recvSocket] returns the empty string in the two cases. *)
Theorem handleLeecher_turn_stops (disk : gmap string string) (leecherSocketFd : Z)
    (rest : list string) (s : Seeder.t) :
  ServerSocket.m_socketFd (Seeder.m_seederSocket s) <> -1 ->
  let s' :=
    Seeder.mk (Seeder.files s) (Seeder.m_seederSocket s)
      (Seeder.trace s ++
         [Logged "INFO" ("LeecherSocket = " +:+ to_string leecherSocketFd +:+
                         " | Leecher closed the connection!!")]) in
  Seeder.handleLeecher_turn disk leecherSocketFd [] s = (Returned (false, []), s') /\
  Seeder.handleLeecher_turn disk leecherSocketFd (frame "" :: rest) s
    = (Returned (false, rest), s').
Proof.
  intros Hfd s'. apply Z.eqb_neq in Hfd.
  unfold Seeder.handleLeecher_turn, ServerSocket.recvSocket. run_prog.
  rewrite Hfd. split; reflexivity.
Qed.

Lemma handleLeecher_turn_stops_witness :
  Seeder.handleLeecher_turn ∅ 7 ["0 "; "later"]
    (Seeder.mk (Files.mk ∅ ∅) (ServerSocket.mk "127.0.0.1" 5001 4) [])
  = (Returned (false, ["later"]),
     Seeder.mk (Files.mk ∅ ∅) (ServerSocket.mk "127.0.0.1" 5001 4)
       [Logged "INFO" "LeecherSocket = 7 | Leecher closed the connection!!"]).
Proof.
  apply (handleLeecher_turn_stops ∅ 7 ["later"]
           (Seeder.mk (Files.mk ∅ ∅) (ServerSocket.mk "127.0.0.1" 5001 4) [])).
  vm_compute. discriminate.
Defined.

(** ** Hashes and pieces of one file *)

Lemma give_piece_returns disk command fd s F G tokens3 filePath content pieces N :
  Utils.tokenize command " " = ["give_piece"; F; G; tokens3] ->
  stoi tokens3 = Returned N ->
  Files.m_fileNameToFilePath (Seeder.files s) !! (F, G) = Some filePath ->
  Files.m_filePathToAvailablePieces (Seeder.files s) !! filePath = Some pieces ->
  N ∈ pieces ->
  disk !! filePath = Some content ->
  0 <= N -> N * 1024 <= INT_MAX ->
  fst (Seeder.executeCommand disk command fd s)
  = Returned (take piece_bytes (drop (Z.to_nat N * 1024) content)).
Proof.
  intros Htok Hstoi H1 H2 Hin Hdisk HN Hmax.
  rewrite (executeCommand_give_piece _ _ _ _ _ _ Htok). run_prog.
  rewrite Hstoi. unfold Seeder.give_piece. run_prog.
  rewrite H1, H2. apply find_spec in Hin. rewrite Hin. cbn [negb].
  rewrite Hdisk. unfold int_arith.
  rewrite in_int_true by (unfold INT_MIN, INT_MAX, PIECE_SIZE in *; lia).
  destruct (PIECE_SIZE * N <? 0) eqn:Hneg;
    [apply Z.ltb_lt in Hneg; unfold PIECE_SIZE in Hneg; lia|].
  cbn [fst]. do 3 f_equal. unfold PIECE_SIZE. lia.
Qed.

Lemma findSHA_list SHA256 disk strerror filePath content :
  disk !! filePath = Some content ->
  Utils.findSHA SHA256 disk strerror filePath
  = Returned (Utils.hex_hash (SHA256 content)
              :: map (fun i => Utils.hex_hash (SHA256 (substring (i * 1024) 1024 content)))
                   (seq 0 (Z.to_nat (piece_count (size content))))).
Proof.
  intros Hdisk. unfold Utils.findSHA. rewrite Hdisk, read_loop_spec.
  unfold Utils.SHA256_Final, Utils.SHA256_Init. rewrite sapp_nil_l.
  cbn [app]. rewrite map_map. reflexivity.
Qed.

Section PieceHashes.

Variable SHA256 : string -> string.

(** X14 - The hash list and the seeder agree.  For a file registered at
    the seeder and readable, and a piece number [N] below the piece count
    that the peer holds, the bytes [give_piece] returns for [N] hash, with
    [findPieceSHA], to the entry [1 + N] of the list [findSHA] computes for
    the file. *)
Theorem findSHA_matches_give_piece (disk : gmap string string)
    (strerror command : string) (leecherSocketFd : Z) (s : Seeder.t)
    (F G tokens3 filePath content : string) (pieces : list Z) (N : Z)
    (hashes : list string) :
  Utils.tokenize command " " = ["give_piece"; F; G; tokens3] ->
  stoi tokens3 = Returned N ->
  Files.m_fileNameToFilePath (Seeder.files s) !! (F, G) = Some filePath ->
  Files.m_filePathToAvailablePieces (Seeder.files s) !! filePath = Some pieces ->
  N ∈ pieces ->
  disk !! filePath = Some content ->
  size content <= INT_MAX ->
  0 <= N < piece_count (size content) ->
  Utils.findSHA SHA256 disk strerror filePath = Returned hashes ->
  exists pieceData,
    fst (Seeder.executeCommand disk command leecherSocketFd s) = Returned pieceData /\
    hashes !! Z.to_nat (1 + N) = Some (Utils.findPieceSHA SHA256 pieceData).
Proof.
  intros Htok Hstoi H1 H2 Hin Hdisk Hsize HN Hhashes.
  assert (HP : 1024 * (piece_count (size content) - 1) < size content).
  { unfold piece_count, PIECE_SIZE. pose proof (size_nonneg content).
    Z.div_mod_to_equations. lia. }
  eexists. split.
  - apply (give_piece_returns _ _ _ _ _ _ _ _ _ _ _ Htok Hstoi H1 H2 Hin Hdisk); lia.
  - rewrite (findSHA_list _ _ _ _ _ Hdisk) in Hhashes. injection Hhashes as <-.
    replace (Z.to_nat (1 + N)) with (S (Z.to_nat N)) by lia.
    match goal with
    | |- (?x :: map ?f ?l) !! S ?n = ?r => change ((f <$> l) !! n = r)
    end.
    rewrite list_lookup_fmap, lookup_seq_lt by lia. cbn [fmap option_fmap option_map].
    unfold Utils.findPieceSHA, Utils.SHA256_Final, Utils.SHA256_Update, Utils.SHA256_Init.
    rewrite sapp_nil_l, substring_take_drop. reflexivity.
Qed.

End PieceHashes.

Lemma findSHA_matches_give_piece_witness :
  exists pieceData,
    fst (Seeder.executeCommand {[ "/srv/notes.txt" := "hello world" ]}
           "give_piece notes.txt friends 0" 7
           (Seeder.mk (Files.mk {[ ("notes.txt", "friends") := "/srv/notes.txt" ]}
                                {[ "/srv/notes.txt" := [0] ]})
                      (ServerSocket.mk "127.0.0.1" 5001 4) [])) = Returned pieceData /\
    ["68656c6c6f20776f726c64"; "68656c6c6f20776f726c64"] !! Z.to_nat (1 + 0)
    = Some (Utils.findPieceSHA (fun data => data) pieceData).
Proof.
  apply (findSHA_matches_give_piece (fun data => data)
           {[ "/srv/notes.txt" := "hello world" ]} "" "give_piece notes.txt friends 0" 7
           (Seeder.mk (Files.mk {[ ("notes.txt", "friends") := "/srv/notes.txt" ]}
                                {[ "/srv/notes.txt" := [0] ]})
                      (ServerSocket.mk "127.0.0.1" 5001 4) [])
           "notes.txt" "friends" "0" "/srv/notes.txt" "hello world" [0] 0).
  - reflexivity.
  - reflexivity.
  - reflexivity.
  - reflexivity.
  - apply find_spec. reflexivity.
  - reflexivity.
  - vm_compute. discriminate.
  - vm_compute. split; [discriminate|reflexivity].
  - reflexivity.
Defined.

Lemma stream_chunks k content :
  (String.length content <= k * 1024)%nat ->
  stream (map (fun i => substring (i * 1024) 1024 content) (seq 0 k)) = content.
Proof.
  revert content. induction k as [|k IH]; intros content Hlen.
  - destruct content; [reflexivity|cbn in Hlen; lia].
  - cbn [seq map stream]. rewrite <- seq_shift, map_map.
    rewrite (map_ext _ (fun i => substring (i * 1024) 1024 (drop piece_bytes content)))
      by (intros i; apply substring_next).
    rewrite IH.
    + rewrite substring_take_drop. apply (take_drop 1024 content).
    + rewrite length_drop. unfold piece_bytes, PIECE_SIZE. lia.
Qed.

Section Partition.

Variable SHA256 : string -> string.

(** X15 - The pieces [findSHA] hashes cover the file exactly: put end to
    end in order they are the content, nothing skipped and nothing hashed
    twice.  For any readable file whose length fits an [int], the empty
    one included, the list has one entry more than
    [ceil (giveFileSize / 1024)]; for the empty file it is the hash of the
    empty string alone. *)
Theorem findSHA_partitions (disk : gmap string string)
    (strerror filePath content : string) :
  disk !! filePath = Some content ->
  size content <= INT_MAX ->
  let P := piece_count (size content) in
  stream (map (fun i => substring (i * 1024) 1024 content) (seq 0 (Z.to_nat P)))
    = content /\
  exists hashes fileSize,
    Utils.findSHA SHA256 disk strerror filePath = Returned hashes /\
    Utils.giveFileSize disk strerror filePath = Returned fileSize /\
    fileSize = size content /\
    Z.of_nat (length hashes) = 1 + (fileSize + 1023) / 1024 /\
    (content = "" -> hashes = [Utils.hex_hash (SHA256 "")]).
Proof.
  intros Hdisk Hsize P. pose proof (size_nonneg content) as Hnn.
  assert (HP : 0 <= P /\ size content <= 1024 * P).
  { subst P. unfold piece_count, PIECE_SIZE. Z.div_mod_to_equations. lia. }
  split.
  - apply stream_chunks. unfold size in HP. lia.
  - eexists _, _. split; [apply (findSHA_list _ _ _ _ _ Hdisk)|]. split.
    { unfold Utils.giveFileSize. rewrite Hdisk, wrap_int_id; [reflexivity|].
      unfold INT_MIN. lia. }
    split; [reflexivity|]. split.
    + cbn [length]. rewrite length_map, length_seq.
      subst P. unfold piece_count, PIECE_SIZE in *.
      replace (size content + 1024 - 1) with (size content + 1023) in * by lia. lia.
    + intros ->. reflexivity.
Qed.

End Partition.

Lemma findSHA_partitions_witness :
  stream (map (fun i => substring (i * 1024) 1024 "hello world")
            (seq 0 (Z.to_nat (piece_count (size "hello world")))))
  = "hello world".
Proof.
  apply (findSHA_partitions (fun data => data) {[ "/srv/notes.txt" := "hello world" ]}
           "" "/srv/notes.txt" "hello world").
  - reflexivity.
  - vm_compute. discriminate.
Defined.

(** ** The receive loop on streams that are not one whole frame *)

Lemma stoi_outcomes s :
  (exists v, stoi s = Returned v) \/ (exists e, stoi s = Uncaught e).
Proof.
  unfold stoi.
  destruct (match skip_space s with
            | String "-"%char r => (true, r)
            | String "+"%char r => (false, r)
            | _ => (false, skip_space s)
            end) as [negative s2].
  destruct (starts_with_digit s2); [|eauto].
  destruct (in_int _); eauto.
Qed.

Lemma recv_loop_no_separator on_close first later :
  empty first = false ->
  all_chars (is_not " ") first = true ->
  exists e, recv_loop on_close (first :: later) (-1) "" = (Uncaught e, later).
Proof.
  intros Hne Hall. cbn [recv_loop]. rewrite sapp_nil_l.
  rewrite <- empty_size, Hne. change (-1 =? -1) with true. cbn match.
  rewrite tokenize_last by assumption.
  destruct (stoi_outcomes first) as [[v ->]|[e ->]].
  - cbn [mbind outcome_bind]. unfold substr.
    replace ((0 <=? size first + 1) && (size first + 1 <=? size first)) with false.
    + exists out_of_range. reflexivity.
    + symmetry. apply andb_false_iff. right. apply Z.leb_gt. lia.
  - exists e. reflexivity.
Qed.

(** X16 - A first [recv] that returns bytes without any space never gives
    a message: whatever the bytes are (a length token cut short, or no
    number at all), both [recvSocket] methods end with an exception of the
    standard library, which no [catch (const string&)] handles; the blocks
    that follow are not read. *)
Theorem recvSocket_no_separator (client : ClientSocket.t) (server : ServerSocket.t)
    (clientSocketFd : Z) (first : string) (later : list string) :
  ClientSocket.check client = Returned tt ->
  ServerSocket.m_socketFd server <> -1 ->
  empty first = false ->
  all_chars (is_not " ") first = true ->
  exists e,
    ClientSocket.recvSocket client (first :: later) = (Uncaught e, later) /\
    ServerSocket.recvSocket server clientSocketFd (first :: later)
      = (Uncaught e, later).
Proof.
  intros Hclient Hserver Hne Hall. apply Z.eqb_neq in Hserver.
  unfold ClientSocket.recvSocket, ServerSocket.recvSocket. rewrite Hclient, Hserver.
  assert (Hsame : forall c1 c2,
    fst (recv_loop c1 (first :: later) (-1) "")
    = fst (recv_loop c2 (first :: later) (-1) "")).
  { intros c1 c2. cbn [recv_loop]. rewrite sapp_nil_l, <- empty_size, Hne.
    change (-1 =? -1) with true. cbn match. rewrite tokenize_last by assumption.
    destruct (stoi_outcomes first) as [[v ->]|[e ->]]; [|reflexivity].
    cbn [mbind outcome_bind]. unfold substr.
    replace ((0 <=? size first + 1) && (size first + 1 <=? size first)) with false;
      [reflexivity|].
    symmetry. apply andb_false_iff. right. apply Z.leb_gt. lia. }
  destruct (recv_loop_no_separator (Thrown "Error: Server closed the connection!!")
              first later Hne Hall) as [e He].
  destruct (recv_loop_no_separator (Returned "") first later Hne Hall) as [e' He'].
  exists e. split; [exact He|].
  specialize (Hsame (Thrown "Error: Server closed the connection!!") (Returned "")).
  rewrite He, He' in Hsame. cbn [fst] in Hsame. injection Hsame as ->. exact He'.
Qed.

Lemma recvSocket_no_separator_witness :
  exists e,
    ClientSocket.recvSocket (ClientSocket.mk "127.0.0.1" 5000 3) ["10"; "33 hello"]
      = (Uncaught e, ["33 hello"]) /\
    ServerSocket.recvSocket (ServerSocket.mk "127.0.0.1" 5001 4) 9 ["10"; "33 hello"]
      = (Uncaught e, ["33 hello"]).
Proof.
  apply (recvSocket_no_separator (ClientSocket.mk "127.0.0.1" 5000 3)
           (ServerSocket.mk "127.0.0.1" 5001 4) 9 "10" ["33 hello"]).
  - reflexivity.
  - vm_compute. discriminate.
  - reflexivity.
  - reflexivity.
Defined.

Section Truncated.

Variable on_close : outcome string.

Lemma recv_loop_short later total received :
  Forall (fun b => 0 < size b <= RECV_BUFFER) later ->
  size (stream later) < total <= INT_MAX ->
  recv_loop on_close later total received = (on_close, []).
Proof.
  revert total received. induction later as [|b later IH];
    intros total received Hwf Htotal; [reflexivity|].
  apply Forall_cons in Hwf as [Hb Hwf]. cbn [stream] in Htotal.
  rewrite size_sapp in Htotal. pose proof (size_nonneg (stream later)) as Hnn.
  cbn [recv_loop].
  destruct (size b =? 0) eqn:Hb0; [apply Z.eqb_eq in Hb0; lia|].
  destruct (total =? -1) eqn:Hm1; [apply Z.eqb_eq in Hm1; lia|].
  unfold int_arith. rewrite in_int_true by (unfold INT_MIN, INT_MAX in *; lia).
  cbn [mbind outcome_bind mret outcome_ret].
  destruct (total - size b =? 0) eqn:Hz; [apply Z.eqb_eq in Hz; lia|].
  apply IH; [assumption|lia].
Qed.

Lemma recv_loop_truncated n part later :
  size part + size (stream later) < n <= INT_MAX ->
  Forall (fun b => 0 < size b <= RECV_BUFFER) later ->
  recv_loop on_close ((to_string n +:+ " " +:+ part) :: later) (-1) ""
  = (on_close, []).
Proof.
  intros Hn Hwf.
  pose proof (size_nonneg part) as Hp0. pose proof (size_nonneg (stream later)) as Hl0.
  pose proof (size_nonneg (to_string n)) as Ht0.
  cbn [recv_loop]. rewrite sapp_nil_l.
  assert (Hfirst : size (to_string n +:+ " " +:+ part) = size (to_string n) + 1 + size part).
  { rewrite !size_sapp. change (size " ") with 1. lia. }
  rewrite Hfirst.
  destruct (size (to_string n) + 1 + size part =? 0) eqn:Hz;
    [apply Z.eqb_eq in Hz; lia|].
  change (-1 =? -1) with true. cbn match.
  change (to_string n +:+ " " +:+ part) with (to_string n +:+ String " " part).
  rewrite tokenize_first by (apply to_string_no_space || apply to_string_nonempty).
  rewrite stoi_to_string by (apply in_int_true; unfold INT_MIN; lia).
  cbn [mbind outcome_bind mret outcome_ret].
  unfold substr. rewrite size_sapp.
  change (size (String " " part)) with (Z.of_nat (S (String.length part))).
  replace ((0 <=? size (to_string n) + 1)
           && (size (to_string n) + 1
               <=? size (to_string n) + Z.of_nat (S (String.length part))))
    with true by (symmetry; apply andb_true_iff; split; apply Z.leb_le; lia).
  cbn [mbind outcome_bind mret outcome_ret].
  rewrite wrap_int_id by (unfold INT_MIN, INT_MAX in *; lia).
  destruct (n - (size (to_string n) + 1 + size part - (size (to_string n) + 1)) =? 0)
    eqn:Hdone; [apply Z.eqb_eq in Hdone; lia|].
  apply recv_loop_short; [assumption|lia].
Qed.

End Truncated.

(** X17 - A stream that ends before the announced number of bytes has
    arrived: [ClientSocket::recvSocket] throws "Error: Server closed the
    connection!!", while [ServerSocket::recvSocket] returns the empty
    string, the value it also returns for a leecher that has simply closed
    the connection.  The bytes received so far are dropped. *)
Theorem recvSocket_truncated (client : ClientSocket.t) (server : ServerSocket.t)
    (clientSocketFd n : Z) (part : string) (later : list string) :
  ClientSocket.check client = Returned tt ->
  ServerSocket.m_socketFd server <> -1 ->
  size part + size (stream later) < n <= INT_MAX ->
  Forall (fun b => 0 < size b <= RECV_BUFFER) later ->
  ClientSocket.recvSocket client ((to_string n +:+ " " +:+ part) :: later)
    = (Thrown "Error: Server closed the connection!!", []) /\
  ServerSocket.recvSocket server clientSocketFd
      ((to_string n +:+ " " +:+ part) :: later)
    = (Returned "", []).
Proof.
  intros Hclient Hserver Hn Hwf. apply Z.eqb_neq in Hserver.
  unfold ClientSocket.recvSocket, ServerSocket.recvSocket. rewrite Hclient, Hserver.
  split; apply recv_loop_truncated; assumption.
Qed.

Lemma recvSocket_truncated_witness :
  ClientSocket.recvSocket (ClientSocket.mk "127.0.0.1" 5000 3) ["11 hel"; "lo w"]
    = (Thrown "Error: Server closed the connection!!", []) /\
  ServerSocket.recvSocket (ServerSocket.mk "127.0.0.1" 5001 4) 9 ["11 hel"; "lo w"]
    = (Returned "", []).
Proof.
  apply (recvSocket_truncated (ClientSocket.mk "127.0.0.1" 5000 3)
           (ServerSocket.mk "127.0.0.1" 5001 4) 9 11 "hel" ["lo w"]).
  - reflexivity.
  - vm_compute. discriminate.
  - vm_compute. split; [reflexivity|discriminate].
  - repeat constructor; vm_compute; congruence.
Defined.

(** ** The leecher's exchanges with the tracker *)

Lemma take_error e : take 5 ("Error: " +:+ e) = "Error".
Proof. reflexivity. Qed.

Lemma substr_error e : substr ("Error: " +:+ e) 7 = Returned e.
Proof.
  unfold substr. rewrite size_sapp. change (size "Error: ") with 7.
  pose proof (size_nonneg e).
  replace ((0 <=? 7) && (7 <=? 7 + size e)) with true
    by (symmetry; apply andb_true_iff; split; apply Z.leb_le; lia).
  reflexivity.
Qed.

Lemma sendTracker_ok l message response rest :
  ClientSocket.check (Leecher.m_clientSocket l) = Returned tt ->
  ClientSocket.recvSocket (Leecher.m_clientSocket l) (Leecher.tracker_in l)
    = (Returned response, rest) ->
  take 5 response <> "Error" ->
  Leecher.sendTracker message l
  = (Returned response,
     after l (Leecher.m_authToken l) (Leecher.m_clientSocket l) rest
       [Logged "COMMAND" ("Sending to tracker : " +:+ message);
        Sent (frame message);
        Logged "COMMAND" ("Received from tracker : " +:+ response)]).
Proof.
  intros Hcheck Hrecv Hok. apply String.eqb_neq in Hok.
  unfold Leecher.sendTracker, ClientSocket.sendSocket.
  run_leecher. rewrite Hcheck. run_leecher. rewrite Hrecv.
  unfold Leecher.checkForError. rewrite Hok. run_leecher.
  unfold after. rewrite <- !app_assoc. reflexivity.
Qed.

Lemma sendTracker_error l message e rest :
  ClientSocket.check (Leecher.m_clientSocket l) = Returned tt ->
  ClientSocket.recvSocket (Leecher.m_clientSocket l) (Leecher.tracker_in l)
    = (Returned ("Error: " +:+ e), rest) ->
  Leecher.sendTracker message l
  = (Thrown e,
     after l (Leecher.m_authToken l) (Leecher.m_clientSocket l) rest
       [Logged "COMMAND" ("Sending to tracker : " +:+ message);
        Sent (frame message);
        Logged "COMMAND" ("Received from tracker : " +:+ ("Error: " +:+ e))]).
Proof.
  intros Hcheck Hrecv.
  unfold Leecher.sendTracker, ClientSocket.sendSocket.
  run_leecher. rewrite Hcheck. run_leecher. rewrite Hrecv.
  unfold Leecher.checkForError. rewrite take_error, substr_error.
  change ("Error" =? "Error")%string with true. run_leecher.
  unfold after. rewrite <- !app_assoc. reflexivity.
Qed.

Lemma processUserRequests_forwarded inputFromClient tokens0 args :
  Utils.tokenize inputFromClient " " = tokens0 :: args ->
  In tokens0 forwarded ->
  Leecher.processUserRequests inputFromClient
  = Leecher.forward (tokens0 :: args) inputFromClient.
Proof.
  intros Htok Hin. unfold Leecher.processUserRequests. rewrite Htok.
  unfold forwarded in Hin. cbn [In] in Hin.
  repeat (destruct Hin as [<-|Hin]; [reflexivity|]). contradiction.
Qed.

(** X18 - An error answer of the tracker to a forwarded command,
    "Error: " followed by a message, is thrown by [sendTracker] as that
    message and printed by [getCommand] in red as "Error: " and the
    message; nothing is printed in green and the session token is kept. *)
Theorem tracker_error_is_reported (l : Leecher.t) (inputFromClient tokens0 e : string)
    (args rest : list string) :
  Utils.tokenize inputFromClient " " = tokens0 :: args ->
  In tokens0 forwarded ->
  ClientSocket.check (Leecher.m_clientSocket l) = Returned tt ->
  ClientSocket.recvSocket (Leecher.m_clientSocket l) (Leecher.tracker_in l)
    = (Returned ("Error: " +:+ e), rest) ->
  let message := inputFromClient +:+ " " +:+ Leecher.m_authToken l in
  Leecher.getCommand_turn inputFromClient l
  = (Returned tt,
     after l (Leecher.m_authToken l) (Leecher.m_clientSocket l) rest
       [Printed ">> ";
        Logged "COMMAND" ("Sending to tracker : " +:+ message);
        Sent (to_string (size message) +:+ " " +:+ message);
        Logged "COMMAND" ("Received from tracker : " +:+ ("Error: " +:+ e));
        Printed (RED +:+ "Error: " +:+ e +:+ nl +:+ RESET)]).
Proof.
  intros Htok Hin Hcheck Hrecv message.
  unfold Leecher.getCommand_turn.
  rewrite (processUserRequests_forwarded _ _ _ Htok Hin).
  unfold Leecher.forward. run_leecher.
  rewrite sendTracker_error with (e := e) (rest := rest) by assumption.
  unfold after. run_leecher. rewrite <- !app_assoc. reflexivity.
Qed.

Lemma tracker_error_is_reported_witness :
  Leecher.getCommand_turn "list_files friends"
    (Leecher.mk "tok" "127.0.0.1" 6000 (ClientSocket.mk "127.0.0.1" 5000 3)
       ∅ ∅ ∅ ["20 Error: no such group"] [])
  = (Returned tt,
     Leecher.mk "tok" "127.0.0.1" 6000 (ClientSocket.mk "127.0.0.1" 5000 3)
       ∅ ∅ ∅ []
       [Printed ">> ";
        Logged "COMMAND" "Sending to tracker : list_files friends tok";
        Sent "22 list_files friends tok";
        Logged "COMMAND" "Received from tracker : Error: no such group";
        Printed (RED +:+ "Error: no such group" +:+ nl +:+ RESET)]).
Proof.
  apply (tracker_error_is_reported
    (Leecher.mk "tok" "127.0.0.1" 6000 (ClientSocket.mk "127.0.0.1" 5000 3)
       ∅ ∅ ∅ ["20 Error: no such group"] [])
    "list_files friends" "list_files" "no such group" ["friends"] []).
  - reflexivity.
  - unfold forwarded. cbn [In]. tauto.
  - reflexivity.
  - reflexivity.
Defined.

Lemma join_but_second_rest i words :
  Forall (word " ") words ->
  Utils.tokenize (Leecher.join_but_second (S (S i)) words) " " = words.
Proof.
  intros Hwords. revert i. induction Hwords as [|w words [Hne Hall] _ IH]; intros i;
    [reflexivity|].
  cbn [Leecher.join_but_second Nat.eqb]. rewrite sapp_assoc.
  change (" " +:+ Leecher.join_but_second (S (S (S i))) words)
    with (String " " (Leecher.join_but_second (S (S (S i))) words)).
  rewrite tokenize_first by assumption. rewrite IH. reflexivity.
Qed.

Lemma join_but_second_drops first second more :
  Forall (word " ") (first :: second :: more) ->
  Utils.tokenize (Leecher.join_but_second 0 (first :: second :: more)) " "
  = first :: more.
Proof.
  intros Hwords. apply Forall_cons in Hwords as [[Hne Hall] Hwords].
  apply Forall_cons in Hwords as [_ Hwords].
  cbn [Leecher.join_but_second Nat.eqb]. rewrite sapp_assoc, sapp_nil_l.
  change (" " +:+ Leecher.join_but_second 2 more)
    with (String " " (Leecher.join_but_second 2 more)).
  rewrite tokenize_first by assumption. rewrite join_but_second_rest by assumption.
  reflexivity.
Qed.

(** X19 - A successful [login] sends the typed line followed by the
    seeder's "ip:port", stores the second word of the tracker's answer as
    the session token, and prints the answer without that word: the token
    is not shown to the user. *)
Theorem login_keeps_token (l : Leecher.t) (inputFromClient response first token : string)
    (args more rest : list string) :
  Utils.tokenize inputFromClient " " = "login" :: args ->
  ClientSocket.check (Leecher.m_clientSocket l) = Returned tt ->
  ClientSocket.recvSocket (Leecher.m_clientSocket l) (Leecher.tracker_in l)
    = (Returned response, rest) ->
  take 5 response <> "Error" ->
  Utils.tokenize response " " = first :: token :: more ->
  let message :=
    inputFromClient +:+ " " +:+ Leecher.m_seederIp l +:+ ":" +:+
    to_string (Leecher.m_seederPort l) in
  let shown := Leecher.join_but_second 0 (first :: token :: more) in
  Leecher.processUserRequests inputFromClient l
  = (Returned tt,
     after l token (Leecher.m_clientSocket l) rest
       [Logged "COMMAND" ("Sending to tracker : " +:+ message);
        Sent (to_string (size message) +:+ " " +:+ message);
        Logged "COMMAND" ("Received from tracker : " +:+ response);
        Printed (GREEN +:+ shown +:+ nl +:+ RESET)]) /\
  Utils.tokenize shown " " = first :: more.
Proof.
  intros Htok Hcheck Hrecv Hok Hresp message shown. split.
  - unfold Leecher.processUserRequests. rewrite Htok.
    cbn [String.eqb Ascii.eqb Bool.eqb orb]. unfold Leecher.login. run_leecher.
    rewrite (sendTracker_ok _ _ _ _ Hcheck Hrecv Hok). rewrite Hresp.
    unfold Leecher.at_. cbn [lookup list_lookup]. unfold after. run_leecher.
    unfold Leecher.printResponse, Leecher.at_. cbn [lookup list_lookup]. run_leecher.
    cbn [String.eqb Ascii.eqb Bool.eqb]. rewrite Hresp. run_leecher.
    rewrite <- !app_assoc. reflexivity.
  - apply join_but_second_drops. rewrite <- Hresp. apply tokenize_loop_words. reflexivity.
Qed.

Lemma login_keeps_token_witness :
  Leecher.processUserRequests "login alice secret"
    (Leecher.mk "NULL" "127.0.0.1" 6000 (ClientSocket.mk "127.0.0.1" 5000 3)
       ∅ ∅ ∅ ["26 Success: t0k3n Logged in!!"] [])
  = (Returned tt,
     Leecher.mk "t0k3n" "127.0.0.1" 6000 (ClientSocket.mk "127.0.0.1" 5000 3)
       ∅ ∅ ∅ []
       [Logged "COMMAND" "Sending to tracker : login alice secret 127.0.0.1:6000";
        Sent "33 login alice secret 127.0.0.1:6000";
        Logged "COMMAND" "Received from tracker : Success: t0k3n Logged in!!";
        Printed (GREEN +:+ "Success: Logged in!! " +:+ nl +:+ RESET)]).
Proof.
  destruct (login_keeps_token
    (Leecher.mk "NULL" "127.0.0.1" 6000 (ClientSocket.mk "127.0.0.1" 5000 3)
       ∅ ∅ ∅ ["26 Success: t0k3n Logged in!!"] [])
    "login alice secret" "Success: t0k3n Logged in!!" "Success:" "t0k3n"
    ["alice"; "secret"] ["Logged"; "in!!"] []) as [H _].
  - reflexivity.
  - reflexivity.
  - reflexivity.
  - vm_compute. discriminate.
  - reflexivity.
  - exact H.
Defined.

(** X20 - A [login] answer that is not an error and has fewer than two
    words leaves [login] reading [responseTokens[1]] past the end of the
    vector: the command has been sent and the answer logged, the session
    token is not set, and the call has no defined result. *)
Theorem login_without_token (l : Leecher.t) (inputFromClient response : string)
    (args rest : list string) :
  Utils.tokenize inputFromClient " " = "login" :: args ->
  ClientSocket.check (Leecher.m_clientSocket l) = Returned tt ->
  ClientSocket.recvSocket (Leecher.m_clientSocket l) (Leecher.tracker_in l)
    = (Returned response, rest) ->
  take 5 response <> "Error" ->
  (length (Utils.tokenize response " ") < 2)%nat ->
  let message :=
    inputFromClient +:+ " " +:+ Leecher.m_seederIp l +:+ ":" +:+
    to_string (Leecher.m_seederPort l) in
  Leecher.processUserRequests inputFromClient l
  = (Undefined,
     after l (Leecher.m_authToken l) (Leecher.m_clientSocket l) rest
       [Logged "COMMAND" ("Sending to tracker : " +:+ message);
        Sent (to_string (size message) +:+ " " +:+ message);
        Logged "COMMAND" ("Received from tracker : " +:+ response)]).
Proof.
  intros Htok Hcheck Hrecv Hok Hlen message.
  unfold Leecher.processUserRequests. rewrite Htok.
  cbn [String.eqb Ascii.eqb Bool.eqb orb]. unfold Leecher.login. run_leecher.
  rewrite (sendTracker_ok _ _ _ _ Hcheck Hrecv Hok). run_leecher.
  revert Hlen.
  destruct (Utils.tokenize response " ") as [|first [|second more]]; intros Hlen;
    [reflexivity|reflexivity|cbn in Hlen; lia].
Qed.

Lemma login_without_token_witness :
  fst (Leecher.processUserRequests "login alice secret"
         (Leecher.mk "NULL" "127.0.0.1" 6000 (ClientSocket.mk "127.0.0.1" 5000 3)
            ∅ ∅ ∅ ["8 Success:"] []))
  = Undefined.
Proof.
  rewrite (login_without_token
    (Leecher.mk "NULL" "127.0.0.1" 6000 (ClientSocket.mk "127.0.0.1" 5000 3)
       ∅ ∅ ∅ ["8 Success:"] [])
    "login alice secret" "Success:" ["alice"; "secret"] []).
  - reflexivity.
  - reflexivity.
  - reflexivity.
  - reflexivity.
  - vm_compute. discriminate.
  - vm_compute. lia.
Defined.

(** X21 - [logout] forgets the session token only when the tracker
    accepts: on an answer that is not an error the token becomes "NULL" and
    the answer is printed; on an error answer the exception leaves
    [logout] before the assignment, and the token stays as it was. *)
Theorem logout_token (l : Leecher.t) (inputFromClient : string)
    (args rest : list string) :
  Utils.tokenize inputFromClient " " = "logout" :: args ->
  ClientSocket.check (Leecher.m_clientSocket l) = Returned tt ->
  let message := inputFromClient +:+ " " +:+ Leecher.m_authToken l in
  (forall response,
     ClientSocket.recvSocket (Leecher.m_clientSocket l) (Leecher.tracker_in l)
       = (Returned response, rest) ->
     take 5 response <> "Error" ->
     Leecher.processUserRequests inputFromClient l
     = (Returned tt,
        after l "NULL" (Leecher.m_clientSocket l) rest
          [Logged "COMMAND" ("Sending to tracker : " +:+ message);
           Sent (to_string (size message) +:+ " " +:+ message);
           Logged "COMMAND" ("Received from tracker : " +:+ response);
           Printed (GREEN +:+ response +:+ nl +:+ RESET)])) /\
  (forall e,
     ClientSocket.recvSocket (Leecher.m_clientSocket l) (Leecher.tracker_in l)
       = (Returned ("Error: " +:+ e), rest) ->
     Leecher.processUserRequests inputFromClient l
     = (Thrown e,
        after l (Leecher.m_authToken l) (Leecher.m_clientSocket l) rest
          [Logged "COMMAND" ("Sending to tracker : " +:+ message);
           Sent (to_string (size message) +:+ " " +:+ message);
           Logged "COMMAND" ("Received from tracker : " +:+ ("Error: " +:+ e))])).
Proof.
  intros Htok Hcheck message.
  unfold Leecher.processUserRequests. rewrite Htok.
  cbn [String.eqb Ascii.eqb Bool.eqb orb]. unfold Leecher.logout. split.
  - intros response Hrecv Hok. run_leecher.
    rewrite (sendTracker_ok _ _ _ _ Hcheck Hrecv Hok).
    unfold after. run_leecher. unfold Leecher.printResponse, Leecher.at_.
    cbn [lookup list_lookup]. run_leecher. cbn [String.eqb Ascii.eqb Bool.eqb].
    run_leecher. rewrite <- !app_assoc. reflexivity.
  - intros e Hrecv. run_leecher.
    rewrite (sendTracker_error _ _ _ _ Hcheck Hrecv). reflexivity.
Qed.

Lemma logout_token_witness :
  Leecher.processUserRequests "logout"
    (Leecher.mk "tok" "127.0.0.1" 6000 (ClientSocket.mk "127.0.0.1" 5000 3)
       ∅ ∅ ∅ ["27 Error: User not logged in!!"] [])
  = (Thrown "User not logged in!!",
     Leecher.mk "tok" "127.0.0.1" 6000 (ClientSocket.mk "127.0.0.1" 5000 3)
       ∅ ∅ ∅ []
       [Logged "COMMAND" "Sending to tracker : logout tok";
        Sent "10 logout tok";
        Logged "COMMAND" "Received from tracker : Error: User not logged in!!"]).
Proof.
  destruct (logout_token
    (Leecher.mk "tok" "127.0.0.1" 6000 (ClientSocket.mk "127.0.0.1" 5000 3)
       ∅ ∅ ∅ ["27 Error: User not logged in!!"] [])
    "logout" [] []) as [_ H].
  - reflexivity.
  - reflexivity.
  - apply (H "User not logged in!!"). reflexivity.
Defined.

(** X22 - [quit] (or [exit]) ends the process with status 0 once the
    socket is closed.  Without a session it sends nothing; with a session
    it sends "logout" and the token, and an error answer of the tracker is
    logged and does not stop the exit.  When the socket is already closed,
    [stop] throws and the process does not exit. *)
Theorem quit_exits (l : Leecher.t) (inputFromClient tokens0 : string)
    (args rest : list string) :
  Utils.tokenize inputFromClient " " = tokens0 :: args ->
  tokens0 = "quit" \/ tokens0 = "exit" ->
  let closed := ClientSocket.mk "" (-1) (-1) in
  let message := "logout" +:+ " " +:+ Leecher.m_authToken l in
  (Leecher.m_authToken l = "NULL" ->
   ClientSocket.m_socketFd (Leecher.m_clientSocket l) <> -1 ->
   Leecher.processUserRequests inputFromClient l
   = (Exit 0,
      after l "NULL" closed (Leecher.tracker_in l)
        [Logged "INFO" "authToken not found!! No need to send logout request to tracker";
         Logged "SUCCESS" "Leecher Quit."])) /\
  (forall e,
   Leecher.m_authToken l <> "NULL" ->
   ClientSocket.check (Leecher.m_clientSocket l) = Returned tt ->
   ClientSocket.recvSocket (Leecher.m_clientSocket l) (Leecher.tracker_in l)
     = (Returned ("Error: " +:+ e), rest) ->
   Leecher.processUserRequests inputFromClient l
   = (Exit 0,
      after l (Leecher.m_authToken l) closed rest
        [Logged "INFO" "authToken found!! Sending logout request to tracker";
         Logged "COMMAND" ("Sending to tracker : " +:+ message);
         Sent (to_string (size message) +:+ " " +:+ message);
         Logged "COMMAND" ("Received from tracker : " +:+ ("Error: " +:+ e));
         Logged "ERROR" ("Error from tracker during 'quit logout'!! Error : " +:+ e);
         Logged "SUCCESS" "Leecher Quit."])) /\
  (Leecher.m_authToken l = "NULL" ->
   ClientSocket.m_socketFd (Leecher.m_clientSocket l) = -1 ->
   Leecher.processUserRequests inputFromClient l
   = (Thrown no_socket,
      after l "NULL" (Leecher.m_clientSocket l) (Leecher.tracker_in l)
        [Logged "INFO" "authToken not found!! No need to send logout request to tracker"])).
Proof.
  intros Htok Hquit closed message.
  assert (Hrun : Leecher.processUserRequests inputFromClient
                 = Leecher.quit (tokens0 :: args) inputFromClient).
  { unfold Leecher.processUserRequests. rewrite Htok.
    destruct Hquit as [-> | ->]; reflexivity. }
  rewrite Hrun. unfold Leecher.quit, Leecher.stop, ClientSocket.closeSocket.
  split; [|split].
  - intros Htoken Hfd. apply Z.eqb_neq in Hfd. run_leecher. rewrite Htoken.
    cbn [String.eqb Ascii.eqb Bool.eqb negb]. run_leecher. rewrite Hfd.
    unfold Leecher.set_clientSocket. run_leecher. rewrite Htoken.
    unfold after. rewrite <- !app_assoc. reflexivity.
  - intros e Htoken Hcheck Hrecv.
    assert (Hfd : (ClientSocket.m_socketFd (Leecher.m_clientSocket l) =? -1) = false).
    { unfold ClientSocket.check in Hcheck.
      destruct (ClientSocket.m_socketFd (Leecher.m_clientSocket l) =? -1);
        [discriminate|reflexivity]. }
    apply String.eqb_neq in Htoken. run_leecher. rewrite Htoken. cbn [negb].
    run_leecher. unfold Leecher.logout. run_leecher.
    rewrite sendTracker_error with (e := e) (rest := rest) by assumption.
    unfold after. run_leecher. rewrite Hfd.
    unfold Leecher.set_clientSocket. run_leecher.
    rewrite <- !app_assoc. reflexivity.
  - intros Htoken Hfd. run_leecher. rewrite Htoken.
    cbn [String.eqb Ascii.eqb Bool.eqb negb]. run_leecher. rewrite Hfd.
    change (-1 =? -1) with true. cbv iota. unfold after. rewrite Htoken. reflexivity.
Qed.

Lemma quit_exits_witness :
  Leecher.processUserRequests "quit"
    (Leecher.mk "tok" "127.0.0.1" 6000 (ClientSocket.mk "127.0.0.1" 5000 3)
       ∅ ∅ ∅ ["27 Error: User not logged in!!"] [])
  = (Exit 0,
     Leecher.mk "tok" "127.0.0.1" 6000 (ClientSocket.mk "" (-1) (-1))
       ∅ ∅ ∅ []
       [Logged "INFO" "authToken found!! Sending logout request to tracker";
        Logged "COMMAND" "Sending to tracker : logout tok";
        Sent "10 logout tok";
        Logged "COMMAND" "Received from tracker : Error: User not logged in!!";
        Logged "ERROR"
          "Error from tracker during 'quit logout'!! Error : User not logged in!!";
        Logged "SUCCESS" "Leecher Quit."]).
Proof.
  destruct (quit_exits
    (Leecher.mk "tok" "127.0.0.1" 6000 (ClientSocket.mk "127.0.0.1" 5000 3)
       ∅ ∅ ∅ ["27 Error: User not logged in!!"] [])
    "quit" "quit" [] []) as (_ & H & _).
  - reflexivity.
  - left. reflexivity.
  - apply (H "User not logged in!!").
    + vm_compute. discriminate.
    + reflexivity.
    + reflexivity.
Defined.

(** X23 - A line with no word does nothing; a line whose first word is not
    a command is refused with "Invalid command!!" before anything is sent to
    the tracker, and [getCommand] prints the refusal in red. *)
Theorem unknown_command (l : Leecher.t) (inputFromClient : string) :
  (Utils.tokenize inputFromClient " " = [] ->
   Leecher.processUserRequests inputFromClient l = (Returned tt, l)) /\
  (forall tokens0 args,
     Utils.tokenize inputFromClient " " = tokens0 :: args ->
     ~ In tokens0 known ->
     Leecher.processUserRequests inputFromClient l = (Thrown "Invalid command!!", l) /\
     Leecher.getCommand_turn inputFromClient l
     = (Returned tt,
        after l (Leecher.m_authToken l) (Leecher.m_clientSocket l)
          (Leecher.tracker_in l)
          [Printed ">> ";
           Printed (RED +:+ "Error: " +:+ "Invalid command!!" +:+ nl +:+ RESET)])).
Proof.
  split.
  - intros Htok. unfold Leecher.processUserRequests. rewrite Htok. reflexivity.
  - intros tokens0 args Htok Hnot.
    assert (Hneq : forall k, In k known -> String.eqb tokens0 k = false).
    { intros k Hk. apply String.eqb_neq. intros ->. contradiction. }
    assert (Hrun : forall l0,
      Leecher.processUserRequests inputFromClient l0 = (Thrown "Invalid command!!", l0)).
    { intros l0. unfold Leecher.processUserRequests. rewrite Htok. cbv zeta.
      rewrite !Hneq by (unfold known, forwarded; cbn [In app]; tauto).
      reflexivity. }
    split; [apply Hrun|].
    unfold Leecher.getCommand_turn. run_leecher. rewrite Hrun. run_leecher.
    unfold after. rewrite <- !app_assoc. reflexivity.
Qed.

Lemma unknown_command_witness :
  Leecher.processUserRequests "give_piece movie.mkv friends 0"
    (Leecher.mk "tok" "127.0.0.1" 6000 (ClientSocket.mk "127.0.0.1" 5000 3)
       ∅ ∅ ∅ [] [])
  = (Thrown "Invalid command!!",
     Leecher.mk "tok" "127.0.0.1" 6000 (ClientSocket.mk "127.0.0.1" 5000 3)
       ∅ ∅ ∅ [] []).
Proof.
  destruct (unknown_command
    (Leecher.mk "tok" "127.0.0.1" 6000 (ClientSocket.mk "127.0.0.1" 5000 3)
       ∅ ∅ ∅ [] []) "give_piece movie.mkv friends 0") as [_ H].
  apply (H "give_piece" ["movie.mkv"; "friends"; "0"]).
  - reflexivity.
  - unfold known, forwarded. cbn [In app]. intros Hin.
    repeat (destruct Hin as [Hin|Hin]; [discriminate Hin|]). exact Hin.
Defined.

(** X24 - The three listing commands print by the number of words of the
    tracker's answer: an answer of one word prints the command's "nothing
    to list" text in yellow, an answer of two or more words prints the
    command's header followed by the second word alone (later words are
    not shown), and an answer with no word at all indexes past the end of
    the word vector. *)
Theorem listing_replies (l : Leecher.t) (inputFromClient tokens0 none_text header
    response : string) (args rest : list string) :
  Utils.tokenize inputFromClient " " = tokens0 :: args ->
  In (tokens0, none_text, header) listings ->
  ClientSocket.check (Leecher.m_clientSocket l) = Returned tt ->
  ClientSocket.recvSocket (Leecher.m_clientSocket l) (Leecher.tracker_in l)
    = (Returned response, rest) ->
  take 5 response <> "Error" ->
  let message := inputFromClient +:+ " " +:+ Leecher.m_authToken l in
  let exchange :=
    [Logged "COMMAND" ("Sending to tracker : " +:+ message);
     Sent (to_string (size message) +:+ " " +:+ message);
     Logged "COMMAND" ("Received from tracker : " +:+ response)] in
  let final := after l (Leecher.m_authToken l) (Leecher.m_clientSocket l) rest in
  Leecher.processUserRequests inputFromClient l
  = match Utils.tokenize response " " with
    | [] => (Undefined, final exchange)
    | [_] => (Returned tt,
              final (exchange ++ [Printed (YELLOW +:+ none_text +:+ nl +:+ RESET)]))
    | _ :: second :: _ =>
        (Returned tt, final (exchange ++ [Printed ((header +:+ second) +:+ nl)]))
    end.
Proof.
  intros Htok Hin Hcheck Hrecv Hok message exchange final.
  assert (Hrun : Leecher.processUserRequests inputFromClient l
    = (response0 ← Leecher.sendTracker message;
       Leecher.list_reply none_text header response0) l).
  { unfold Leecher.processUserRequests. rewrite Htok.
    cbn [In listings] in Hin.
    destruct Hin as [Hin|[Hin|[Hin|[]]]]; injection Hin as <- <- <-; reflexivity. }
  rewrite Hrun. run_leecher.
  rewrite (sendTracker_ok _ _ _ _ Hcheck Hrecv Hok).
  unfold Leecher.list_reply, final, exchange, after.
  destruct (Utils.tokenize response " ") as [|first [|second more]];
    cbn [length Nat.eqb]; unfold Leecher.at_; cbn [lookup list_lookup];
    run_leecher; rewrite <- ?app_assoc; reflexivity.
Qed.

Lemma listing_replies_witness :
  Leecher.processUserRequests "list_files friends"
    (Leecher.mk "tok" "127.0.0.1" 6000 (ClientSocket.mk "127.0.0.1" 5000 3)
       ∅ ∅ ∅ ["20 Success: a.txt b.txt"] [])
  = (Returned tt,
     Leecher.mk "tok" "127.0.0.1" 6000 (ClientSocket.mk "127.0.0.1" 5000 3)
       ∅ ∅ ∅ []
       [Logged "COMMAND" "Sending to tracker : list_files friends tok";
        Sent "22 list_files friends tok";
        Logged "COMMAND" "Received from tracker : Success: a.txt b.txt";
        Printed ("List of files in the group is as follows : a.txt" +:+ nl)]).
Proof.
  rewrite (listing_replies
    (Leecher.mk "tok" "127.0.0.1" 6000 (ClientSocket.mk "127.0.0.1" 5000 3)
       ∅ ∅ ∅ ["20 Success: a.txt b.txt"] [])
    "list_files friends" "list_files" "There are no files in the group!!"
    "List of files in the group is as follows : " "Success: a.txt b.txt" ["friends"] []).
  - reflexivity.
  - reflexivity.
  - cbn [In listings]. right. right. left. reflexivity.
  - reflexivity.
  - reflexivity.
  - vm_compute. discriminate.
Defined.

(** X25 - On a non-empty [content], [Logger::log] is defined and appends
    exactly one line to the log file: a newline, the time and the type in
    brackets, and the content without its last character when that is a
    newline (only one is removed).  No other file changes, and when the log
    file cannot be opened nothing is written. *)
Theorem log_appends_line (logger : Logger.t) (time type content : string)
    (disk : gmap string string) :
  empty content = false ->
  exists text disk',
    Logger.log logger time disk type content = Returned disk' /\
    (Logger.back content = Some "010"%char -> content = text +:+ nl) /\
    (Logger.back content <> Some "010"%char -> text = content) /\
    (forall path, path <> Logger.m_logFilePath logger -> disk' !! path = disk !! path) /\
    disk' !! Logger.m_logFilePath logger
    = (old ← disk !! Logger.m_logFilePath logger;
       Some (old +:+ nl +:+ "[" +:+ time +:+ "][" +:+ type +:+ "] " +:+ text)).
Proof.
  intros Hne.
  destruct (back_removelast content Hne) as (c & Hback & Hs).
  assert (Htrim : exists text, Logger.trim content = Returned text /\
    (Logger.back content = Some "010"%char -> content = text +:+ nl) /\
    (Logger.back content <> Some "010"%char -> text = content)).
  { unfold Logger.trim, Logger.pop_back. rewrite Hne. cbn [orb].
    destruct (bool_decide_reflect (Logger.back content = Some "010"%char)) as [Hnl|Hnl].
    - exists (Logger.removelast content). split; [reflexivity|]. split.
      + intros _. rewrite Hback in Hnl. injection Hnl as ->. exact Hs.
      + intros Hno. contradiction.
    - exists content. split; [reflexivity|]. split.
      + intros Hyes. contradiction.
      + reflexivity. }
  destruct Htrim as (text & Htrim & Hyes & Hno). exists text.
  unfold Logger.log. rewrite Htrim. cbn [mbind outcome_bind mret outcome_ret].
  destruct (disk !! Logger.m_logFilePath logger) as [old|] eqn:Hfile.
  - eexists. split; [reflexivity|]. split; [exact Hyes|]. split; [exact Hno|]. split.
    + intros path Hpath. apply lookup_insert_ne. congruence.
    + rewrite lookup_insert. cbn. rewrite ?decide_True by reflexivity. reflexivity.
  - exists disk. split; [reflexivity|]. split; [exact Hyes|]. split; [exact Hno|]. split.
    + reflexivity.
    + rewrite Hfile. reflexivity.
Qed.

Lemma log_appends_line_witness :
  empty ("Leecher started" +:+ nl) = false /\
  exists text disk',
    Logger.log (Logger.mk "127.0.0.1" "6000" "./logs" "./logs/127.0.0.1:6000.txt")
      "03/11/2026 10:00:00" {[ "./logs/127.0.0.1:6000.txt" := "" ]} "INFO"
      ("Leecher started" +:+ nl) = Returned disk' /\
    (Logger.back ("Leecher started" +:+ nl) = Some "010"%char ->
     "Leecher started" +:+ nl = text +:+ nl) /\
    (Logger.back ("Leecher started" +:+ nl) <> Some "010"%char ->
     text = "Leecher started" +:+ nl) /\
    (forall path, path <> "./logs/127.0.0.1:6000.txt" ->
       disk' !! path = ({[ "./logs/127.0.0.1:6000.txt" := "" ]} : gmap string string) !! path) /\
    disk' !! "./logs/127.0.0.1:6000.txt"
    = (old ← ({[ "./logs/127.0.0.1:6000.txt" := "" ]} : gmap string string)
               !! "./logs/127.0.0.1:6000.txt";
       Some (old +:+ nl +:+ "[" +:+ "03/11/2026 10:00:00" +:+ "][" +:+ "INFO" +:+ "] "
             +:+ text)).
Proof.
  split; [reflexivity|].
  apply (log_appends_line
    (Logger.mk "127.0.0.1" "6000" "./logs" "./logs/127.0.0.1:6000.txt")
    "03/11/2026 10:00:00" "INFO" ("Leecher started" +:+ nl)
    {[ "./logs/127.0.0.1:6000.txt" := "" ]}).
  reflexivity.
Defined.

(** ** A block that runs past the end of a message *)

Section Overrun.

Variable on_close : outcome string.

Lemma recv_loop_past later total received :
  Forall (fun b => 0 < size b <= RECV_BUFFER) later ->
  total < -1 -> INT_MIN <= total - size (stream later) ->
  recv_loop on_close later total received = (on_close, []).
Proof.
  revert total received. induction later as [|b later IH];
    intros total received Hwf Hneg Hmin; [reflexivity|].
  apply Forall_cons in Hwf as [Hb Hwf]. cbn [stream] in Hmin.
  rewrite size_sapp in Hmin. pose proof (size_nonneg (stream later)) as Hnn.
  cbn [recv_loop].
  destruct (size b =? 0) eqn:Hb0; [apply Z.eqb_eq in Hb0; lia|].
  destruct (total =? -1) eqn:Hm1; [apply Z.eqb_eq in Hm1; lia|].
  unfold int_arith. rewrite in_int_true by (unfold INT_MIN, INT_MAX in *; lia).
  cbn [mbind outcome_bind mret outcome_ret].
  destruct (total - size b =? 0) eqn:Hz; [apply Z.eqb_eq in Hz; lia|].
  apply IH; [assumption|lia|lia].
Qed.

Lemma recv_loop_overrun n part later :
  0 <= n -> n + 2 <= size part ->
  size part + size (stream later) <= INT_MAX ->
  Forall (fun b => 0 < size b <= RECV_BUFFER) later ->
  recv_loop on_close ((to_string n +:+ " " +:+ part) :: later) (-1) ""
  = (on_close, []).
Proof.
  intros Hn Hpart Hmax Hwf.
  pose proof (size_nonneg part) as Hp0. pose proof (size_nonneg (stream later)) as Hl0.
  pose proof (size_nonneg (to_string n)) as Ht0.
  cbn [recv_loop]. rewrite sapp_nil_l.
  assert (Hfirst : size (to_string n +:+ " " +:+ part) = size (to_string n) + 1 + size part).
  { rewrite !size_sapp. change (size " ") with 1. lia. }
  rewrite Hfirst.
  destruct (size (to_string n) + 1 + size part =? 0) eqn:Hz;
    [apply Z.eqb_eq in Hz; lia|].
  change (-1 =? -1) with true. cbn match.
  change (to_string n +:+ " " +:+ part) with (to_string n +:+ String " " part).
  rewrite tokenize_first by (apply to_string_no_space || apply to_string_nonempty).
  rewrite stoi_to_string by (apply in_int_true; unfold INT_MIN; lia).
  cbn [mbind outcome_bind mret outcome_ret].
  unfold substr. rewrite size_sapp.
  change (size (String " " part)) with (Z.of_nat (S (String.length part))).
  replace ((0 <=? size (to_string n) + 1)
           && (size (to_string n) + 1
               <=? size (to_string n) + Z.of_nat (S (String.length part))))
    with true by (symmetry; apply andb_true_iff; split; apply Z.leb_le; lia).
  cbn [mbind outcome_bind mret outcome_ret].
  rewrite wrap_int_id by (unfold INT_MIN, INT_MAX in *; lia).
  destruct (n - (size (to_string n) + 1 + size part - (size (to_string n) + 1)) =? 0)
    eqn:Hdone; [apply Z.eqb_eq in Hdone; lia|].
  apply recv_loop_past; [assumption|lia|unfold INT_MIN, INT_MAX in *; lia].
Qed.

End Overrun.

(** X26 - [recvSocket] relies on each [recv] ending at the end of the
    message.  When the block that carries the length also carries two or
    more bytes of what follows the message (the beginning of the next
    frame, say), the count of missing bytes becomes negative and never
    reaches zero: the loop reads every later block until the peer closes,
    and then the client throws "Error: Server closed the connection!!"
    and the server returns the empty string.  The message is never
    returned. *)
Theorem recvSocket_overrun (client : ClientSocket.t) (server : ServerSocket.t)
    (clientSocketFd : Z) (m extra : string) (later : list string) :
  ClientSocket.check client = Returned tt ->
  ServerSocket.m_socketFd server <> -1 ->
  2 <= size extra ->
  size m + size extra + size (stream later) <= INT_MAX ->
  Forall (fun b => 0 < size b <= RECV_BUFFER) later ->
  ClientSocket.recvSocket client ((frame m +:+ extra) :: later)
    = (Thrown "Error: Server closed the connection!!", []) /\
  ServerSocket.recvSocket server clientSocketFd ((frame m +:+ extra) :: later)
    = (Returned "", []).
Proof.
  intros Hclient Hserver Hextra Hmax Hwf. apply Z.eqb_neq in Hserver.
  unfold ClientSocket.recvSocket, ServerSocket.recvSocket. rewrite Hclient, Hserver.
  pose proof (size_nonneg m) as Hm0.
  assert (Hframe : frame m +:+ extra = to_string (size m) +:+ " " +:+ (m +:+ extra)).
  { unfold frame. cbv zeta. rewrite !sapp_assoc. reflexivity. }
  rewrite Hframe.
  split; apply recv_loop_overrun; rewrite ?size_sapp; (assumption || lia).
Qed.

Lemma recvSocket_overrun_witness :
  ClientSocket.recvSocket (ClientSocket.mk "127.0.0.1" 5000 3)
    ["5 hello3 abc"; "7 goodbye"]
    = (Thrown "Error: Server closed the connection!!", []) /\
  ServerSocket.recvSocket (ServerSocket.mk "127.0.0.1" 5001 4) 9
    ["5 hello3 abc"; "7 goodbye"]
    = (Returned "", []).
Proof.
  apply (recvSocket_overrun (ClientSocket.mk "127.0.0.1" 5000 3)
           (ServerSocket.mk "127.0.0.1" 5001 4) 9 "hello" "3 abc" ["7 goodbye"]).
  - reflexivity.
  - vm_compute. discriminate.
  - vm_compute. discriminate.
  - vm_compute. discriminate.
  - repeat constructor; vm_compute; congruence.
Defined.

(** X27 - A socket that has been closed refuses every later call: after a
    [closeSocket] that succeeds, a second [closeSocket], [sendSocket] and
    [recvSocket] all throw "Socket not exist!! ...", nothing is passed to
    [send] and no block of the connection is consumed.  This holds for the
    client's socket and for the seeder's. *)
Theorem closed_socket_refuses (client client' : ClientSocket.t)
    (server server' : ServerSocket.t) (clientSocketFd : Z) (message : string)
    (inbound : list string) :
  ClientSocket.closeSocket client = Returned client' ->
  ServerSocket.closeSocket server = Returned server' ->
  (ClientSocket.closeSocket client' = Thrown no_socket /\
   ClientSocket.sendSocket client' message = Thrown no_socket /\
   ClientSocket.recvSocket client' inbound = (Thrown no_socket, inbound)) /\
  (ServerSocket.closeSocket server' = Thrown no_socket /\
   ServerSocket.sendSocket server' clientSocketFd message = Thrown no_socket /\
   ServerSocket.recvSocket server' clientSocketFd inbound = (Thrown no_socket, inbound)).
Proof.
  unfold ClientSocket.closeSocket, ServerSocket.closeSocket.
  destruct (ClientSocket.m_socketFd client =? -1); [discriminate|].
  destruct (ServerSocket.m_socketFd server =? -1); [discriminate|].
  intros [= <-] [= <-]. repeat split.
Qed.

Lemma closed_socket_refuses_witness :
  ClientSocket.recvSocket (ClientSocket.mk "" (-1) (-1)) ["5 hello"]
    = (Thrown no_socket, ["5 hello"]) /\
  ServerSocket.sendSocket (ServerSocket.mk "" (-1) (-1)) 9 "hello" = Thrown no_socket.
Proof.
  destruct (closed_socket_refuses (ClientSocket.mk "127.0.0.1" 5000 3)
              (ClientSocket.mk "" (-1) (-1)) (ServerSocket.mk "127.0.0.1" 5001 4)
              (ServerSocket.mk "" (-1) (-1)) 9 "hello" ["5 hello"] eq_refl eq_refl)
    as [(_ & _ & Hrecv) (_ & Hsend & _)].
  split; [exact Hrecv|exact Hsend].
Defined.

(** X28 - [create_user] and the eight forwarded commands that are not
    listings ([create_group], [join_group], [leave_group],
    [accept_request], [upload_file], [download_file], [show_downloads],
    [stop_share]) make one exchange with the tracker and print its answer
    in green when it is not an error.  [create_user] sends the line as
    typed; the others send it followed by the session token. *)
Theorem plain_commands_print_answer (l : Leecher.t)
    (inputFromClient tokens0 response : string) (args rest : list string) :
  Utils.tokenize inputFromClient " " = tokens0 :: args ->
  tokens0 = "create_user" \/
  (In tokens0 forwarded /\
   forall none_text header, ~ In (tokens0, none_text, header) listings) ->
  ClientSocket.check (Leecher.m_clientSocket l) = Returned tt ->
  ClientSocket.recvSocket (Leecher.m_clientSocket l) (Leecher.tracker_in l)
    = (Returned response, rest) ->
  take 5 response <> "Error" ->
  let message :=
    if String.eqb tokens0 "create_user" then inputFromClient
    else inputFromClient +:+ " " +:+ Leecher.m_authToken l in
  Leecher.processUserRequests inputFromClient l
  = (Returned tt,
     after l (Leecher.m_authToken l) (Leecher.m_clientSocket l) rest
       [Logged "COMMAND" ("Sending to tracker : " +:+ message);
        Sent (to_string (size message) +:+ " " +:+ message);
        Logged "COMMAND" ("Received from tracker : " +:+ response);
        Printed (GREEN +:+ response +:+ nl +:+ RESET)]).
Proof.
  intros Htok Hcmd Hcheck Hrecv Hok message.
  assert (Hrun : Leecher.processUserRequests inputFromClient l
    = (response0 ← Leecher.sendTracker message;
       Leecher.emit (Printed (GREEN +:+ response0 +:+ nl +:+ RESET))) l).
  { unfold Leecher.processUserRequests. rewrite Htok. subst message.
    destruct Hcmd as [->|[Hin Hnot]]; [reflexivity|].
    unfold forwarded in Hin. cbn [In] in Hin.
    repeat (destruct Hin as [<-|Hin];
      [first [reflexivity
             |exfalso; eapply Hnot; left; reflexivity
             |exfalso; eapply Hnot; right; left; reflexivity
             |exfalso; eapply Hnot; right; right; left; reflexivity]|]).
    contradiction. }
  rewrite Hrun. run_leecher.
  rewrite (sendTracker_ok _ _ _ _ Hcheck Hrecv Hok).
  unfold after. run_leecher. rewrite <- !app_assoc. reflexivity.
Qed.

Lemma plain_commands_print_answer_witness :
  Leecher.processUserRequests "create_user alice secret"
    (Leecher.mk "NULL" "127.0.0.1" 6000 (ClientSocket.mk "127.0.0.1" 5000 3)
       ∅ ∅ ∅ ["21 Success: user created"] [])
  = (Returned tt,
     Leecher.mk "NULL" "127.0.0.1" 6000 (ClientSocket.mk "127.0.0.1" 5000 3)
       ∅ ∅ ∅ []
       [Logged "COMMAND" "Sending to tracker : create_user alice secret";
        Sent "24 create_user alice secret";
        Logged "COMMAND" "Received from tracker : Success: user created";
        Printed (GREEN +:+ "Success: user created" +:+ nl +:+ RESET)]).
Proof.
  apply (plain_commands_print_answer
    (Leecher.mk "NULL" "127.0.0.1" 6000 (ClientSocket.mk "127.0.0.1" 5000 3)
       ∅ ∅ ∅ ["21 Success: user created"] [])
    "create_user alice secret" "create_user" "Success: user created"
    ["alice"; "secret"] []).
  - reflexivity.
  - left. reflexivity.
  - reflexivity.
  - reflexivity.
  - vm_compute. discriminate.
Defined.
